(** * LMTAD: trajectory vocabulary, feature vectors, outlier synthesis, collation

    A shallow embedding of [code/datasets.py]: the vocabulary codec
    ([VocabDictionary]), the check-in dataset ([POLDataset]) and the taxi
    dataset ([PortoDataset]) with its synthetic outlier generators, followed
    by the properties established about them.

    Python values are modelled as follows: [int] is [Z]; [float] is an IEEE
    binary64 number ([spec_float] at precision 53); [str] is [string]; lists
    are lists; a [dict] is an association list in insertion order; an
    exception is the [Raise] branch of [result]; the process-wide numpy
    generator is a state threaded through the computations that draw from
    it. *)

From Stdlib Require Import ZArith String Ascii List Lia.
From Stdlib Require Import Floats.SpecFloat.
From stdpp Require Import base tactics option list strings pretty.

Open Scope Z_scope.

(** ** Python runtime *)

Module Py.

(** The exceptions met.  [Unsupported] is none of Python's: it marks an
    input outside what this development reads ([eval] of anything but a
    flat list literal, [int] of a string with characters beyond ASCII);
    on such an input nothing is said about the code. *)
Inductive pyerr : Set :=
| KeyError | IndexError | ValueError | OverflowError
| ZeroDivisionError | RuntimeError | Unsupported.

Inductive result (A : Type) : Type :=
| Ok (a : A)
| Raise (e : pyerr).
Arguments Ok {A} a.
Arguments Raise {A} e.

#[global] Instance result_ret : MRet result := fun A => @Ok A.
#[global] Instance result_bind : MBind result := fun A B f m =>
  match m with Ok a => f a | Raise e => Raise e end.
#[global] Instance result_fmap : FMap result := fun A B f m =>
  match m with Ok a => Ok (f a) | Raise e => Raise e end.

Definition is_ok {A} (r : result A) : Prop := exists a, r = Ok a.
Definition raises {A} (r : result A) : Prop := exists e, r = Raise e.

(** *** Lists *)

Definition len {A} (l : list A) : Z := Z.of_nat (length l).

(** [l[i]], negative indices counting from the end. *)
Definition index {A} (l : list A) (i : Z) : result A :=
  let j := if i <? 0 then i + len l else i in
  if j <? 0 then Raise IndexError
  else match l !! Z.to_nat j with
       | Some x => Ok x
       | None => Raise IndexError
       end.

(** A slice bound, clamped the way [list.__getitem__] clamps it. *)
Definition clamp (n i : Z) : Z :=
  if i <? 0 then Z.max (i + n) 0 else Z.min i n.

(** [l[lo:hi]]; an omitted bound is [None]. *)
Definition slice {A} (l : list A) (lo hi : option Z) : list A :=
  let n := len l in
  let a := clamp n (default 0 lo) in
  let b := clamp n (default n hi) in
  take (Z.to_nat (b - a)) (drop (Z.to_nat a) l).

(** [[x] * n]: empty when [n] is not positive. *)
Definition times {A} (x : A) (n : Z) : list A := replicate (Z.to_nat n) x.

(** [max(l)] on a list of ints. *)
Definition max_of (l : list Z) : result Z :=
  match l with
  | [] => Raise ValueError
  | x :: r => Ok (foldl Z.max x r)
  end.

(** *** Symbols: the values that occur in trajectories *)

Inductive pyval : Set :=
| PStr (s : string)
| PInt (z : Z).

(** [str(v)] *)
Definition str (v : pyval) : string :=
  match v with
  | PStr s => s
  | PInt z => pretty z
  end.

(** *** Floats (binary64) *)

Definition float : Set := spec_float.
Definition prec : Z := 53.
Definition emax : Z := 1024.

Definition fmul : float -> float -> float := SFmul prec emax.
Definition fadd : float -> float -> float := SFadd prec emax.
Definition fsub : float -> float -> float := SFsub prec emax.
Definition flt : float -> float -> bool := SFltb.
Definition fle : float -> float -> bool := SFleb.

(** [float(z)]: too large an int does not convert. *)
Definition float_of_int (z : Z) : result float :=
  match binary_normalize prec emax z 0 false with
  | S754_infinity _ => Raise OverflowError
  | f => Ok f
  end.

(** The float literal [a/b] for small [a], [b]: the double nearest to the
    quotient, as the parser of Python reads [0.5], [0.2], [0.3]. *)
Definition float_lit (a b : Z) : float :=
  SFdiv prec emax (binary_normalize prec emax a 0 false)
                  (binary_normalize prec emax b 0 false).

(** [int(f)]: truncation towards zero. *)
Definition int_of_float (f : float) : result Z :=
  match f with
  | S754_zero _ => Ok 0
  | S754_infinity _ => Raise OverflowError
  | S754_nan => Raise ValueError
  | S754_finite s m e => Ok (cond_Zopp s (Z.shiftl (Zpos m) e))
  end.

(** [int(n * f)] for an int [n] and a float [f]. *)
Definition int_mul_float (n : Z) (f : float) : result Z :=
  x ← float_of_int n; int_of_float (fmul x f).

(** [a / b] on ints: the double nearest to the quotient, whatever the
    size of the operands. *)
Definition raw_float (z : Z) : float :=
  match z with
  | Z0 => S754_zero false
  | Zpos p => S754_finite false p 0
  | Zneg p => S754_finite true p 0
  end.

Definition int_truediv (a b : Z) : result float :=
  if b =? 0 then Raise ZeroDivisionError
  else match SFdiv prec emax (raw_float a) (raw_float b) with
       | S754_infinity _ => Raise OverflowError
       | f => Ok f
       end.

(** *** Numbers: an [int] or a [float], as a variable of Python holds

    Arithmetic on two ints is exact; as soon as one operand is a float
    the other is converted and the operation is that of binary64.
    Comparisons between an int and a float compare the exact values. *)

Inductive num : Set :=
| NInt (z : Z)
| NFloat (f : float).

Definition to_float (v : num) : result float :=
  match v with
  | NInt z => float_of_int z
  | NFloat f => Ok f
  end.

Definition num_mul (a b : num) : result num :=
  match a, b with
  | NInt x, NInt y => Ok (NInt (x * y))
  | _, _ => fa ← to_float a; fb ← to_float b; Ok (NFloat (fmul fa fb))
  end.

Definition num_add (a b : num) : result num :=
  match a, b with
  | NInt x, NInt y => Ok (NInt (x + y))
  | _, _ => fa ← to_float a; fb ← to_float b; Ok (NFloat (fadd fa fb))
  end.

(** The exact order of a float and an int; [None] for a NaN. *)
Definition float_compare_int (f : float) (z : Z) : option comparison :=
  match f with
  | S754_nan => None
  | S754_infinity s => Some (if s then Lt else Gt)
  | S754_zero _ => Some (0 ?= z)
  | S754_finite s m e =>
      Some (if 0 <=? e
            then cond_Zopp s (Zpos m) * 2 ^ e ?= z
            else cond_Zopp s (Zpos m) ?= z * 2 ^ (- e))
  end.

Definition num_compare_int (v : num) (z : Z) : option comparison :=
  match v with
  | NInt x => Some (x ?= z)
  | NFloat f => float_compare_int f z
  end.

(** [z <= v] and [v < z] for an int [z] *)
Definition int_le_num (z : Z) (v : num) : bool :=
  match num_compare_int v z with
  | Some (Eq | Gt) => true
  | _ => false
  end.

Definition num_lt_int (v : num) (z : Z) : bool :=
  match num_compare_int v z with
  | Some Lt => true
  | _ => false
  end.

(** [int(v)] *)
Definition int_of_num (v : num) : result Z :=
  match v with
  | NInt z => Ok z
  | NFloat f => int_of_float f
  end.

(** *** Dictionaries, in insertion order *)

Section Dict.
Context {K V : Type} `{EqDecision K}.

Fixpoint dict_get (d : list (K * V)) (k : K) : option V :=
  match d with
  | [] => None
  | (k', v) :: r => if decide (k = k') then Some v else dict_get r k
  end.

(** [d[k] = v]: overwrite in place, or append a new item. *)
Fixpoint dict_set (d : list (K * V)) (k : K) (v : V) : list (K * V) :=
  match d with
  | [] => [(k, v)]
  | (k', v') :: r =>
      if decide (k = k') then (k', v) :: r else (k', v') :: dict_set r k v
  end.

(** The dict built from a sequence of (key, value) pairs, later pairs
    overwriting earlier ones ([json.load] of an object, a dict
    comprehension). *)
Definition dict_of_pairs (ps : list (K * V)) : list (K * V) :=
  fold_left (fun d kv => dict_set d kv.1 kv.2) ps [].

(** [d[k]] *)
Definition dict_lookup (d : list (K * V)) (k : K) : result V :=
  match dict_get d k with
  | Some v => Ok v
  | None => Raise KeyError
  end.
End Dict.

(** *** [eval] of a textual list literal

    The tables store sequences as text ([[88, 102]], [['day_4']]).  The
    reader below accepts flat lists of decimal integers and of quoted
    strings without escapes; on what it accepts it agrees with [eval].
    Whatever else the text holds (an expression, an escape, another
    literal, or a text [eval] rejects) is [Unsupported]. *)

Inductive token : Set :=
| TLBr | TRBr | TComma
| TInt (z : Z)
| TStr (s : string).

Inductive lex_mode : Set :=
| Idle
| InInt (neg : bool) (acc : option (Z * bool))
| InStr (q : ascii) (acc : list ascii).

Definition digit_of (c : ascii) : option Z :=
  let n := Z.of_nat (nat_of_ascii c) in
  if (48 <=? n) && (n <=? 57) then Some (n - 48) else None.

Definition idle_step (c : ascii) : option (list token * lex_mode) :=
  if Ascii.eqb c " " then Some ([], Idle)
  else if Ascii.eqb c "[" then Some ([TLBr], Idle)
  else if Ascii.eqb c "]" then Some ([TRBr], Idle)
  else if Ascii.eqb c "," then Some ([TComma], Idle)
  else if Ascii.eqb c "-" then Some ([], InInt true None)
  else if Ascii.eqb c "'" then Some ([], InStr c [])
  else if Ascii.eqb c (ascii_of_nat 34) then Some ([], InStr c [])
  else match digit_of c with
       | Some d => Some ([], InInt false (Some (d, d =? 0)))
       | None => None
       end.

Definition lex_step (m : lex_mode) (c : ascii)
  : option (list token * lex_mode) :=
  match m with
  | Idle => idle_step c
  | InStr q acc =>
      if Ascii.eqb c q
      then Some ([TStr (string_of_list_ascii (rev acc))], Idle)
      else if Ascii.eqb c "\" || Ascii.eqb c (ascii_of_nat 10)
              || Ascii.eqb c (ascii_of_nat 13) || Ascii.eqb c (ascii_of_nat 0)
      then None
      else Some ([], InStr q (c :: acc))
  | InInt neg None =>
      match digit_of c with
      | Some d => Some ([], InInt neg (Some (d, d =? 0)))
      | None => None
      end
  | InInt neg (Some (n, lead0)) =>
      match digit_of c with
      | Some d => if lead0 then None
                  else Some ([], InInt neg (Some (10 * n + d, false)))
      | None =>
          match idle_step c with
          | Some (ts, m') => Some (TInt (if neg then - n else n) :: ts, m')
          | None => None
          end
      end
  end.

Definition lex_end (m : lex_mode) : option (list token) :=
  match m with
  | Idle => Some []
  | InInt neg (Some (n, _)) => Some [TInt (if neg then - n else n)]
  | _ => None
  end.

Fixpoint lex (m : lex_mode) (cs : list ascii) : option (list token) :=
  match cs with
  | [] => lex_end m
  | c :: r =>
      match lex_step m c with
      | Some (ts, m') =>
          match lex m' r with
          | Some ts' => Some (ts ++ ts')
          | None => None
          end
      | None => None
      end
  end.

Inductive parse_state : Set := PStart | PAfterElem | PAfterComma.

Fixpoint parse_items (st : parse_state) (ts : list token)
  : option (list pyval) :=
  match ts with
  | [] => None
  | TRBr :: r => match r with [] => Some [] | _ => None end
  | TComma :: r =>
      match st with
      | PAfterElem => parse_items PAfterComma r
      | _ => None
      end
  | TInt z :: r =>
      match st with
      | PAfterElem => None
      | _ => cons (PInt z) <$> parse_items PAfterElem r
      end
  | TStr s :: r =>
      match st with
      | PAfterElem => None
      | _ => cons (PStr s) <$> parse_items PAfterElem r
      end
  | TLBr :: _ => None
  end.

Definition eval_list (s : string) : result (list pyval) :=
  match lex Idle (list_ascii_of_string s) with
  | Some (TLBr :: r) =>
      match parse_items PStart r with
      | Some l => Ok l
      | None => Raise Unsupported
      end
  | _ => Raise Unsupported
  end.

(** *** Paths and text files *)

Fixpoint ends_with_sep (s : string) : bool :=
  match s with
  | EmptyString => false
  | String c EmptyString => Ascii.eqb c "/"
  | String _ r => ends_with_sep r
  end.

(** [os.path.join(a, b)] (POSIX) *)
Definition path_join (a b : string) : string :=
  if String.prefix "/" b then b
  else if (String.length a =? 0)%nat || ends_with_sep a then a +:+ b
  else a +:+ "/" +:+ b.

Definition newline : ascii := ascii_of_nat 10.

(** [f.readlines()] on the text of a file: the lines, each with its
    terminator, the last one possibly without. *)
Fixpoint readlines_from (acc : list ascii) (cs : list ascii) : list string :=
  match cs with
  | [] => match acc with
          | [] => []
          | _ => [string_of_list_ascii (rev acc)]
          end
  | c :: r =>
      if Ascii.eqb c newline
      then string_of_list_ascii (rev (c :: acc)) :: readlines_from [] r
      else readlines_from (c :: acc) r
  end.

(** Text mode reads every line terminator as a newline. *)
Definition carriage_return : ascii := ascii_of_nat 13.

Fixpoint universal_newlines (cs : list ascii) : list ascii :=
  match cs with
  | [] => []
  | c :: r =>
      if Ascii.eqb c carriage_return
      then newline :: match r with
                      | c' :: r' => if Ascii.eqb c' newline
                                    then universal_newlines r'
                                    else universal_newlines r
                      | [] => []
                      end
      else c :: universal_newlines r
  end.

Definition readlines (text : string) : list string :=
  readlines_from [] (universal_newlines (list_ascii_of_string text)).

(** A line without its terminator. *)
Fixpoint chomp (line : string) : string :=
  match line with
  | EmptyString => EmptyString
  | String c EmptyString => if Ascii.eqb c newline then EmptyString else line
  | String c r => String c (chomp r)
  end.

(** [eval(line)] for a line of a trajectory file: a list of ints.  [eval]
    ignores the terminator of the line; another literal than a flat list
    of ints is outside this reader. *)
Definition eval_line (line : string) : result (list Z) :=
  l ← eval_list (chomp line);
  mapM (fun v => match v with
                 | PInt z => Ok z
                 | PStr _ => Raise Unsupported
                 end) l.

End Py.
Import Py.

(** ** The vocabulary codec: [VocabDictionary] *)

Module Vocab.

(** The two dicts of a [VocabDictionary]; the ids of the vocabulary file
    are ints. *)
Record VocabDictionary : Type := {
  vocab : list (string * Z);
  reverse_map_vocab : list (Z * string)
}.

(** [__init__]: [file] is the sequence of members of the JSON object in
    the vocabulary file. *)
Definition init (file : list (string * Z)) : VocabDictionary :=
  let v := dict_of_pairs file in
  {| vocab := v;
     reverse_map_vocab :=
       dict_of_pairs (map (fun '(item, value) => (value, item)) v) |}.

(** [__len__] *)
Definition size (d : VocabDictionary) : Z := len (vocab d).

Definition encode (d : VocabDictionary) (trajectory : list pyval)
  : result (list Z) :=
  mapM (fun string => dict_lookup (vocab d) (str string)) trajectory.

Definition decode (d : VocabDictionary) (tokens : list Z)
  : result (list pyval) :=
  mapM (fun token => PStr <$> dict_lookup (reverse_map_vocab d) token) tokens.

Definition pad : string := "PAD".
Definition eot : string := "EOT".
Definition pad_token (d : VocabDictionary) : result Z :=
  dict_lookup (vocab d) pad.
Definition eot_token (d : VocabDictionary) : result Z :=
  dict_lookup (vocab d) eot.

(** The vocabulary maps distinct symbols to distinct ids. *)
Definition injective (d : VocabDictionary) : Prop :=
  forall k1 k2 v,
    dict_get (vocab d) k1 = Some v -> dict_get (vocab d) k2 = Some v ->
    k1 = k2.

(** [s in vocab] for a trajectory element: only a [str] can be a key. *)
Definition is_key (d : VocabDictionary) (s : pyval) : Prop :=
  match s with
  | PStr k => is_Some (dict_get (vocab d) k)
  | PInt _ => False
  end.

End Vocab.
Import Vocab.

(** ** Batches *)

Module Batch.

(** An element of an [int64] tensor. *)
Definition int64 (z : Z) : bool := (- 2 ^ 63 <=? z) && (z <? 2 ^ 63).

(** [torch.tensor] of a list of rows of ints: the rows must have one
    length ([ValueError]), and every element must fit the [int64] the
    tensor holds ([RuntimeError], an overflow when unpacking). *)
Definition tensor (rows : list (list Z)) : result (list (list Z)) :=
  match rows with
  | [] => Ok []
  | r :: rest =>
      if forallb (fun r' => len r' =? len r) rest
      then if forallb (forallb int64) rows then Ok rows
           else Raise RuntimeError
      else Raise ValueError
  end.

Record batch (Meta : Type) : Type := {
  data : list (list Z);
  mask : list (list Z);
  metadata : list Meta
}.
Arguments data {Meta} b.
Arguments mask {Meta} b.
Arguments metadata {Meta} b.

End Batch.
Import Batch.

(** ** The check-in dataset: [POLDataset] *)

Module POL.

(** One line of the grouped table.  The five trailing columns hold list
    literals as text; [date] is the day the [date] column denotes
    ([pd.to_datetime]), counted in days. *)
Record Row : Type := {
  user_id : string;
  date : Z;
  dayofweek : string;
  place : string;
  token : string;
  duration_bucket : string;
  distance_label : string
}.

(** [POLConfig]; [block_size] is [None] when pandas computes [nan]. *)
Record POLConfig : Type := {
  features : list string;
  block_size : option Z;
  include_outliers : bool;
  outlier_days : Z
}.

Definition outlier_list : list Z :=
  [546; 644; 347; 62; 551; 992; 554; 949; 900; 57].

(** A line after the merge: the row, its numeric user id, its label. *)
Record Labelled : Type := {
  row : Row;
  user_id_int : Z;
  outlier : string
}.

(** [s.split("_")[-1]] *)
Fixpoint last_segment (acc cs : list ascii) : list ascii :=
  match cs with
  | [] => rev acc
  | c :: r => if Ascii.eqb c "_" then last_segment [] r
              else last_segment (c :: acc) r
  end.

Fixpoint digits_value (acc : Z) (cs : list ascii) : option Z :=
  match cs with
  | [] => Some acc
  | c :: r => match digit_of c with
              | Some d => digits_value (10 * acc + d) r
              | None => None
              end
  end.

(** The ASCII characters [int] takes for white space: tab to carriage
    return, the four separators and the space. *)
Definition is_space (c : ascii) : bool :=
  let n := Z.of_nat (nat_of_ascii c) in
  ((9 <=? n) && (n <=? 13)) || ((28 <=? n) && (n <=? 32)).

Fixpoint strip_left (cs : list ascii) : list ascii :=
  match cs with
  | c :: r => if is_space c then strip_left r else cs
  | [] => []
  end.

Definition strip (cs : list ascii) : list ascii :=
  rev (strip_left (rev (strip_left cs))).

(** [astype(int)] on one string, a segment of [split("_")] (so without
    underscore): [int(s)] reads white space, an optional sign, decimal
    digits and white space, and the value must fit [int64].  Characters
    beyond ASCII (other digits, other spaces) are not read here. *)
Definition int_of_string (cs : list ascii) : result Z :=
  if existsb (fun c => 128 <=? Z.of_nat (nat_of_ascii c)) cs
  then Raise Unsupported
  else
    let '(neg, ds) :=
      match strip cs with
      | c :: r => if Ascii.eqb c "-" then (true, r)
                  else if Ascii.eqb c "+" then (false, r)
                  else (false, strip cs)
      | [] => (false, [])
      end in
    match ds with
    | [] => Raise ValueError
    | _ => match digits_value 0 ds with
           | Some n => if int64 (if neg then - n else n)
                       then Ok (if neg then - n else n)
                       else Raise OverflowError
           | None => Raise ValueError
           end
    end.

(** [data["user_id"].str.split("_").str[-1].astype(int)], one row. *)
Definition parse_user_id (r : Row) : result Z :=
  int_of_string (last_segment [] (list_ascii_of_string (user_id r))).

(** [Series.max()]: [None] on an empty column. *)
Definition series_max (l : list Z) : option Z :=
  match l with
  | [] => None
  | x :: r => Some (foldl Z.max x r)
  end.

(** [get_data]: labels the rows, drops the outliers unless configured to
    keep them, and derives [block_size].  Returns the configuration as
    updated, [data] and [outliers]. *)
Definition get_data (config : POLConfig) (table : list Row)
  : result (POLConfig * list Labelled * list (Z * Z)) :=
  ids ← mapM parse_user_id table;
  let data := zip table ids in
  let recent (d : Z) : bool :=
    match series_max (map (fun r => date r.1) data) with
    | Some m => m - outlier_days config <? d
    | None => false
    end in
  let outliers :=
    map (fun r => (r.2, date r.1))
      (filter (fun r => r.2 ∈ outlier_list)
         (filter (fun r => recent (date r.1) = true) data)) in
  (* pd.merge(..., how='left') on (user_id_int, date), then the label *)
  let merged :=
    flat_map (fun r =>
      match filter (fun o => o = (r.2, date r.1)) outliers with
      | [] => [{| row := r.1; user_id_int := r.2; outlier := "non outlier" |}]
      | ms => map (fun _ => {| row := r.1; user_id_int := r.2;
                               outlier := "outlier" |}) ms
      end) data in
  let data :=
    if negb (include_outliers config)
    then filter (fun r => outlier r ≠ "outlier"%string) merged
    else merged in
  (* data.token.str.len().max() * len(features) + 3 *)
  let block :=
    (fun m => m * len (features config) + 3) <$>
      series_max (map (fun r => Z.of_nat (String.length (token (row r)))) data) in
  Ok ({| features := features config;
         block_size := block;
         include_outliers := include_outliers config;
         outlier_days := outlier_days config |}, data, outliers).

Fixpoint zip4 {A B C D} (a : list A) (b : list B) (c : list C) (d : list D)
  : list (A * B * C * D) :=
  match a, b, c, d with
  | x :: a', y :: b', z :: c', w :: d' => (x, y, z, w) :: zip4 a' b' c' d'
  | _, _, _, _ => []
  end.

Definition has (features : list string) (f : string) : bool :=
  bool_decide (f ∈ features).

(** [get_feature_vector] *)
Definition get_feature_vector (config : POLConfig) (sample : Row)
  : result (list pyval) :=
  days ← eval_list (dayofweek sample);
  day ← index days 0;
  places ← eval_list (place sample);
  tokens ← eval_list (token sample);
  duration_buckets ← eval_list (duration_bucket sample);
  distances ← eval_list (distance_label sample);
  let current_seq '(place, token, duration_bucket, distance) :=
    (if has (features config) "place" then [place] else []) ++
    (if has (features config) "gps" then [PStr (str token)] else []) ++
    (if has (features config) "duration" then [duration_bucket] else []) ++
    (if has (features config) "distance" then [distance] else []) in
  Ok ([PStr (user_id sample); day] ++
      flat_map current_seq (zip4 places tokens duration_buckets distances) ++
      [PStr "EOT"]).

Definition Meta : Type := string * Z * string.

(** [__getitem__] *)
Definition getitem (config : POLConfig) (dictionary : VocabDictionary)
    (data : list Labelled) (i : Z) : result (Meta * list Z) :=
  sample ← index data i;
  daily_trajectory_feature ← get_feature_vector config (row sample);
  tokens ← encode dictionary daily_trajectory_feature;
  Ok ((user_id (row sample), date (row sample), outlier sample), tokens).

(** [collate] *)
Definition collate (dictionary : VocabDictionary)
    (data : list (Meta * list Z)) : result (batch Meta) :=
  max_lenth ← max_of (map (fun item => len item.2) data);
  rows ← mapM (fun '(metadata, tokens) =>
            let mask := times 1 (len tokens) ++ times 0 (max_lenth - len tokens) in
            pad ← pad_token dictionary;
            let tokens_ := tokens ++ times pad (max_lenth - len tokens) in
            Ok (tokens_, mask, metadata)) data;
  token_lists ← tensor (map (fun r => r.1.1) rows);
  masks ← tensor (map (fun r => r.1.2) rows);
  Ok {| Batch.data := token_lists; mask := masks;
        metadata := map (fun r => r.2) rows |}.

(** [get_dictionary_path]; the configured [data_dir] is an argument. *)
Definition get_dictionary_path (config : POLConfig) (data_dir : string)
  : string :=
  let file_name := "vocab"%string in
  let file_name := if has (features config) "gps"
                   then file_name +:+ "_gps" else file_name in
  let file_name := if has (features config) "distance"
                   then file_name +:+ "_distance" else file_name in
  let file_name := if has (features config) "duration"
                   then file_name +:+ "_duration" else file_name in
  let file_name := if has (features config) "place"
                   then file_name +:+ "_place" else file_name in
  let file_name := file_name +:+ ".json" in
  path_join data_dir file_name.

(** [get_all_data]: the path of the file it writes and the lines of the
    table written there ([user_id_int], [date], [feature]). *)
Definition get_all_data (config : POLConfig) (data_dir : string)
    (data : list Labelled) : result (string * list (Z * Z * list pyval)) :=
  rows ← mapM (fun sample =>
            daily_trajectory_feature ← get_feature_vector config (row sample);
            Ok (user_id_int sample, date (row sample),
                daily_trajectory_feature)) data;
  let file_name := "data_with_features"%string in
  let file_name := if has (features config) "gps"
                   then file_name +:+ "_gps" else file_name in
  let file_name := if has (features config) "distance"
                   then file_name +:+ "_distance" else file_name in
  let file_name := if has (features config) "duration"
                   then file_name +:+ "_duration" else file_name in
  let file_name := if has (features config) "place"
                   then file_name +:+ "_place" else file_name in
  let file_name := file_name +:+ ".tsv" in
  Ok (data_dir +:+ "/" +:+ file_name, rows).

(** [get_samples_for_user].  [frame_index] is [self.data.index], the row
    labels of the frame: [.index.tolist()] returns the labels of the rows
    of the user, and [__getitem__] takes each as a position. *)
Definition get_samples_for_user (config : POLConfig)
    (dictionary : VocabDictionary) (frame_index : list Z)
    (data : list Labelled) (user : pyval) : result (list (Meta * list Z)) :=
  let indices :=
    map fst (filter (fun p : Z * Labelled =>
                       user_id (row p.2) = "user_" +:+ str user)
               (zip frame_index data)) in
  mapM (getitem config dictionary data) indices.

(** The index of the frame [get_data] leaves in [self.data]: [pd.merge]
    numbers the merged rows from 0, and the filter that drops the outliers
    keeps the numbers of the rows it keeps. *)
Definition get_data_index (config : POLConfig) (table : list Row)
  : result (list Z) :=
  merged ← get_data {| features := features config;
                       block_size := block_size config;
                       include_outliers := true;
                       outlier_days := outlier_days config |} table;
  let numbered := zip (seqZ 0 (len merged.1.2)) merged.1.2 in
  Ok (map fst (if negb (include_outliers config)
               then filter (fun p : Z * Labelled =>
                              outlier p.2 ≠ "outlier"%string) numbered
               else numbered)).

End POL.

(** ** The numpy generator

    [np.random] is one process-wide generator.  Its algorithm is left open:
    a generator is any state type with a seeding function and the two draws
    the code uses, [randint] returning a value of the requested range. *)

Module Random.

Class Generator : Type := {
  rng : Type;
  (** the state [np.random.seed(s)] installs *)
  seeded : Z -> rng;
  (** one draw of [np.random.randint(low, high)], for [low < high] *)
  next_int : Z -> Z -> rng -> Z * rng;
  (** one draw of [np.random.random()] *)
  next_float : rng -> float * rng;
  next_int_range : forall low high g,
    low < high -> low <= (next_int low high g).1 < high
}.

Section Monad.
Context `{Generator}.

(** A computation that may draw from the generator and may raise. *)
Definition M (A : Type) : Type := rng -> result (A * rng).

Definition ret {A} (a : A) : M A := fun g => Ok (a, g).

Definition bind {A B} (c : M A) (k : A -> M B) : M B := fun g =>
  match c g with
  | Ok (a, g') => k a g'
  | Raise e => Raise e
  end.

Definition lift {A} (r : result A) : M A := fun g =>
  match r with
  | Ok a => Ok (a, g)
  | Raise e => Raise e
  end.

(** A loop appending [f x] for each [x] of [l], in order. *)
Fixpoint for_each {A B} (f : A -> M B) (l : list A) : M (list B) :=
  match l with
  | [] => ret []
  | x :: r => bind (f x) (fun y => bind (for_each f r) (fun ys => ret (y :: ys)))
  end.

(** [np.random.seed(s)] *)
Definition seed (s : Z) : M unit := fun _ => Ok (tt, seeded s).

(** [np.random.randint(low, high)]: the bounds must fit 64 bits and
    [low < high]. *)
Definition randint (low high : Z) : M Z := fun g =>
  if (low <? - 2 ^ 63) || (2 ^ 63 <? high) then Raise ValueError
  else if low <? high then Ok (next_int low high g)
  else Raise ValueError.

(** [np.random.randint(low, high, size=size)] *)
Definition randint_size (low high size : Z) : M (list Z) :=
  if size <? 0 then lift (Raise ValueError)
  else if size =? 0 then ret []
  else for_each (fun _ => randint low high) (replicate (Z.to_nat size) tt).

(** [np.random.random()] *)
Definition random : M float := fun g => Ok (next_float g).

End Monad.

(** [np.random.permutation(n)]: the generator returns some arrangement
    of [0 .. n-1]. *)
Class Permuter `{Generator} : Type := {
  next_permutation : Z -> rng -> list Z * rng;
  next_permutation_perm : forall n g, (next_permutation n g).1 ≡ₚ seqZ 0 n
}.

Definition permutation `{Permuter} (n : Z) : M (list Z) :=
  fun g => Ok (next_permutation n g).

End Random.
Import Random.

Notation "x <~ c ;; k" := (bind c (fun x => k))
  (at level 100, c at next level, right associativity,
   format "x  <~  c ;;  '/' k").

(** ** The taxi dataset: [PortoDataset] *)

Module Porto.

Record PortoConfig : Type := {
  grip_size : Z * Z;
  block_size : Z;
  outlier_level : Z;
  outlier_prob : float;
  outlier_ratio : float;
  outliers_list : list string;
  include_outliers : bool
}.

(** [a // b] and [a % b] on ints *)
Definition floordiv (a b : Z) : result Z :=
  if b =? 0 then Raise ZeroDivisionError else Ok (a / b).
Definition modulo (a b : Z) : result Z :=
  if b =? 0 then Raise ZeroDivisionError else Ok (a mod b).

Definition compass : list (Z * Z) :=
  [(0, 1); (1, 0); (-1, 0); (0, -1); (1, 1); (-1, -1); (-1, 1); (1, -1)].

Section Outliers.
Context `{Generator}.

(** [v + offset * level], the coordinate a shift would reach *)
Definition moved (v : Z) (offset : num) (level : Z) : result num :=
  d ← num_mul offset (NInt level); num_add (NInt v) d.

(** [0 <= v < bound] *)
Definition within (v : num) (bound : Z) : bool :=
  int_le_num 0 v && num_lt_int v bound.

(** [_perturb_point].  The coordinates start as ints.  An offset drawn
    from the compass is a pair of ints; a supplied one is what the caller
    passes (the detour generator passes floats), and from then on the
    arithmetic is that of the operands: on ints when both are ints, on
    binary64 otherwise.  The second half of the condition is evaluated
    only when the first holds. *)
Definition _perturb_point (map_size : Z * Z) (point level : Z)
    (offset : option (num * num)) : M Z :=
  x <~ lift (floordiv point map_size.2);;
  y <~ lift (modulo point map_size.2);;
  off <~ match offset with
         | None => i <~ randint 0 (len compass);;
                   o <~ lift (index compass i);;
                   ret (NInt o.1, NInt o.2)
         | Some o => ret o
         end;;
  let '(x_offset, y_offset) := off in
  x_new <~ lift (moved x x_offset level);;
  inside <~ (if within x_new map_size.1
             then y_new <~ lift (moved y y_offset level);;
                  ret (within y_new map_size.2)
             else ret false);;
  xy <~ (if inside : bool
         then x' <~ lift (moved x x_offset level);;
              y' <~ lift (moved y y_offset level);;
              ret (x', y')
         else ret (NInt x, NInt y));;
  scaled <~ lift (num_mul xy.1 (NInt map_size.2));;
  total <~ lift (num_add scaled xy.2);;
  lift (int_of_num total).

(** The element of the comprehension of [get_route_switch_outliers]:
    [_perturb_point(p, level) if not p == 0 and random() < prob else p]. *)
Definition route_switch_point (map_size : Z * Z) (level : Z) (prob : float)
    (p : Z) : M Z :=
  if p =? 0 then ret p
  else r <~ random;;
       if flt r prob then _perturb_point map_size p level None else ret p.

(** The body of the loop of [get_route_switch_outliers]. *)
Definition route_switch_one (map_size : Z * Z) (level : Z) (prob : float)
    (traj : list Z) : M (list Z) :=
  first <~ lift (index traj 0);;
  middle <~ for_each (route_switch_point map_size level prob)
              (slice traj (Some 1) (Some (-1)));;
  last <~ lift (index traj (-1));;
  ret ([first] ++ middle ++ [last]).

Definition get_route_switch_outliers (map_size : Z * Z)
    (batch_x : list (list Z)) (level : Z) (prob : float) : M (list (list Z)) :=
  for_each (route_switch_one map_size level prob) batch_x.

(** The span a detour perturbs: [anomaly_len], then [anomaly_st_loc] and
    [anomaly_ed_loc]. *)
Definition detour_span (prob : float) (traj : list Z) : M (Z * Z) :=
  anomaly_len <~ lift (int_mul_float (len traj - 2) prob);;
  anomaly_st_loc <~ randint 1 (len traj - anomaly_len - 1);;
  ret (anomaly_st_loc, anomaly_st_loc + anomaly_len).

(** The offset of a detour: two floats, the quotients of [/]. *)
Definition detour_offset (map_size : Z * Z) (traj : list Z)
    (anomaly_st_loc anomaly_ed_loc : Z) : M (num * num) :=
  ps <~ lift (index traj anomaly_st_loc);;
  xs <~ lift (floordiv ps map_size.2);;
  pe <~ lift (index traj anomaly_ed_loc);;
  xe <~ lift (floordiv pe map_size.2);;
  ys <~ lift (modulo ps map_size.2);;
  ye <~ lift (modulo pe map_size.2);;
  let offset := (xs - xe, ys - ye) in
  let div0 := if offset.1 =? 0 then 1 else Z.abs offset.1 in
  let div1 := if offset.2 =? 0 then 1 else Z.abs offset.2 in
  r <~ random;;
  if flt r (float_lit 1 2)
  then a <~ lift (int_truediv (- offset.1) div0);;
       b <~ lift (int_truediv offset.2 div1);;
       ret (NFloat a, NFloat b)
  else a <~ lift (int_truediv offset.1 div0);;
       b <~ lift (int_truediv (- offset.2) div1);;
       ret (NFloat a, NFloat b).

(** The body of the loop of [get_detour_outliers]. *)
Definition detour_one (map_size : Z * Z) (level : Z) (prob : float)
    (traj : list Z) : M (list Z) :=
  span <~ detour_span prob traj;;
  let '(anomaly_st_loc, anomaly_ed_loc) := span in
  offset <~ detour_offset map_size traj anomaly_st_loc anomaly_ed_loc;;
  middle <~ for_each (fun p => _perturb_point map_size p level (Some offset))
              (slice traj (Some anomaly_st_loc) (Some anomaly_ed_loc));;
  ret (slice traj None (Some anomaly_st_loc) ++ middle ++
       slice traj (Some anomaly_ed_loc) None).

(** The [vary] prelude of [get_detour_outliers]: the level and the
    probability the loop runs with. *)
Definition detour_params (level : Z) (prob : float) (vary : bool)
  : M (Z * float) :=
  if vary then
    d <~ randint (-2) 3;;
    r <~ random;;
    if flt (float_lit 1 2) r
    then r' <~ random;; ret (level + d, fadd prob (fmul (float_lit 2 10) r'))
    else r' <~ random;; ret (level + d, fsub prob (fmul (float_lit 2 10) r'))
  else ret (level, prob).

Definition get_detour_outliers (map_size : Z * Z) (batch_x : list (list Z))
    (level : Z) (prob : float) (vary : bool) : M (list (list Z)) :=
  params <~ detour_params level prob vary;;
  for_each (detour_one map_size params.1 params.2) batch_x.

(** [f"{traj}\n"] for a list of ints *)
Definition line_of (traj : list Z) : string :=
  "[" +:+ String.concat ", " (map pretty traj) +:+ "]" +:+
  String (ascii_of_nat 10) "".

Definition file_of (values : list (list Z)) : string :=
  String.concat "" (map line_of values).

(** [generate_outliers] on the trajectories [data] of the dataset.
    Returns the dict of outliers and, for each key, the text written to
    the file of that key (whose name depends on the configuration only). *)
Definition generate_outliers (config : PortoConfig) (data : list (list Z))
  : M (list (string * list (list Z)) * list (string * string)) :=
  let trajectory_count := len data in
  _ <~ seed 0;;
  size <~ lift (int_mul_float trajectory_count (outlier_ratio config));;
  route_swithing_idx <~ randint_size 0 trajectory_count size;;
  sources <~ lift (mapM (index data) route_swithing_idx);;
  route_switch <~ get_route_switch_outliers (grip_size config) sources
                    (outlier_level config) (outlier_prob config);;
  _ <~ seed 10;;
  size <~ lift (int_mul_float trajectory_count (outlier_ratio config));;
  detour_idx <~ randint_size 0 trajectory_count size;;
  sources <~ lift (mapM (index data) detour_idx);;
  detour <~ get_detour_outliers (grip_size config) sources
              (outlier_level config) (outlier_prob config) false;;
  let outliers := [("route_switch"%string, route_switch);
                   ("detour"%string, detour)] in
  ret (outliers, map (fun kv => (kv.1, file_of kv.2)) outliers).

End Outliers.

(** [__getitem__] *)
Definition getitem (data : list (list Z)) (metadata : list string) (i : Z)
  : result (list pyval * string) :=
  sample ← index data i;
  let sample := [PStr "SOT"] ++ map PInt sample ++ [PStr "EOT"] in
  metadata ← index metadata i;
  Ok (sample, metadata).

(** [collate] *)
Definition collate (dictionary : VocabDictionary)
    (data : list (list pyval * string)) : result (batch string) :=
  max_lenth ← max_of (map (fun item => len item.1) data);
  rows ← mapM (fun '(tokens_, metadata) =>
            let mask := times 1 (len tokens_) ++ times 0 (max_lenth - len tokens_) in
            tokens ← encode dictionary
                       (tokens_ ++ times (PStr pad) (max_lenth - len tokens_));
            Ok (tokens, mask, metadata)) data;
  token_lists ← tensor (map (fun r => r.1.1) rows);
  masks ← tensor (map (fun r => r.1.2) rows);
  Ok {| Batch.data := token_lists; mask := masks;
        metadata := map (fun r => r.2) rows |}.

(** [partition_dataset] ([POLDataset] has the same method, word for
    word); [data] is [self.data]. *)
Definition partition_dataset `{Permuter} {A} (data : list A)
    (proportion : float) (seed : Z) : M (list Z * list Z) :=
  _ <~ Random.seed seed;;
  train_num <~ lift (int_mul_float (len data) proportion);;
  indices <~ permutation (len data);;
  ret (slice indices None (Some train_num),
       slice indices (Some train_num) None).

(** *** Loading the trajectories

    The files are a table from paths to texts.  A failure of the loader
    is a missing file ([open]), the exception [get_outliers] raises in
    place of whatever went wrong with an outlier file, or an error of
    the runtime. *)

Definition files : Type := list (string * string).

Inductive load_error : Set :=
| FileNotFoundError (path : string)
| CannotBeFound (file : string)
| PyError (e : pyerr).

Inductive loaded (A : Type) : Type :=
| Loaded (a : A)
| Failed (e : load_error).
Arguments Loaded {A} a.
Arguments Failed {A} e.

#[global] Instance loaded_ret : MRet loaded := fun A => @Loaded A.
#[global] Instance loaded_bind : MBind loaded := fun A B f m =>
  match m with Loaded a => f a | Failed e => Failed e end.

Definition of_result {A} (r : result A) : loaded A :=
  match r with
  | Ok a => Loaded a
  | Raise e => Failed (PyError e)
  end.

(** [open(path, 'r').readlines()] *)
Definition open_readlines (fs : files) (path : string)
  : loaded (list string) :=
  match dict_get fs path with
  | Some text => Loaded (readlines text)
  | None => Failed (FileNotFoundError path)
  end.

(** [open(path, 'w')] followed by the writes that make up [text].  The
    source leaves closing the file to the collector; the table holds the
    file as it is once closed. *)
Definition write_file (fs : files) (path text : string) : files :=
  dict_set fs path text.

Section Loading.
(** [f"{x}"] for a float [x], and the configured [data_dir] *)
Variable format_float : float -> string.
Variable data_dir : string.

Definition outlier_file (config : PortoConfig) (outlier_type : string)
  : string :=
  data_dir +:+ "/outliers/" +:+ outlier_type +:+
  "_ratio_" +:+ format_float (outlier_ratio config) +:+
  "_level_" +:+ pretty (outlier_level config) +:+
  "_prob_" +:+ format_float (outlier_prob config) +:+ ".csv".

(** The loop of [get_outliers] over what is left of [outliers_list].
    Whatever exception the body raises becomes the message about the
    file; a line the reader of list literals does not read stays what it
    is, a text outside this model. *)
Fixpoint get_outliers_from (config : PortoConfig) (fs : files)
    (outliers : list (string * list (list Z))) (types : list string)
  : loaded (list (string * list (list Z))) :=
  match types with
  | [] => Loaded outliers
  | outlier_type :: rest =>
      let file := outlier_file config outlier_type in
      match (route_switched_outliers ← open_readlines fs file;
             of_result (mapM eval_line route_switched_outliers)) with
      | Loaded trajs =>
          get_outliers_from config fs (dict_set outliers outlier_type trajs)
            rest
      | Failed (PyError Unsupported) => Failed (PyError Unsupported)
      | Failed _ => Failed (CannotBeFound file)
      end
  end.

(** [get_outliers] *)
Definition get_outliers (config : PortoConfig) (fs : files)
  : loaded (list (string * list (list Z))) :=
  get_outliers_from config fs [] (outliers_list config).

Definition label_of (key : string) : string :=
  if decide (key = "route_switch"%string) then "route switch outlier"
  else if decide (key = "detour"%string) then "detour outlier"
  else "".

(** [get_data]: the configuration with its new [block_size], the
    trajectories and their labels. *)
Definition get_data (config : PortoConfig) (fs : files) (file_path : string)
  : loaded (PortoConfig * (list (list Z) * list string)) :=
  lines ← open_readlines fs file_path;
  trajectories ← of_result (mapM eval_line lines);
  let labels := map (fun _ => "non outlier"%string) trajectories in
  sizes_max ← of_result (max_of (map len trajectories));
  let config := {| grip_size := grip_size config;
                   block_size := sizes_max + 2;
                   outlier_level := outlier_level config;
                   outlier_prob := outlier_prob config;
                   outlier_ratio := outlier_ratio config;
                   outliers_list := outliers_list config;
                   include_outliers := include_outliers config |} in
  if include_outliers config then
    outliers ← get_outliers config fs;
    let accepted :=
      flat_map (fun kv =>
        map (fun traj => (traj, label_of kv.1))
          (filter (fun traj => len traj <= block_size config - 2) kv.2))
        outliers in
    Loaded (config, (trajectories ++ map fst accepted,
                     labels ++ map snd accepted))
  else Loaded (config, (trajectories, labels)).

(** The files [generate_outliers] leaves, given the texts it wrote for
    each key. *)
Definition save_outliers (config : PortoConfig) (fs : files)
    (written : list (string * string)) : files :=
  foldl (fun fs kv => write_file fs (outlier_file config kv.1) kv.2)
    fs written.

(** [__init__]: the path of the data file. *)
Definition data_file (file_name : string) : string :=
  path_join data_dir (file_name +:+ ".csv").

End Loading.

End Porto.

(** ** What the properties speak of *)

(** A batch collated from the token rows [rows] (true tokens, in input
    order) and their metadata: every row is padded on the right with [pad]
    up to the largest true length, and the mask marks the true tokens. *)
Definition collated {Meta} (pad : Z) (rows : list (list Z))
    (metas : list Meta) (b : batch Meta) : Prop :=
  exists width : nat,
    Forall (fun r => length r <= width)%nat rows /\
    Exists (fun r => length r = width) rows /\
    data b = map (fun r => r ++ replicate (width - length r) pad) rows /\
    mask b = map (fun r => replicate (length r) 1 ++
                           replicate (width - length r) 0) rows /\
    metadata b = metas.

(** The declared maximum sequence length as the specification words it:
    the largest number of visits of a row (the length of the sequence its
    [token] column denotes), times the number of enabled features, plus 3. *)
Definition stated_block_size (config : POL.POLConfig) (data : list POL.Labelled)
  : result (option Z) :=
  visits ← mapM (fun r => len <$> eval_list (POL.token (POL.row r))) data;
  Ok ((fun m => m * len (POL.features config) + 3) <$> POL.series_max visits).

(** A one-line table: one user-day with a single visit. *)
Definition one_visit_table : list POL.Row :=
  [ {| POL.user_id := "user_7"; POL.date := 1;
       POL.dayofweek := "['day_4']"; POL.place := "['Workplace']";
       POL.token := "[88]"; POL.duration_bucket := "['0-60']";
       POL.distance_label := "['near']" |} ].

Definition default_pol_config : POL.POLConfig :=
  {| POL.features := ["gps"; "distance"; "duration"; "place"]%string;
     POL.block_size := Some 64;
     POL.include_outliers := false;
     POL.outlier_days := 14 |}.

(** The cell [_perturb_point] computes once the offset is fixed. *)
Definition shifted (map_size : Z * Z) (point level : Z) (offset : Z * Z) : Z :=
  let x := point / map_size.2 in
  let y := point mod map_size.2 in
  if (0 <=? x + offset.1 * level) && (x + offset.1 * level <? map_size.1)
     && (0 <=? y + offset.2 * level) && (y + offset.2 * level <? map_size.2)
  then (x + offset.1 * level) * map_size.2 + (y + offset.2 * level)
  else point.

(** What a detour leaves alone: the span [[st, ed)] lies strictly inside
    the trajectory, the output has the length of the source, and every
    position outside the span holds the point of the source. *)
Definition detour_frame (traj out : list Z) (st ed : Z) : Prop :=
  1 <= st <= ed /\ ed < len traj - 1 /\
  length out = length traj /\
  forall i : nat, Z.of_nat i < st \/ ed <= Z.of_nat i -> out !! i = traj !! i.

(** A float that is not negative: zero of either sign, or positive. *)
Definition nonneg_float (f : float) : Prop :=
  match f with
  | S754_finite s _ _ | S754_infinity s => s = false
  | _ => True
  end.

(** The source trajectories [generate_outliers] draws for one kind of
    outlier, once the generator is seeded. *)
Definition drawn_sources `{Generator} (config : Porto.PortoConfig)
    (data : list (list Z)) : M (list (list Z)) :=
  size <~ lift (int_mul_float (len data) (Porto.outlier_ratio config));;
  idx <~ randint_size 0 (len data) size;;
  lift (mapM (index data) idx).

(** A cell id of the grid of [map_size.1] rows and [map_size.2] columns. *)
Definition in_grid (map_size : Z * Z) (p : Z) : Prop :=
  0 <= p < map_size.1 * map_size.2.

(** An offset of at most one cell on each axis. *)
Definition unit_offset (offset : Z * Z) : Prop :=
  -1 <= offset.1 <= 1 /\ -1 <= offset.2 <= 1.

(** What a route-switch outlier may hold where its source holds [p]: the
    point itself, or, unless it is 0, the point shifted by [level] cells
    in one of the compass directions. *)
Definition switched (map_size : Z * Z) (level : Z) (p q : Z) : Prop :=
  q = p \/
  (p <> 0 /\ exists offset, offset ∈ Porto.compass /\
                            q = shifted map_size p level offset).

(** The number of features [get_feature_vector] emits per visit: those
    of its four names that occur in the configured list. *)
Definition enabled (config : POL.POLConfig) : nat :=
  length (filter (fun f => POL.has (POL.features config) f = true)
            ["place"; "gps"; "duration"; "distance"]%string).

(** A text the reader of list literals reads: a flat list of decimal
    integers and of quoted strings without escapes, as the tables hold
    them. *)
Definition flat_literal (s : string) : Prop := is_ok (eval_list s).

(** The cells of a row of the check-in table that hold sequences. *)
Definition sequence_cells (r : POL.Row) : list string :=
  [POL.dayofweek r; POL.place r; POL.token r; POL.duration_bucket r;
   POL.distance_label r].

(** A token the reader [eval_list] is still assembling. *)
Definition pending (m : lex_mode) : nat :=
  match m with
  | InInt _ (Some _) => 1
  | _ => 0
  end.

(** The float that holds the integer [n], [0 < n < 2^53], with sign [s]:
    the mantissa is [n] shifted up to 53 bits. *)
Definition canon (s : bool) (n : Z) : float :=
  S754_finite s (Z.to_pos (n * 2 ^ (52 - Z.log2 n))) (Z.log2 n - 52).

(** The float [f] holds the integer [n] (of magnitude below [2^53]). *)
Definition represents (f : float) (n : Z) : Prop :=
  match n with
  | 0 => exists s, f = S754_zero s
  | Z.pos _ => f = canon false n
  | Z.neg _ => f = canon true (- n)
  end.

(** The number [v], an int or a float, holds the integer [n]. *)
Definition num_is (v : num) (n : Z) : Prop :=
  match v with
  | NInt z => z = n
  | NFloat f => represents f n
  end.

(** Binary64 computes [v + k * level] without rounding for every
    coordinate [v] of magnitude below [2^52]. *)
Definition exact_shift (level k : Z) : Prop :=
  Z.abs level < 2 ^ 53 /\ Z.abs k < 2 ^ 53 /\ Z.abs (k * level) <= 2 ^ 52.

(** A text of ASCII characters only. *)
Definition ascii_text (s : string) : Prop :=
  Forall (fun c => Z.of_nat (nat_of_ascii c) < 128) (list_ascii_of_string s).

(** The rows [get_data] labels as outliers: those of a listed user whose
    date is among the last [outlier_days] days of the table. *)
Definition flagged (config : POL.POLConfig) (table : list POL.Row)
    (r : POL.Row) : Prop :=
  exists id latest,
    POL.parse_user_id r = Ok id /\ id ∈ POL.outlier_list /\
    POL.series_max (map POL.date table) = Some latest /\
    latest - POL.outlier_days config < POL.date r.

(** The tokens of the text [str] gives a list of ints, after the opening
    bracket. *)
Fixpoint list_tokens (traj : list Z) : list token :=
  match traj with
  | [] => [TRBr]
  | x :: r => TInt x :: match r with
                        | [] => [TRBr]
                        | _ :: _ => TComma :: list_tokens r
                        end
  end.

(** The mode of the lexer before the digits of a number. *)
Definition start_mode (neg : bool) : lex_mode :=
  if neg then InInt true None else Idle.

(** A character that ends no line. *)
Definition plain (c : ascii) : Prop :=
  Ascii.eqb c newline = false /\ Ascii.eqb c carriage_return = false.

(** [eval] of the lines of a file of trajectories. *)
Definition parsed_lines (text : string) : result (list (list Z)) :=
  mapM eval_line (readlines text).

(** What [get_outliers] reads for one outlier type. *)
Definition load_outlier (format_float : float -> string) (data_dir : string)
    (config : Porto.PortoConfig) (fs : Porto.files) (outlier_type : string)
  : Porto.loaded (list (list Z)) :=
  lines ← Porto.open_readlines fs
            (Porto.outlier_file format_float data_dir config outlier_type);
  Porto.of_result (mapM eval_line lines).

(** The outliers [get_data] appends, out of the dict [get_outliers]
    returned: those of at most [longest] points, each with the label of
    its key. *)
Definition accepted_outliers (longest : Z)
    (outliers : list (string * list (list Z))) : list (list Z * string) :=
  flat_map (fun kv =>
    map (fun traj => (traj, Porto.label_of kv.1))
      (filter (fun traj => len traj <= longest) kv.2)) outliers.

(** ** Sample data

    A linear congruential generator, to run the outlier generators on
    concrete trajectories; and the vocabulary, the trajectories and the
    configuration the examples use. *)

Definition lcg_step (g : Z) : Z := (1103515245 * g + 12345) mod 2147483648.

Definition lcg : Generator.
Proof.
  refine {| rng := Z;
            seeded := fun s => s;
            next_int := fun low high g =>
              (low + lcg_step g mod (high - low), lcg_step g);
            next_float := fun g =>
              (binary_normalize prec emax (lcg_step g mod 1024) (-10) false,
               lcg_step g);
            next_int_range := _ |}.
  intros low high g Hlt. simpl.
  pose proof (Z.mod_pos_bound (lcg_step g) (high - low)). lia.
Defined.

(** An arrangement for it: the range backwards. *)
Definition lcg_permuter : @Permuter lcg.
Proof.
  refine {| next_permutation := fun (n : Z) (g : @rng lcg) =>
              (reverse (seqZ 0 n), lcg_step g : @rng lcg);
            next_permutation_perm := _ |}.
  intros n g. simpl. apply reverse_Permutation.
Defined.

Definition sample_vocab : VocabDictionary :=
  init [("A", 0); ("B", 1); ("PAD", 2); ("EOT", 3)]%string.

Definition digit_vocab : VocabDictionary :=
  init [("5", 0); ("7", 1); ("PAD", 2)]%string.

(** Two symbols share the id 0. *)
Definition clashing_vocab : VocabDictionary :=
  init [("A", 0); ("B", 0)]%string.

Definition porto_grid : Z * Z := (51, 158).

Definition sample_traj : list Z := [500; 501; 502; 660; 661; 820; 821; 822].

(** Sixty points in a row of the grid. *)
Definition long_traj : list Z := seqZ 1000 60.

Definition zero_visit_row : POL.Row :=
  {| POL.user_id := "user_7"; POL.date := 1;
     POL.dayofweek := "['day_4']"; POL.place := "[]";
     POL.token := "[]"; POL.duration_bucket := "[]";
     POL.distance_label := "[]" |}.

Definition checkin_vocab : VocabDictionary :=
  init [("PAD", 0); ("EOT", 1); ("user_7", 2); ("day_4", 3)]%string.

(** A table of two user-days on the same date: one of a listed outlier
    user, with six visits, and one of another user, with one visit. *)
Definition two_user_table : list POL.Row :=
  [ {| POL.user_id := "user_546"; POL.date := 100;
       POL.dayofweek := "['day_2']"; POL.place := "['a', 'b', 'c', 'd', 'e', 'f']";
       POL.token := "[1, 2, 3, 4, 5, 6]";
       POL.duration_bucket := "['s', 's', 's', 's', 's', 's']";
       POL.distance_label := "['n', 'n', 'n', 'n', 'n', 'n']" |};
    {| POL.user_id := "user_7"; POL.date := 100;
       POL.dayofweek := "['day_2']"; POL.place := "['Workplace']";
       POL.token := "[88]"; POL.duration_bucket := "['0-60']";
       POL.distance_label := "['near']" |} ].

Definition sample_porto_config : Porto.PortoConfig :=
  {| Porto.grip_size := porto_grid; Porto.block_size := 10;
     Porto.outlier_level := 3; Porto.outlier_prob := float_lit 3 10;
     Porto.outlier_ratio := float_lit 1 2; Porto.outliers_list := [];
     Porto.include_outliers := true |}.

Definition sample_data : list (list Z) :=
  [sample_traj; [1; 2; 3; 4; 5]; [600; 601; 602; 603]; [9; 9; 9]].

(** What [generate_outliers] returns on the sample data, and writes. *)
Definition sample_outliers : list (string * list (list Z)) :=
  [("route_switch", [[1; 2; 3; 1; 5]; [600; 601; 602; 603]]);
   ("detour", [[9; 9; 9]; [500; 501; 502; 660; 661; 817; 821; 822]])]%string.

Definition sample_files : list (string * string) :=
  [("route_switch", "[1, 2, 3, 1, 5]
[600, 601, 602, 603]
");
   ("detour", "[9, 9, 9]
[500, 501, 502, 660, 661, 817, 821, 822]
")]%string.

(** The taxi data on disk: how the sample floats print, a configuration
    that loads both kinds of outliers, the data file alone, and the files
    after [generate_outliers] saved its outliers. *)
Definition sample_format (f : float) : string :=
  if SFeqb f (float_lit 3 10) then "0.3"
  else if SFeqb f (float_lit 1 2) then "0.5"
  else "0.05".

Definition sample_loading_config : Porto.PortoConfig :=
  {| Porto.grip_size := porto_grid; Porto.block_size := 1186;
     Porto.outlier_level := 3; Porto.outlier_prob := float_lit 3 10;
     Porto.outlier_ratio := float_lit 1 2;
     Porto.outliers_list := ["route_switch"; "detour"]%string;
     Porto.include_outliers := true |}.

Definition sample_text : string :=
  "[500, 501, 502, 660, 661, 820, 821, 822]
[1, 2, 3, 4, 5]
[600, 601, 602, 603]
[9, 9, 9]
".

Definition sample_fs : Porto.files :=
  [("./data/porto/porto_processed.csv"%string, sample_text)].

Definition saved_fs : Porto.files :=
  Porto.save_outliers sample_format "./data/porto" sample_loading_config
    sample_fs sample_files.

Definition loaded_config : Porto.PortoConfig :=
  {| Porto.grip_size := porto_grid; Porto.block_size := 10;
     Porto.outlier_level := 3; Porto.outlier_prob := float_lit 3 10;
     Porto.outlier_ratio := float_lit 1 2;
     Porto.outliers_list := ["route_switch"; "detour"]%string;
     Porto.include_outliers := true |}.

Definition loaded_labels : list string :=
  ["non outlier"; "non outlier"; "non outlier"; "non outlier";
   "route switch outlier"; "route switch outlier";
   "detour outlier"; "detour outlier"]%string.

(** The check-in table kept whole, and a vocabulary for its second row. *)
Definition keeping_pol_config : POL.POLConfig :=
  {| POL.features := ["gps"; "distance"; "duration"; "place"]%string;
     POL.block_size := Some 64;
     POL.include_outliers := true;
     POL.outlier_days := 14 |}.

Definition visit_vocab : VocabDictionary :=
  init [("PAD", 0); ("EOT", 1); ("user_7", 2); ("day_2", 3);
        ("Workplace", 4); ("88", 5); ("0-60", 6); ("near", 7)]%string.

(** * Properties *)

(** ** The error monad *)

Lemma mapM_Ok_Forall2 {A B} (f : A -> result B) (l : list A) (ys : list B) :
  mapM f l = Ok ys <-> Forall2 (fun x y => f x = Ok y) l ys.
Proof.
  revert ys. induction l as [|x l IH]; intros ys; simpl.
  - split.
    + intros [= <-]. constructor.
    + intros Hf. inversion Hf. reflexivity.
  - split.
    + intros Hm. destruct (f x) as [y|e] eqn:Hx; simpl in Hm; [|discriminate].
      destruct (mapM f l) as [zs|e] eqn:Hl; simpl in Hm; [|discriminate].
      injection Hm as <-. constructor; [exact Hx|]. apply IH. reflexivity.
    + intros Hf. inversion Hf as [|? y ? zs Hx Hl]; subst.
      rewrite Hx. simpl. apply IH in Hl. rewrite Hl. reflexivity.
Qed.

Lemma mapM_Ok_total {A B} (f : A -> result B) (l : list A) :
  Forall (fun x => is_ok (f x)) l -> is_ok (mapM f l).
Proof.
  induction 1 as [|x l [y Hy] _ [ys Hys]].
  - exists []. reflexivity.
  - exists (y :: ys). simpl. rewrite Hy. simpl. rewrite Hys. reflexivity.
Qed.

Lemma bind_Ok {A B} (a : A) (f : A -> result B) : Ok a ≫= f = f a.
Proof. reflexivity. Qed.

Lemma mapM_cons {A B} (f : A -> result B) (x : A) (l : list A) :
  mapM f (x :: l) = y ← f x; k ← mapM f l; mret (y :: k).
Proof. reflexivity. Qed.

Lemma mapM_map {A B C} (f : B -> result C) (g : A -> B) (l : list A) :
  mapM f (map g l) = mapM (fun x => f (g x)) l.
Proof.
  induction l as [|x l IH]; simpl; [reflexivity|].
  destruct (f (g x)); simpl; [|reflexivity]. rewrite IH. reflexivity.
Qed.

Lemma mapM_app {A B} (f : A -> result B) (l1 l2 : list A) ys1 ys2 :
  mapM f l1 = Ok ys1 -> mapM f l2 = Ok ys2 ->
  mapM f (l1 ++ l2) = Ok (ys1 ++ ys2).
Proof.
  rewrite !mapM_Ok_Forall2. apply Forall2_app.
Qed.

(** ** Dictionaries *)

Section DictFacts.
Context {K V : Type} `{EqDecision K}.
Implicit Types (d : list (K * V)) (k : K) (v : V).

Lemma dict_get_set d k v k' :
  dict_get (dict_set d k v) k' = if decide (k' = k) then Some v else dict_get d k'.
Proof.
  induction d as [|[k0 v0] d IH]; simpl.
  - repeat case_decide; congruence.
  - destruct (decide (k = k0)) as [->|Hne]; simpl.
    + repeat case_decide; congruence.
    + rewrite IH. repeat case_decide; congruence.
Qed.

Lemma dict_get_app d1 d2 k :
  dict_get (d1 ++ d2) k =
  match dict_get d1 k with Some v => Some v | None => dict_get d2 k end.
Proof.
  induction d1 as [|[k0 v0] d1 IH]; simpl; [reflexivity|].
  case_decide; [reflexivity|exact IH].
Qed.

Lemma dict_get_fold (ps : list (K * V)) d k :
  dict_get (fold_left (fun d kv => dict_set d kv.1 kv.2) ps d) k =
  match dict_get (rev ps) k with Some v => Some v | None => dict_get d k end.
Proof.
  revert d. induction ps as [|[k0 v0] ps IH]; intros d; simpl; [reflexivity|].
  rewrite IH, dict_get_app, dict_get_set. simpl.
  destruct (dict_get (rev ps) k); [reflexivity|].
  case_decide; reflexivity.
Qed.

(** Reading a dict built from pairs returns the value of the last pair
    with that key. *)
Lemma dict_get_of_pairs (ps : list (K * V)) k :
  dict_get (dict_of_pairs ps) k = dict_get (rev ps) k.
Proof.
  unfold dict_of_pairs. rewrite dict_get_fold. simpl.
  destruct (dict_get (rev ps) k); reflexivity.
Qed.

Lemma dict_get_Some_elem d k v : dict_get d k = Some v -> (k, v) ∈ d.
Proof.
  induction d as [|[k0 v0] d IH]; simpl; [discriminate|].
  case_decide as Hk.
  - intros [= ->]. subst. left.
  - intros Hg. right. auto.
Qed.

Lemma dict_get_unique d k v :
  (k, v) ∈ d -> (forall v', (k, v') ∈ d -> v' = v) -> dict_get d k = Some v.
Proof.
  induction d as [|[k0 v0] d IH]; simpl; intros Hin Huniq.
  - inversion Hin.
  - case_decide as Hk.
    + subst k0. f_equal. apply Huniq. left.
    + apply IH.
      * apply elem_of_cons in Hin as [[= -> ->]|Hin]; [congruence|exact Hin].
      * intros v' Hv'. apply Huniq. right. exact Hv'.
Qed.

Lemma dict_set_keys d k v :
  map fst (dict_set d k v) =
  if bool_decide (k ∈ map fst d) then map fst d else map fst d ++ [k].
Proof.
  induction d as [|[k0 v0] d IH]; simpl; [reflexivity|].
  destruct (decide (k = k0)) as [->|Hne]; simpl.
  - rewrite bool_decide_eq_true_2 by left. reflexivity.
  - rewrite IH. destruct (bool_decide (k ∈ map fst d)) eqn:Hb.
    + apply bool_decide_eq_true_1 in Hb.
      rewrite bool_decide_eq_true_2 by (right; exact Hb). reflexivity.
    + apply bool_decide_eq_false_1 in Hb.
      rewrite bool_decide_eq_false_2; [reflexivity|].
      intros Hin. apply elem_of_cons in Hin as [?|?]; congruence.
Qed.

Lemma dict_set_NoDup d k v : NoDup (map fst d) -> NoDup (map fst (dict_set d k v)).
Proof.
  intros Hnd. rewrite dict_set_keys.
  destruct (bool_decide (k ∈ map fst d)) eqn:Hb; [exact Hnd|].
  apply bool_decide_eq_false_1 in Hb.
  apply NoDup_app. split; [exact Hnd|]. split.
  - intros x Hx Hx'. apply list_elem_of_singleton in Hx'. subst. contradiction.
  - apply NoDup_singleton.
Qed.

(** The keys of a dict are pairwise distinct. *)
Lemma dict_of_pairs_NoDup (ps : list (K * V)) : NoDup (map fst (dict_of_pairs ps)).
Proof.
  unfold dict_of_pairs.
  assert (Hgen : forall d, NoDup (map fst d) ->
            NoDup (map fst (fold_left (fun d kv => dict_set d kv.1 kv.2) ps d))).
  { induction ps as [|[k0 v0] ps IH]; intros d Hd; simpl; [exact Hd|].
    apply IH. apply dict_set_NoDup. exact Hd. }
  apply Hgen. constructor.
Qed.

Lemma dict_get_NoDup_elem d k v :
  NoDup (map fst d) -> (k, v) ∈ d -> dict_get d k = Some v.
Proof.
  induction d as [|[k0 v0] d IH]; simpl; intros Hnd Hin.
  - inversion Hin.
  - apply NoDup_cons in Hnd as [Hk0 Hnd].
    apply elem_of_cons in Hin as [[= -> ->]|Hin].
    + rewrite decide_True by reflexivity. reflexivity.
    + case_decide as Hk.
      * subst k0. exfalso. apply Hk0.
        apply list_elem_of_fmap. exists (k, v). split; [reflexivity|exact Hin].
      * apply IH; assumption.
Qed.

End DictFacts.

(** ** The vocabulary codec *)

(** Under an injective vocabulary the reverse map sends each id back to
    the one symbol that has it. *)
Lemma reverse_map_vocab_lookup (file : list (string * Z)) (k : string) (v : Z) :
  injective (init file) ->
  dict_get (vocab (init file)) k = Some v ->
  dict_get (reverse_map_vocab (init file)) v = Some k.
Proof.
  intros Hinj Hk. simpl in *.
  set (d := dict_of_pairs file) in *.
  rewrite dict_get_of_pairs.
  assert (Hnd : NoDup (map fst d)) by apply dict_of_pairs_NoDup.
  apply dict_get_unique.
  - apply list_elem_of_In. rewrite <- in_rev. apply list_elem_of_In.
    apply list_elem_of_fmap.
    exists (k, v). split; [reflexivity|]. apply dict_get_Some_elem. exact Hk.
  - intros k' Hk'. apply list_elem_of_In in Hk'. rewrite <- in_rev in Hk'.
    apply list_elem_of_In in Hk'.
    apply list_elem_of_fmap in Hk' as [[k0 v0] [Heq Hin]].
    injection Heq as -> ->.
    apply (Hinj k0 k v0); [|exact Hk].
    apply dict_get_NoDup_elem; assumption.
Qed.

(** Decoding what was encoded gives the string forms of the symbols. *)
Lemma decode_encode_str (file : list (string * Z)) (s : list pyval) toks :
  injective (init file) ->
  encode (init file) s = Ok toks ->
  decode (init file) toks = Ok (map (fun x => PStr (str x)) s).
Proof.
  intros Hinj Henc. unfold encode, decode in *.
  apply mapM_Ok_Forall2 in Henc. apply mapM_Ok_Forall2.
  induction Henc as [|x t s toks Hx _ IH]; constructor; [|exact IH].
  cbv beta. unfold dict_lookup in Hx.
  destruct (dict_get (vocab (init file)) (str x)) as [v|] eqn:Hg; [|discriminate].
  injection Hx as ->.
  unfold dict_lookup. rewrite (reverse_map_vocab_lookup file (str x) t Hinj Hg).
  reflexivity.
Qed.

Lemma encode_total (d : VocabDictionary) (s : list pyval) :
  Forall (fun x => is_Some (dict_get (vocab d) (str x))) s ->
  is_ok (encode d s).
Proof.
  intros Hs. apply mapM_Ok_total. eapply Forall_impl; [exact Hs|].
  intros x [v Hv]. exists v. unfold dict_lookup. rewrite Hv. reflexivity.
Qed.

Lemma decode_strings (d : VocabDictionary) toks s :
  decode d toks = Ok s -> Forall (fun x => exists k, x = PStr k) s.
Proof.
  unfold decode. rewrite mapM_Ok_Forall2.
  induction 1 as [|t x toks s Hx _ IH]; constructor; [|exact IH].
  destruct (dict_lookup (reverse_map_vocab d) t) as [k|e]; simpl in Hx;
    [|discriminate].
  injection Hx as <-. eauto.
Qed.

(** C3: for a vocabulary (a one-to-one map from symbols to ids) and a
    sequence [s] of its keys, [encode] succeeds on [s] and [decode] of the
    result is [s]. *)
Theorem decode_encode_roundtrip (file : list (string * Z)) (s : list pyval) :
  injective (init file) ->
  Forall (is_key (init file)) s ->
  exists toks,
    encode (init file) s = Ok toks /\ decode (init file) toks = Ok s.
Proof.
  intros Hinj Hkeys.
  destruct (encode_total (init file) s) as [toks Htoks].
  { eapply Forall_impl; [exact Hkeys|]. intros [k|z] Hk; [exact Hk|destruct Hk]. }
  exists toks. split; [exact Htoks|].
  rewrite (decode_encode_str file s toks Hinj Htoks). f_equal.
  clear Htoks. induction Hkeys as [|x s Hx _ IH]; simpl; [reflexivity|].
  rewrite IH. destruct x as [k|z]; [reflexivity|destruct Hx].
Qed.

(** C10: [encode] looks every symbol up by its string form, so a list of
    ints encodes as the list of their decimal strings; decoding it returns
    those strings; and a sequence equal to its own round trip consists of
    strings only. *)
Theorem encode_coerces_to_str (file : list (string * Z)) (xs : list Z) :
  encode (init file) (map PInt xs) =
    encode (init file) (map (fun x => PStr (pretty x)) xs)
  /\ (forall toks,
        injective (init file) ->
        encode (init file) (map PInt xs) = Ok toks ->
        decode (init file) toks = Ok (map (fun x => PStr (pretty x)) xs))
  /\ (forall (s : list pyval) toks,
        encode (init file) s = Ok toks ->
        decode (init file) toks = Ok s ->
        Forall (fun x => exists k, x = PStr k) s).
Proof.
  split; [|split].
  - unfold encode. rewrite !mapM_map. reflexivity.
  - intros toks Hinj Henc.
    rewrite (decode_encode_str file _ toks Hinj Henc).
    rewrite map_map. reflexivity.
  - intros s toks _ Hdec. exact (decode_strings _ _ _ Hdec).
Qed.

(** ** Collation *)

Lemma foldl_max_spec (r : list Z) (x : Z) :
  x <= foldl Z.max x r /\ Forall (fun y => y <= foldl Z.max x r) r /\
  (foldl Z.max x r = x \/ foldl Z.max x r ∈ r).
Proof.
  revert x. induction r as [|y r IH]; intros x; simpl.
  - split; [lia|]. split; [constructor|]. left. reflexivity.
  - destruct (IH (Z.max x y)) as (Hle & Hall & Hin).
    split; [lia|]. split.
    + constructor; [lia|exact Hall].
    + destruct Hin as [Heq|Hin]; [|right; right; exact Hin].
      rewrite Heq. destruct (Z.max_spec x y) as [[_ ->]|[_ ->]].
      * right. left.
      * left. reflexivity.
Qed.

Lemma max_of_spec (l : list Z) (m : Z) :
  max_of l = Ok m -> Forall (fun x => x <= m) l /\ m ∈ l.
Proof.
  destruct l as [|x r]; simpl; [discriminate|]. intros [= <-].
  destruct (foldl_max_spec r x) as (Hle & Hall & Hin).
  split; [constructor; assumption|].
  destruct Hin as [->|Hin]; [left|right; exact Hin].
Qed.

Lemma max_of_total (l : list Z) : l <> [] -> is_ok (max_of l).
Proof. destruct l; [congruence|]. intros _. eexists. reflexivity. Qed.

(** The width of a batch: the largest true length, as a number of columns. *)
Lemma max_of_lengths {A} (seqs : list (list A)) (W : Z) :
  max_of (map len seqs) = Ok W ->
  Forall (fun s => length s <= Z.to_nat W)%nat seqs /\
  Exists (fun s => length s = Z.to_nat W) seqs.
Proof.
  intros Hmax. apply max_of_spec in Hmax as [Hall Hin]. split.
  - rewrite Forall_fmap in Hall. eapply Forall_impl; [exact Hall|].
    intros s Hs. simpl in Hs. unfold len in Hs. lia.
  - apply list_elem_of_fmap in Hin as [s [-> Hs]].
    apply Exists_exists. exists s. split; [exact Hs|]. unfold len. lia.
Qed.

Lemma times_replicate {A} (x : A) (n : nat) : times x (Z.of_nat n) = replicate n x.
Proof. unfold times. rewrite Nat2Z.id. reflexivity. Qed.

Lemma times_len {A B} (x : A) (s : list B) :
  times x (len s) = replicate (length s) x.
Proof. apply times_replicate. Qed.

Lemma times_pad_replicate {A B} (x : A) (W : Z) (s : list B) :
  times x (W - len s) = replicate (Z.to_nat W - length s) x.
Proof. unfold times, len. f_equal. lia. Qed.

Lemma tensor_rectangular (rows : list (list Z)) (w : nat) :
  Forall (fun r => length r = w) rows ->
  Forall (Forall (fun t => int64 t = true)) rows ->
  tensor rows = Ok rows.
Proof.
  destruct rows as [|r rest]; [reflexivity|]. intros Hall Hfit.
  apply Forall_cons in Hall as [Hr Hrest]. unfold tensor.
  replace (forallb _ rest) with true.
  - replace (forallb (forallb int64) (r :: rest)) with true; [reflexivity|].
    symmetry. apply forallb_forall. intros r' Hr'.
    apply forallb_forall. intros t Ht.
    rewrite Forall_forall in Hfit. apply list_elem_of_In in Hr'.
    specialize (Hfit r' Hr'). rewrite Forall_forall in Hfit.
    apply Hfit, list_elem_of_In, Ht.
  - symmetry. apply forallb_forall. intros r' Hr'.
    rewrite Forall_forall in Hrest. apply list_elem_of_In in Hr'.
    specialize (Hrest r' Hr'). unfold len. lia.
Qed.

(** What [tensor] returned fits [int64]. *)
Lemma tensor_Ok_int64 (rows out : list (list Z)) :
  tensor rows = Ok out ->
  out = rows /\ Forall (Forall (fun t => int64 t = true)) rows.
Proof.
  destruct rows as [|r rest]; [intros [= <-]; auto|]. unfold tensor.
  destruct (forallb _ rest); [|discriminate].
  destruct (forallb (forallb int64) (r :: rest)) eqn:Hfit; [|discriminate].
  intros [= <-]. split; [reflexivity|].
  apply Forall_forall. intros r' Hr'. apply Forall_forall. intros t Ht.
  rewrite forallb_forall in Hfit. apply list_elem_of_In in Hr'.
  specialize (Hfit r' Hr'). rewrite forallb_forall in Hfit.
  apply Hfit, list_elem_of_In, Ht.
Qed.

Lemma mapM_Ok_map {A B} (f : A -> result B) (g : A -> B) (l : list A) :
  Forall (fun x => f x = Ok (g x)) l -> mapM f l = Ok (map g l).
Proof.
  intros Hall. apply mapM_Ok_Forall2.
  induction Hall; simpl; constructor; assumption.
Qed.

Lemma encode_app (d : VocabDictionary) s1 s2 t1 t2 :
  encode d s1 = Ok t1 -> encode d s2 = Ok t2 ->
  encode d (s1 ++ s2) = Ok (t1 ++ t2).
Proof. apply mapM_app. Qed.

Lemma encode_pad (d : VocabDictionary) (pad_id : Z) (n : nat) :
  pad_token d = Ok pad_id ->
  encode d (replicate n (PStr pad)) = Ok (replicate n pad_id).
Proof.
  intros Hpad. unfold encode. apply mapM_Ok_Forall2.
  induction n; simpl; constructor; [exact Hpad|assumption].
Qed.

Lemma encode_length (d : VocabDictionary) s toks :
  encode d s = Ok toks -> length toks = length s.
Proof.
  unfold encode. rewrite mapM_Ok_Forall2. intros Hf.
  symmetry. exact (Forall2_length _ _ _ Hf).
Qed.

Lemma padded_rows_rectangular (rows : list (list Z)) (width : nat) (x : Z) :
  Forall (fun r => length r <= width)%nat rows ->
  Forall (fun r => length r = width)
    (map (fun r => r ++ replicate (width - length r) x) rows).
Proof.
  intros Hall. rewrite Forall_fmap. eapply Forall_impl; [exact Hall|].
  intros r Hr. simpl in *. rewrite length_app, length_replicate. lia.
Qed.

Lemma mask_rows_rectangular (rows : list (list Z)) (width : nat) :
  Forall (fun r => length r <= width)%nat rows ->
  Forall (fun r => length r = width)
    (map (fun r => replicate (length r) 1 ++ replicate (width - length r) 0) rows).
Proof.
  intros Hall. rewrite Forall_fmap. eapply Forall_impl; [exact Hall|].
  intros r Hr. simpl in *. rewrite length_app, !length_replicate. lia.
Qed.

Lemma padded_rows_int64 (rows : list (list Z)) (width : nat) (x : Z) :
  int64 x = true ->
  Forall (Forall (fun t => int64 t = true)) rows ->
  Forall (Forall (fun t => int64 t = true))
    (map (fun r => r ++ replicate (width - length r) x) rows).
Proof.
  intros Hx Hall. rewrite Forall_fmap. eapply Forall_impl; [exact Hall|].
  intros r Hr. simpl. apply Forall_app. split; [exact Hr|].
  apply Forall_replicate. exact Hx.
Qed.

Lemma mask_rows_int64 (rows : list (list Z)) (width : nat) :
  Forall (Forall (fun t => int64 t = true))
    (map (fun r => replicate (length r) 1 ++ replicate (width - length r) 0)
       rows).
Proof.
  rewrite Forall_fmap. apply Forall_forall. intros r _. simpl.
  apply Forall_app. split; apply Forall_replicate; reflexivity.
Qed.

(** What [encode] returns are ids of the vocabulary. *)
Lemma encode_int64 (d : VocabDictionary) (s : list pyval) (toks : list Z) :
  encode d s = Ok toks ->
  Forall (fun x => forall t, dict_get (vocab d) (str x) = Some t ->
                             int64 t = true) s ->
  Forall (fun t => int64 t = true) toks.
Proof.
  unfold encode. rewrite mapM_Ok_Forall2. intros Hf Hfit.
  induction Hf as [|x t s toks Hx _ IH]; [constructor|].
  apply Forall_cons in Hfit as [Hfx Hfit].
  constructor; [|exact (IH Hfit)].
  apply Hfx. unfold dict_lookup in Hx.
  destruct (dict_get (vocab d) (str x)); [congruence|discriminate].
Qed.

(** [collate] of the check-in dataset, up to the two tensors. *)
Lemma pol_collate_unfold (d : VocabDictionary) (pad_id : Z)
    (data : list (POL.Meta * list Z)) :
  pad_token d = Ok pad_id -> data <> [] ->
  exists width : nat,
    Forall (fun r => length r <= width)%nat (map snd data) /\
    Exists (fun r => length r = width) (map snd data) /\
    POL.collate d data =
    (token_lists ← tensor (map (fun r => r ++ replicate (width - length r) pad_id)
                             (map snd data));
     masks ← tensor (map (fun r => replicate (length r) 1 ++
                                   replicate (width - length r) 0)
                       (map snd data));
     Ok {| data := token_lists; mask := masks; metadata := map fst data |}).
Proof.
  intros Hpad Hne. unfold POL.collate.
  destruct (max_of_total (map (fun item : POL.Meta * list Z => len item.2) data))
    as [W HW].
  { destruct data; [congruence|discriminate]. }
  rewrite HW. simpl.
  assert (Hlens : max_of (map len (map snd data)) = Ok W).
  { rewrite map_map. exact HW. }
  apply max_of_lengths in Hlens as [Hle Hex].
  set (width := Z.to_nat W) in *.
  exists width. split; [exact Hle|]. split; [exact Hex|].
  set (g := fun item : POL.Meta * list Z =>
              (item.2 ++ replicate (width - length item.2) pad_id,
               replicate (length item.2) 1 ++ replicate (width - length item.2) 0,
               item.1)).
  rewrite (mapM_Ok_map _ g).
  2:{ apply Forall_forall. intros [metadata tokens] _. rewrite Hpad. simpl.
      unfold g. simpl. rewrite times_len, !times_pad_replicate. reflexivity. }
  simpl. rewrite !map_map. reflexivity.
Qed.

(** [collate] of the check-in dataset succeeds whenever the vocabulary has
    a pad token and the ids fit the tensor. *)
Lemma pol_collate_collated (d : VocabDictionary) (pad_id : Z)
    (data : list (POL.Meta * list Z)) :
  pad_token d = Ok pad_id -> int64 pad_id = true -> data <> [] ->
  Forall (fun item : POL.Meta * list Z =>
            Forall (fun t => int64 t = true) item.2) data ->
  exists b, POL.collate d data = Ok b /\
            collated pad_id (map snd data) (map fst data) b.
Proof.
  intros Hpad Hpad64 Hne Hfit.
  assert (Hfit' : Forall (Forall (fun t => int64 t = true)) (map snd data)).
  { rewrite Forall_fmap. exact Hfit. }
  destruct (pol_collate_unfold d pad_id data Hpad Hne)
    as (width & Hle & Hex & ->).
  rewrite (tensor_rectangular _ width (padded_rows_rectangular _ _ pad_id Hle)
             (padded_rows_int64 _ _ _ Hpad64 Hfit')).
  rewrite bind_Ok.
  rewrite (tensor_rectangular _ width (mask_rows_rectangular _ _ Hle)
             (mask_rows_int64 _ _)).
  rewrite bind_Ok. eexists. split; [reflexivity|].
  exists width. simpl. repeat split; try assumption; reflexivity.
Qed.

Lemma porto_collate_rows (d : VocabDictionary) (pad_id W : Z)
    (data : list (list pyval * string)) (rows : list (list Z)) :
  pad_token d = Ok pad_id ->
  Forall2 (fun item r => encode d item.1 = Ok r) data rows ->
  exists outs,
    mapM (fun '(tokens_, metadata) =>
            let mask := times 1 (len tokens_) ++ times 0 (W - len tokens_) in
            tokens ← encode d (tokens_ ++ times (PStr pad) (W - len tokens_));
            Ok (tokens, mask, metadata)) data = Ok outs /\
    map (fun o : list Z * list Z * string => o.1.1) outs =
      map (fun r => r ++ replicate (Z.to_nat W - length r) pad_id) rows /\
    map (fun o : list Z * list Z * string => o.1.2) outs =
      map (fun r => replicate (length r) 1 ++
                    replicate (Z.to_nat W - length r) 0) rows /\
    map (fun o : list Z * list Z * string => o.2) outs = map snd data.
Proof.
  intros Hpad Hrows.
  induction Hrows as [|[tokens_ metadata] r data rows Hr _ (outs & Hm & H1 & H2 & H3)].
  - exists []. repeat split; reflexivity.
  - simpl in Hr. pose proof (encode_length _ _ _ Hr) as Hlen.
    eexists. split; [|split; [|split]].
    + rewrite mapM_cons, Hm. cbv beta iota zeta.
      rewrite !times_pad_replicate.
      rewrite (encode_app d _ _ _ _ Hr (encode_pad d pad_id _ Hpad)).
      reflexivity.
    + cbn [map fst]. rewrite H1, Hlen. reflexivity.
    + cbn [map fst snd]. rewrite H2, ?times_len, ?times_pad_replicate, Hlen.
      reflexivity.
    + cbn [map fst snd]. rewrite H3. reflexivity.
Qed.

(** [collate] of the taxi dataset, up to the two tensors. *)
Lemma porto_collate_unfold (d : VocabDictionary) (pad_id : Z)
    (data : list (list pyval * string)) (rows : list (list Z)) :
  pad_token d = Ok pad_id -> data <> [] ->
  Forall2 (fun item r => encode d item.1 = Ok r) data rows ->
  exists width : nat,
    Forall (fun r => length r <= width)%nat rows /\
    Exists (fun r => length r = width) rows /\
    Porto.collate d data =
    (token_lists ← tensor (map (fun r => r ++ replicate (width - length r) pad_id)
                             rows);
     masks ← tensor (map (fun r => replicate (length r) 1 ++
                                   replicate (width - length r) 0) rows);
     Ok {| data := token_lists; mask := masks; metadata := map snd data |}).
Proof.
  intros Hpad Hne Hrows. unfold Porto.collate.
  destruct (max_of_total (map (fun item : list pyval * string => len item.1) data))
    as [W HW].
  { destruct data; [congruence|discriminate]. }
  rewrite HW, bind_Ok.
  assert (Hlens : max_of (map len rows) = Ok W).
  { rewrite <- HW. f_equal. clear -Hrows.
    induction Hrows as [|item r data rows Hr _ IH]; simpl; [reflexivity|].
    rewrite IH. unfold len. rewrite (encode_length _ _ _ Hr). reflexivity. }
  apply max_of_lengths in Hlens as [Hle Hex].
  destruct (porto_collate_rows d pad_id W data rows Hpad Hrows)
    as (outs & Hm & H1 & H2 & H3).
  exists (Z.to_nat W). split; [exact Hle|]. split; [exact Hex|].
  cbv zeta in Hm |- *. rewrite Hm, bind_Ok, H1, H2, H3. reflexivity.
Qed.

(** [collate] of the taxi dataset succeeds whenever the vocabulary has a
    pad token and every symbol of the batch, with ids that fit the
    tensor. *)
Lemma porto_collate_collated (d : VocabDictionary) (pad_id : Z)
    (data : list (list pyval * string)) :
  pad_token d = Ok pad_id -> int64 pad_id = true -> data <> [] ->
  Forall (fun item : list pyval * string =>
            Forall (fun x => is_Some (dict_get (vocab d) (str x))) item.1) data ->
  Forall (fun item : list pyval * string =>
            Forall (fun x => forall t, dict_get (vocab d) (str x) = Some t ->
                                       int64 t = true) item.1) data ->
  exists b rows,
    Porto.collate d data = Ok b /\
    Forall2 (fun item r => encode d item.1 = Ok r) data rows /\
    collated pad_id rows (map snd data) b.
Proof.
  intros Hpad Hpad64 Hne Hknown Hfit.
  destruct (mapM_Ok_total (fun item : list pyval * string => encode d item.1) data)
    as [rows Hrows].
  { eapply Forall_impl; [exact Hknown|]. intros item. apply encode_total. }
  apply mapM_Ok_Forall2 in Hrows.
  destruct (porto_collate_unfold d pad_id data rows Hpad Hne Hrows)
    as (width & Hle & Hex & ->).
  assert (Hfit' : Forall (Forall (fun t => int64 t = true)) rows).
  { clear -Hrows Hfit.
    induction Hrows as [|item r data rows Hr _ IH]; [constructor|].
    apply Forall_cons in Hfit as [Hitem Hfit].
    constructor; [exact (encode_int64 _ _ _ Hr Hitem) | exact (IH Hfit)]. }
  rewrite (tensor_rectangular _ _ (padded_rows_rectangular _ _ pad_id Hle)
             (padded_rows_int64 _ _ _ Hpad64 Hfit')).
  rewrite bind_Ok.
  rewrite (tensor_rectangular _ _ (mask_rows_rectangular _ _ Hle)
             (mask_rows_int64 _ _)).
  rewrite bind_Ok.
  eexists. exists rows. split; [reflexivity|]. split; [exact Hrows|].
  exists width. simpl. repeat split; try assumption; reflexivity.
Qed.

Lemma encode_Ok_known (d : VocabDictionary) (s : list pyval) toks :
  encode d s = Ok toks ->
  Forall (fun x => is_Some (dict_get (vocab d) (str x))) s.
Proof.
  unfold encode. rewrite mapM_Ok_Forall2.
  induction 1 as [|x t s toks Hx _ IH]; constructor; [|exact IH].
  unfold dict_lookup in Hx. destruct (dict_get (vocab d) (str x)); [eauto|discriminate].
Qed.

(** When it returns a batch, [collate] of the check-in dataset was given
    a non-empty list. *)
Lemma pol_collate_Ok_inv (d : VocabDictionary) (data : list (POL.Meta * list Z)) b :
  POL.collate d data = Ok b -> data <> [].
Proof. destruct data; [discriminate|]. intros _. discriminate. Qed.

(** When it returns a batch, [collate] of the taxi dataset was given a
    non-empty list of sequences of symbols of the vocabulary. *)
Lemma porto_collate_Ok_inv (d : VocabDictionary)
    (data : list (list pyval * string)) b :
  Porto.collate d data = Ok b ->
  data <> [] /\
  Forall (fun item : list pyval * string =>
            Forall (fun x => is_Some (dict_get (vocab d) (str x))) item.1) data.
Proof.
  unfold Porto.collate. intros Hrun.
  destruct (max_of _) as [W|e] eqn:HW; [|discriminate].
  split; [destruct data; [discriminate|congruence]|].
  rewrite bind_Ok in Hrun.
  destruct (mapM _ data) as [outs|e] eqn:Houts; [|discriminate].
  clear Hrun HW. apply mapM_Ok_Forall2 in Houts.
  induction Houts as [|[tokens_ metadata] out data outs Hout _ IH];
    constructor; [|exact IH].
  cbv zeta in Hout.
  destruct (encode d (tokens_ ++ _)) as [toks|e] eqn:Henc; [|discriminate].
  apply encode_Ok_known in Henc. apply Forall_app in Henc as [Hknown _].
  exact Hknown.
Qed.

(** A batch [collate] returns is made of the two tensors it built. *)
Lemma tensors_collated {Meta} (pad_id : Z) (rows : list (list Z))
    (metas : list Meta) (width : nat) (b : batch Meta) :
  Forall (fun r => length r <= width)%nat rows ->
  Exists (fun r => length r = width) rows ->
  (token_lists ← tensor (map (fun r => r ++ replicate (width - length r) pad_id)
                           rows);
   masks ← tensor (map (fun r => replicate (length r) 1 ++
                                 replicate (width - length r) 0) rows);
   Ok {| data := token_lists; mask := masks; metadata := metas |}) = Ok b ->
  collated pad_id rows metas b.
Proof.
  intros Hle Hex Hrun.
  destruct (tensor (map (fun r => r ++ _) rows)) as [token_lists|e] eqn:Ht;
    [|discriminate].
  rewrite bind_Ok in Hrun.
  destruct (tensor (map (fun r => replicate _ 1 ++ _) rows)) as [masks|e] eqn:Hm;
    [|discriminate].
  rewrite bind_Ok in Hrun. injection Hrun as <-.
  apply tensor_Ok_int64 in Ht as [-> _]. apply tensor_Ok_int64 in Hm as [-> _].
  exists width. simpl. repeat split; try assumption; reflexivity.
Qed.

(** C2: with a pad token in the vocabulary and token ids that fit the
    [int64] elements of a tensor (the pad id and the ids of the batch),
    [collate] of either dataset returns, for every non-empty list (for
    the taxi variant, whose [collate] encodes: of sequences of symbols of
    the vocabulary), the batch whose rows are the token rows in input
    order, each padded on the right with the pad id up to the largest
    true length, with the mask 1 on the true tokens and 0 on the padding.
    And whatever the ids, every batch either [collate] returns is that
    batch, and comes from a non-empty list (of known symbols, for the
    taxi variant). *)
Theorem collate_pads_and_masks (d : VocabDictionary) (pad_id : Z) :
  pad_token d = Ok pad_id ->
  (int64 pad_id = true ->
   forall data : list (POL.Meta * list Z),
      data <> [] ->
      Forall (fun item : POL.Meta * list Z =>
                Forall (fun t => int64 t = true) item.2) data ->
      exists b, POL.collate d data = Ok b /\
                collated pad_id (map snd data) (map fst data) b)
  /\
  (int64 pad_id = true ->
   forall data : list (list pyval * string),
      data <> [] ->
      Forall (fun item : list pyval * string =>
                Forall (fun x => is_Some (dict_get (vocab d) (str x))) item.1)
             data ->
      Forall (fun item : list pyval * string =>
                Forall (fun x => forall t,
                          dict_get (vocab d) (str x) = Some t ->
                          int64 t = true) item.1)
             data ->
      exists b rows,
        Porto.collate d data = Ok b /\
        Forall2 (fun item r => encode d item.1 = Ok r) data rows /\
        collated pad_id rows (map snd data) b)
  /\
  (forall (data : list (POL.Meta * list Z)) b,
      POL.collate d data = Ok b ->
      data <> [] /\ collated pad_id (map snd data) (map fst data) b)
  /\
  (forall (data : list (list pyval * string)) b,
      Porto.collate d data = Ok b ->
      data <> [] /\
      Forall (fun item : list pyval * string =>
                Forall (fun x => is_Some (dict_get (vocab d) (str x))) item.1)
             data /\
      exists rows,
        Forall2 (fun item r => encode d item.1 = Ok r) data rows /\
        collated pad_id rows (map snd data) b).
Proof.
  intros Hpad. split; [|split; [|split]].
  - intros Hpad64 data Hne Hfit. apply pol_collate_collated; assumption.
  - intros Hpad64 data Hne Hknown Hfit. apply porto_collate_collated; assumption.
  - intros data b Hrun.
    pose proof (pol_collate_Ok_inv _ _ _ Hrun) as Hne. split; [exact Hne|].
    destruct (pol_collate_unfold d pad_id data Hpad Hne)
      as (width & Hle & Hex & Heq).
    rewrite Heq in Hrun. exact (tensors_collated _ _ _ _ _ Hle Hex Hrun).
  - intros data b Hrun.
    destruct (porto_collate_Ok_inv _ _ _ Hrun) as [Hne Hknown].
    split; [exact Hne|]. split; [exact Hknown|].
    destruct (mapM_Ok_total (fun item : list pyval * string => encode d item.1)
                data) as [rows Hrows].
    { eapply Forall_impl; [exact Hknown|]. intros item. apply encode_total. }
    apply mapM_Ok_Forall2 in Hrows. exists rows. split; [exact Hrows|].
    destruct (porto_collate_unfold d pad_id data rows Hpad Hne Hrows)
      as (width & Hle & Hex & Heq).
    rewrite Heq in Hrun. exact (tensors_collated _ _ _ _ _ Hle Hex Hrun).
Qed.

(** The rows of a collated batch, position by position. *)
Lemma collated_rows {Meta} (pad_id : Z) (rows : list (list Z))
    (metas : list Meta) (b : batch Meta) :
  collated pad_id rows metas b ->
  length (data b) = length rows /\ length (mask b) = length rows /\
  exists width : nat,
    forall (i : nat) (r : list Z), rows !! i = Some r ->
      exists tokens_row mask_row,
        data b !! i = Some tokens_row /\ mask b !! i = Some mask_row /\
        length tokens_row = width /\ length mask_row = width /\
        forall j : nat, (j < width)%nat ->
          ((j < length r)%nat ->
             mask_row !! j = Some 1 /\ tokens_row !! j = r !! j) /\
          ((length r <= j)%nat ->
             mask_row !! j = Some 0 /\ tokens_row !! j = Some pad_id).
Proof.
  intros (width & Hle & _ & Hdata & Hmask & _).
  rewrite Hdata, Hmask, !length_map. split; [reflexivity|]. split; [reflexivity|].
  exists width. intros i r Hr.
  assert (Hlen : (length r <= width)%nat).
  { rewrite Forall_forall in Hle. apply Hle. eapply list_elem_of_lookup_2. exact Hr. }
  eexists _, _. split; [|split; [|split; [|split]]].
  - change map with (@fmap list _). rewrite list_lookup_fmap, Hr. reflexivity.
  - change map with (@fmap list _). rewrite list_lookup_fmap, Hr. reflexivity.
  - rewrite length_app, length_replicate. lia.
  - rewrite length_app, !length_replicate. lia.
  - intros j Hj. split; intros Hjr.
    + rewrite !lookup_app_l by (rewrite ?length_replicate; lia).
      split; [|reflexivity]. apply lookup_replicate_2. lia.
    + rewrite !lookup_app_r by (rewrite ?length_replicate; lia).
      rewrite length_replicate.
      split; apply lookup_replicate_2; lia.
Qed.

(** ** The check-in dataset *)

(** What [get_data] stores in [block_size]: the largest length of the
    text of a [token] cell among the rows it keeps, times the number of
    features, plus 3; and with outliers excluded no kept row is one. *)
Lemma get_data_block_size config table config' data outliers :
  POL.get_data config table = Ok (config', data, outliers) ->
  POL.block_size config' =
    (fun m => m * len (POL.features config) + 3) <$>
      POL.series_max
        (map (fun r => Z.of_nat (String.length (POL.token (POL.row r)))) data)
  /\ (POL.include_outliers config = false ->
      Forall (fun r => POL.outlier r <> "outlier"%string) data).
Proof.
  unfold POL.get_data. destruct (mapM POL.parse_user_id table) as [ids|e];
    [|discriminate].
  rewrite bind_Ok. cbv zeta. intros [= <- <- _]. split; [reflexivity|].
  intros ->. simpl. apply Forall_forall. intros r Hr.
  apply list_elem_of_filter in Hr as [Hr _]. exact Hr.
Qed.

(** C1: on a table whose only row has one visit, written [[88]], the
    loader sets [block_size] to 4 * 4 + 3 = 19 (four characters), where the
    stated formula gives 1 * 4 + 3 = 7. *)
Theorem get_data_block_size_counts_characters :
  exists config' data outliers,
    POL.get_data default_pol_config one_visit_table
      = Ok (config', data, outliers) /\
    POL.block_size config' = Some 19 /\
    stated_block_size default_pol_config data = Ok (Some 7).
Proof.
  eexists _, _, _. split; [vm_compute; reflexivity|].
  split; vm_compute; reflexivity.
Qed.

(** C8: a record with no visit (the four sequences empty) and a day of
    week yields [[user_id, day_of_week, EOT]], and this sequence encodes to
    the three ids of its symbols in any vocabulary that has them. *)
Theorem zero_visit_feature_vector (config : POL.POLConfig) (sample : POL.Row)
    (day : pyval) (rest : list pyval) :
  eval_list (POL.dayofweek sample) = Ok (day :: rest) ->
  eval_list (POL.place sample) = Ok [] ->
  eval_list (POL.token sample) = Ok [] ->
  eval_list (POL.duration_bucket sample) = Ok [] ->
  eval_list (POL.distance_label sample) = Ok [] ->
  POL.get_feature_vector config sample
    = Ok [PStr (POL.user_id sample); day; PStr "EOT"]
  /\ forall (d : VocabDictionary) (a b c : Z),
       dict_get (vocab d) (POL.user_id sample) = Some a ->
       dict_get (vocab d) (str day) = Some b ->
       dict_get (vocab d) "EOT" = Some c ->
       encode d [PStr (POL.user_id sample); day; PStr "EOT"] = Ok [a; b; c].
Proof.
  intros Hday Hplace Htoken Hduration Hdistance. split.
  - unfold POL.get_feature_vector.
    rewrite Hday, bind_Ok. change (index (day :: rest) 0) with (Ok day).
    rewrite bind_Ok, Hplace, bind_Ok, Htoken, bind_Ok, Hduration, bind_Ok,
      Hdistance, bind_Ok.
    reflexivity.
  - intros d a b c Ha Hb Hc. unfold encode. rewrite !mapM_cons.
    unfold dict_lookup. simpl str. rewrite Ha, Hb, Hc. reflexivity.
Qed.

(** ** Computations over the generator *)

Section MonadFacts.
Context `{Generator}.

Lemma bind_Ok_inv {A B} (c : M A) (k : A -> M B) g r :
  bind c k g = Ok r -> exists a g1, c g = Ok (a, g1) /\ k a g1 = Ok r.
Proof.
  unfold bind. destruct (c g) as [[a g1]|e]; [|discriminate]. eauto.
Qed.

Lemma bind_raises_l {A B} (c : M A) (k : A -> M B) g :
  raises (c g) -> raises (bind c k g).
Proof. intros [e He]. unfold bind. rewrite He. exists e. reflexivity. Qed.

Lemma bind_raises_r {A B} (c : M A) (k : A -> M B) g :
  (forall a g1, c g = Ok (a, g1) -> raises (k a g1)) -> raises (bind c k g).
Proof.
  intros Hk. unfold bind. destruct (c g) as [[a g1]|e] eqn:Hc.
  - apply Hk. reflexivity.
  - exists e. reflexivity.
Qed.

Lemma lift_Ok_inv {A} (r : result A) g a g' :
  lift r g = Ok (a, g') -> r = Ok a /\ g' = g.
Proof. unfold lift. destruct r; [|discriminate]. intros [= -> ->]. auto. Qed.

Lemma ret_Ok_inv {A} (x : A) g a g' : ret x g = Ok (a, g') -> a = x /\ g' = g.
Proof. unfold ret. intros [= -> ->]. auto. Qed.

Lemma for_each_Ok_Forall2 {A B} (f : A -> M B) (l : list A) g ys g' :
  for_each f l g = Ok (ys, g') ->
  Forall2 (fun x y => exists g0 g1, f x g0 = Ok (y, g1)) l ys.
Proof.
  revert g ys g'. induction l as [|x l IH]; intros g ys g'; simpl.
  - intros [= <- _]. constructor.
  - intros Hb. apply bind_Ok_inv in Hb as (y & g1 & Hy & Hb).
    apply bind_Ok_inv in Hb as (zs & g2 & Hzs & Hb).
    apply ret_Ok_inv in Hb as [-> _]. constructor; eauto.
Qed.

Lemma for_each_length {A B} (f : A -> M B) (l : list A) g ys g' :
  for_each f l g = Ok (ys, g') -> length ys = length l.
Proof.
  intros Hf. apply for_each_Ok_Forall2 in Hf.
  symmetry. exact (Forall2_length _ _ _ Hf).
Qed.

Lemma for_each_raises {A B} (f : A -> M B) (l : list A) (x : A) :
  x ∈ l -> (forall g, raises (f x g)) -> forall g, raises (for_each f l g).
Proof.
  intros Hin Hx. induction l as [|y l IH]; intros g; [inversion Hin|].
  simpl. apply elem_of_cons in Hin as [<-|Hin].
  - apply bind_raises_l, Hx.
  - apply bind_raises_r. intros b g1 _. apply bind_raises_l, IH, Hin.
Qed.

Lemma randint_Ok_inv low high g v g' :
  randint low high g = Ok (v, g') -> low <= v < high.
Proof.
  unfold randint. destruct (_ || _); [discriminate|].
  destruct (low <? high) eqn:Hlt; [|discriminate].
  intros Heq. injection Heq as Heq. apply Z.ltb_lt in Hlt.
  pose proof (next_int_range low high g Hlt) as Hr. rewrite Heq in Hr. exact Hr.
Qed.

Lemma randint_raises low high g : high <= low -> raises (randint low high g).
Proof.
  intros Hle. unfold randint. destruct (_ || _); [eexists; reflexivity|].
  destruct (low <? high) eqn:Hlt; [apply Z.ltb_lt in Hlt; lia|].
  eexists. reflexivity.
Qed.

End MonadFacts.

(** ** Floats: the integers below [2^53]

    Binary64 holds every integer of magnitude below [2^53], and sums and
    products of such integers are computed without rounding as long as
    they stay below [2^53]. *)

Lemma iter_pos_iter {A} (f : A -> A) (n : positive) (x : A) :
  SpecFloat.iter_pos f n x = Pos.iter f x n.
Proof.
  revert x. induction n as [n IH|n IH|]; intros x; simpl.
  - rewrite !IH. rewrite <- Pos.iter_swap. rewrite <- Pos.iter_swap. reflexivity.
  - rewrite !IH. reflexivity.
  - reflexivity.
Qed.

Lemma iter_xO (d m : positive) :
  Zpos (Pos.iter xO m d) = Zpos m * 2 ^ Zpos d.
Proof.
  induction d as [|d IH] using Pos.peano_ind.
  - simpl. lia.
  - rewrite Pos.iter_succ, Pos2Z.inj_xO, IH, Pos2Z.inj_succ, Z.pow_succ_r by lia.
    lia.
Qed.

Lemma iter_shr_1 (k n : positive) :
  Pos.iter shr_1 {| shr_m := Zpos n * 2 ^ Zpos k; shr_r := false; shr_s := false |} k
  = {| shr_m := Zpos n; shr_r := false; shr_s := false |}.
Proof.
  revert n. induction k as [|k IH] using Pos.peano_ind; intros n.
  - replace (Zpos n * 2 ^ 1) with (Zpos (xO n)) by lia.
    reflexivity.
  - rewrite Pos.iter_succ.
    replace (Zpos n * 2 ^ Zpos (Pos.succ k)) with (Zpos (xO n) * 2 ^ Zpos k).
    + rewrite IH. reflexivity.
    + rewrite Pos2Z.inj_succ, Z.pow_succ_r by lia. lia.
Qed.

Lemma Zdigits2_log2 (p : positive) : Zdigits2 (Zpos p) = Z.log2 (Zpos p) + 1.
Proof.
  simpl. induction p as [p IH|p IH|]; simpl in *.
  - rewrite Pos2Z.inj_succ, IH. destruct p; simpl; lia.
  - rewrite Pos2Z.inj_succ, IH. destruct p; simpl; lia.
  - reflexivity.
Qed.

Lemma fexp_small (d : Z) : 1 <= d -> fexp prec emax d = d - 53.
Proof. intros Hd. unfold fexp, emin, prec, emax. lia. Qed.

Lemma log2_bounds (n : Z) :
  0 < n < 2 ^ 53 -> 0 <= Z.log2 n < 53.
Proof.
  intros Hn. split; [apply Z.log2_nonneg|].
  apply Z.log2_lt_pow2; lia.
Qed.

(** Shifting right by as many places as there are zero bits to drop. *)
Lemma shr_fexp_exact (m : positive) (e n : Z) :
  0 < n < 2 ^ 53 -> Z.pos m = n * 2 ^ (- e) -> e <= 0 ->
  2 ^ 52 <= Z.pos m ->
  shr_fexp prec emax (Z.pos m) e loc_Exact
  = ({| shr_m := n * 2 ^ (52 - Z.log2 n); shr_r := false; shr_s := false |},
     Z.log2 n - 52).
Proof.
  intros Hn Hm He Hbig.
  pose proof (log2_bounds n Hn) as Hlog.
  assert (Hlogm : Z.log2 (Z.pos m) = Z.log2 n - e).
  { rewrite Hm, Z.log2_mul_pow2 by lia. lia. }
  assert (Hk : 52 <= Z.log2 n - e).
  { rewrite <- Hlogm. rewrite <- (Z.log2_pow2 52) by lia.
    apply Z.log2_le_mono. exact Hbig. }
  unfold shr_fexp. rewrite Zdigits2_log2, Hlogm.
  replace (Z.log2 n - e + 1 + e) with (Z.log2 n + 1) by lia.
  rewrite fexp_small by lia.
  replace (Z.log2 n + 1 - 53 - e) with (Z.log2 n - 52 - e) by lia.
  simpl shr_record_of_loc.
  destruct (Z.log2 n - 52 - e) as [|k|k] eqn:Hshift; [| |lia].
  - unfold shr. f_equal; [|lia]. f_equal.
    rewrite Hm. f_equal. f_equal. lia.
  - unfold shr. rewrite iter_pos_iter.
    assert (Hpos : 0 < n * 2 ^ (52 - Z.log2 n)).
    { apply Z.mul_pos_pos; [lia|]. apply Z.pow_pos_nonneg; lia. }
    destruct (n * 2 ^ (52 - Z.log2 n)) as [|n'|n'] eqn:Hn'; [lia| |lia].
    replace (Z.pos m) with (Z.pos n' * 2 ^ Z.pos k).
    + rewrite iter_shr_1. f_equal. lia.
    + rewrite Hm, <- Hn', <- Hshift, <- Z.mul_assoc, <- Z.pow_add_r by lia.
      f_equal. f_equal. lia.
Qed.

Lemma binary_round_aux_exact (s : bool) (m : positive) (e n : Z) :
  0 < n < 2 ^ 53 -> Z.pos m = n * 2 ^ (- e) -> e <= 0 ->
  2 ^ 52 <= Z.pos m ->
  binary_round_aux prec emax s (Z.pos m) e loc_Exact = canon s n.
Proof.
  intros Hn Hm He Hbig.
  pose proof (log2_bounds n Hn) as Hlog.
  unfold binary_round_aux.
  rewrite (shr_fexp_exact m e n Hn Hm He Hbig).
  cbn [shr_m loc_of_shr_record round_nearest_even].
  assert (Hpos : 0 < n * 2 ^ (52 - Z.log2 n)).
  { apply Z.mul_pos_pos; [lia|]. apply Z.pow_pos_nonneg; lia. }
  destruct (n * 2 ^ (52 - Z.log2 n)) as [|n'|n'] eqn:Hn'; [lia| |lia].
  assert (Hlow : 2 ^ 52 <= Z.pos n').
  { rewrite <- Hn'. destruct (Z.log2_spec n) as [Hlo _]; [lia|].
    replace (2 ^ 52) with (2 ^ Z.log2 n * 2 ^ (52 - Z.log2 n)).
    - apply Z.mul_le_mono_nonneg_r; [|exact Hlo].
      apply Z.pow_nonneg; lia.
    - rewrite <- Z.pow_add_r by lia. f_equal. lia. }
  rewrite (shr_fexp_exact n' (Z.log2 n - 52) n Hn); [| |lia|exact Hlow].
  - rewrite Hn'. cbn [shr_m].
    replace (Z.log2 n - 52 <=? emax - prec) with true.
    + unfold canon. rewrite Hn'. reflexivity.
    + symmetry. apply Z.leb_le. unfold emax, prec. lia.
  - rewrite <- Hn'. f_equal. f_equal. lia.
Qed.

Lemma canon_mantissa (n : Z) :
  0 < n < 2 ^ 53 ->
  Z.pos (Z.to_pos (n * 2 ^ (52 - Z.log2 n))) = n * 2 ^ (52 - Z.log2 n) /\
  2 ^ 52 <= n * 2 ^ (52 - Z.log2 n).
Proof.
  intros Hn. pose proof (log2_bounds n Hn) as Hlog.
  assert (Hlow : 2 ^ 52 <= n * 2 ^ (52 - Z.log2 n)).
  { destruct (Z.log2_spec n) as [Hlo _]; [lia|].
    replace (2 ^ 52) with (2 ^ Z.log2 n * 2 ^ (52 - Z.log2 n)).
    - apply Z.mul_le_mono_nonneg_r; [|exact Hlo].
      apply Z.pow_nonneg; lia.
    - rewrite <- Z.pow_add_r by lia. f_equal. lia. }
  split; [|exact Hlow]. apply Z2Pos.id. lia.
Qed.

Lemma shl_align_fst (mx : positive) (ex ez : Z) :
  ez <= ex ->
  Z.pos (fst (shl_align mx ex ez)) = Z.pos mx * 2 ^ (ex - ez).
Proof.
  intros Hle. unfold shl_align.
  destruct (ez - ex) as [|d|d] eqn:Hd; [|lia|].
  - replace (ex - ez) with 0 by lia. simpl fst. lia.
  - simpl fst. rewrite iter_xO. f_equal. f_equal. lia.
Qed.

(** Rounding a mantissa that holds an integer below [2^53]. *)
Lemma binary_round_exact (s : bool) (m : positive) (e n : Z) :
  0 < n < 2 ^ 53 -> Z.pos m = n * 2 ^ (- e) -> e <= 0 ->
  binary_round prec emax s m e = canon s n.
Proof.
  intros Hn Hm He. pose proof (log2_bounds n Hn) as Hlog.
  unfold binary_round.
  change (Z.pos (digits2_pos m)) with (Zdigits2 (Z.pos m)).
  assert (Hlogm : Z.log2 (Z.pos m) = Z.log2 n - e).
  { rewrite Hm, Z.log2_mul_pow2 by lia. lia. }
  rewrite Zdigits2_log2, Hlogm.
  replace (Z.log2 n - e + 1 + e) with (Z.log2 n + 1) by lia.
  rewrite fexp_small by lia.
  replace (Z.log2 n + 1 - 53) with (Z.log2 n - 52) by lia.
  destruct (shl_align m e (Z.log2 n - 52)) as [mz ez] eqn:Halign.
  unfold shl_align in Halign.
  destruct (Z.log2 n - 52 - e) as [|d|d] eqn:Hd.
  - injection Halign as <- <-.
    apply binary_round_aux_exact; [exact Hn|exact Hm|exact He|].
    destruct (canon_mantissa n Hn) as [_ Hlow].
    rewrite Hm. replace (- e) with (52 - Z.log2 n) by lia. exact Hlow.
  - injection Halign as <- <-.
    apply binary_round_aux_exact; [exact Hn|exact Hm|exact He|].
    destruct (Z.log2_spec n) as [Hlo _]; [lia|].
    rewrite Hm.
    replace (2 ^ 52) with (2 ^ Z.log2 n * 2 ^ (52 - Z.log2 n)).
    + apply Z.mul_le_mono_nonneg;
        [apply Z.pow_nonneg; lia | exact Hlo | apply Z.pow_nonneg; lia
        | apply Z.pow_le_mono_r; lia].
    + rewrite <- Z.pow_add_r by lia. f_equal. lia.
  - injection Halign as <- <-.
    destruct (canon_mantissa n Hn) as [_ Hlow].
    apply binary_round_aux_exact; [exact Hn| |lia|].
    + rewrite iter_xO, Hm, <- Z.mul_assoc, <- Z.pow_add_r by lia.
      f_equal. f_equal. lia.
    + rewrite iter_xO, Hm, <- Z.mul_assoc, <- Z.pow_add_r by lia.
      replace (- e + Z.pos d) with (52 - Z.log2 n) by lia. exact Hlow.
Qed.

Lemma binary_normalize_exact (z e n : Z) :
  Z.abs n < 2 ^ 53 -> z = n * 2 ^ (- e) -> e <= 0 ->
  represents (binary_normalize prec emax z e false) n.
Proof.
  intros Hn Hz He.
  assert (Hp : 0 < 2 ^ (- e)) by (apply Z.pow_pos_nonneg; lia).
  destruct n as [|n|n].
  - rewrite Hz. simpl. exists false. reflexivity.
  - destruct z as [|z|z]; [lia| |lia].
    simpl. apply binary_round_exact; [lia|exact Hz|exact He].
  - destruct z as [|z|z]; [lia|lia|].
    simpl. apply binary_round_exact; [lia| |exact He].
    change (Z.pos n) with (- Z.neg n). lia.
Qed.

Lemma SFmul_canon (sa sb : bool) (a b : Z) :
  0 < a < 2 ^ 53 -> 0 < b < 2 ^ 53 -> a * b < 2 ^ 53 ->
  SFmul prec emax (canon sa a) (canon sb b) = canon (xorb sa sb) (a * b).
Proof.
  intros Ha Hb Hab.
  pose proof (log2_bounds a Ha) as Hla. pose proof (log2_bounds b Hb) as Hlb.
  destruct (canon_mantissa a Ha) as [Hma Hlowa].
  destruct (canon_mantissa b Hb) as [Hmb Hlowb].
  unfold canon at 1 2. unfold SFmul.
  apply binary_round_aux_exact.
  - nia.
  - rewrite Pos2Z.inj_mul, Hma, Hmb.
    replace (- (Z.log2 a - 52 + (Z.log2 b - 52)))
      with ((52 - Z.log2 a) + (52 - Z.log2 b)) by lia.
    rewrite Z.pow_add_r by lia. ring.
  - lia.
  - rewrite Pos2Z.inj_mul, Hma, Hmb.
    assert (0 < 2 ^ 52) by (apply Z.pow_pos_nonneg; lia). nia.
Qed.

Lemma SFadd_canon (sa sb : bool) (a b : Z) :
  0 < a < 2 ^ 53 -> 0 < b < 2 ^ 53 ->
  Z.abs (cond_Zopp sa a + cond_Zopp sb b) < 2 ^ 53 ->
  represents (SFadd prec emax (canon sa a) (canon sb b))
    (cond_Zopp sa a + cond_Zopp sb b).
Proof.
  intros Ha Hb Hab.
  pose proof (log2_bounds a Ha) as Hla. pose proof (log2_bounds b Hb) as Hlb.
  destruct (canon_mantissa a Ha) as [Hma _].
  destruct (canon_mantissa b Hb) as [Hmb _].
  unfold canon. unfold SFadd.
  set (ea := Z.log2 a - 52). set (eb := Z.log2 b - 52).
  set (ez := Z.min ea eb).
  apply binary_normalize_exact; [exact Hab| |unfold ez, ea, eb; lia].
  rewrite !shl_align_fst by (unfold ez; lia).
  rewrite Hma, Hmb.
  assert (Hea : a * 2 ^ (52 - Z.log2 a) * 2 ^ (ea - ez) = a * 2 ^ (- ez)).
  { rewrite <- Z.mul_assoc, <- Z.pow_add_r by (unfold ez, ea, eb; lia).
    f_equal. f_equal. unfold ea. lia. }
  assert (Heb : b * 2 ^ (52 - Z.log2 b) * 2 ^ (eb - ez) = b * 2 ^ (- ez)).
  { rewrite <- Z.mul_assoc, <- Z.pow_add_r by (unfold ez, ea, eb; lia).
    f_equal. f_equal. unfold eb. lia. }
  rewrite Hea, Heb. destruct sa, sb; simpl cond_Zopp; ring.
Qed.

Lemma represents_finite (f : float) (n : Z) :
  represents f n -> Z.abs n < 2 ^ 53 ->
  (n = 0 /\ exists s, f = S754_zero s) \/
  (n <> 0 /\ f = canon (n <? 0) (Z.abs n) /\ 0 < Z.abs n < 2 ^ 53).
Proof.
  destruct n as [|p|p]; simpl; intros Hf Hn.
  - left. auto.
  - right. split; [discriminate|]. split; [exact Hf|lia].
  - right. split; [discriminate|]. split; [exact Hf|lia].
Qed.

Lemma represents_canon (s : bool) (n : Z) :
  0 < n -> represents (canon s n) (cond_Zopp s n).
Proof.
  intros Hn. destruct n as [|p|p]; try lia. destruct s; reflexivity.
Qed.

(** [float(n)] holds [n] when [n] is below [2^53]. *)
Lemma float_of_int_exact (n : Z) :
  Z.abs n < 2 ^ 53 ->
  exists f, float_of_int n = Ok f /\ represents f n.
Proof.
  intros Hn. unfold float_of_int.
  pose proof (binary_normalize_exact n 0 n Hn) as Hrep.
  rewrite Z.opp_0, Z.pow_0_r, Z.mul_1_r in Hrep.
  specialize (Hrep eq_refl (Z.le_refl 0)).
  destruct n as [|p|p]; cbn [represents] in Hrep.
  - exists (S754_zero false). split; [reflexivity|]. exists false. reflexivity.
  - rewrite Hrep. unfold canon at 1. eexists. split; [reflexivity|].
    reflexivity.
  - rewrite Hrep. unfold canon at 1. eexists. split; [reflexivity|].
    reflexivity.
Qed.

(** The product of two floats that hold integers holds their product,
    when it is below [2^53]. *)
Lemma represents_fmul (fa fb : float) (a b : Z) :
  represents fa a -> represents fb b ->
  Z.abs a < 2 ^ 53 -> Z.abs b < 2 ^ 53 -> Z.abs (a * b) < 2 ^ 53 ->
  represents (fmul fa fb) (a * b).
Proof.
  intros Ha Hb Hna Hnb Hab. unfold fmul.
  destruct (represents_finite fa a Ha Hna) as [[-> [sa ->]]|(Hane & -> & Hpa)];
    destruct (represents_finite fb b Hb Hnb) as [[-> [sb ->]]|(Hbne & -> & Hpb)].
  - simpl. eauto.
  - rewrite Z.mul_0_l. unfold canon. simpl. eauto.
  - rewrite Z.mul_0_r. unfold canon. simpl. eauto.
  - rewrite SFmul_canon by (rewrite <- ?Z.abs_mul; lia).
    rewrite <- Z.abs_mul.
    replace (xorb (a <? 0) (b <? 0)) with (a * b <? 0).
    + assert (Hrep := represents_canon (a * b <? 0) (Z.abs (a * b))).
      replace (cond_Zopp (a * b <? 0) (Z.abs (a * b))) with (a * b) in Hrep.
      * apply Hrep. nia.
      * destruct (a * b <? 0) eqn:Hs; simpl; lia.
    + destruct (a <? 0) eqn:Hsa, (b <? 0) eqn:Hsb, (a * b <? 0) eqn:Hs;
        simpl; try reflexivity; exfalso; nia.
Qed.

(** The sum of two floats that hold integers holds their sum, when it is
    below [2^53]. *)
Lemma represents_fadd (fa fb : float) (a b : Z) :
  represents fa a -> represents fb b ->
  Z.abs a < 2 ^ 53 -> Z.abs b < 2 ^ 53 -> Z.abs (a + b) < 2 ^ 53 ->
  represents (fadd fa fb) (a + b).
Proof.
  intros Ha Hb Hna Hnb Hab. unfold fadd.
  destruct (represents_finite fa a Ha Hna) as [[-> [sa ->]]|(Hane & -> & Hpa)];
    destruct (represents_finite fb b Hb Hnb) as [[-> [sb ->]]|(Hbne & -> & Hpb)].
  - simpl. destruct sa, sb; simpl; eauto.
  - rewrite Z.add_0_l. unfold canon at 1. cbn [SFadd].
    fold (canon (b <? 0) (Z.abs b)).
    assert (Hrep := represents_canon (b <? 0) (Z.abs b)).
    replace (cond_Zopp (b <? 0) (Z.abs b)) with b in Hrep
      by (destruct (b <? 0) eqn:Hs; simpl; lia).
    apply Hrep. lia.
  - rewrite Z.add_0_r. unfold canon at 1. cbn [SFadd].
    fold (canon (a <? 0) (Z.abs a)).
    assert (Hrep := represents_canon (a <? 0) (Z.abs a)).
    replace (cond_Zopp (a <? 0) (Z.abs a)) with a in Hrep
      by (destruct (a <? 0) eqn:Hs; simpl; lia).
    apply Hrep. lia.
  - assert (Hsa : cond_Zopp (a <? 0) (Z.abs a) = a)
      by (destruct (a <? 0) eqn:Hs; simpl; lia).
    assert (Hsb : cond_Zopp (b <? 0) (Z.abs b) = b)
      by (destruct (b <? 0) eqn:Hs; simpl; lia).
    pose proof (SFadd_canon (a <? 0) (b <? 0) (Z.abs a) (Z.abs b) Hpa Hpb)
      as Hsum.
    rewrite Hsa, Hsb in Hsum. exact (Hsum Hab).
Qed.

(** [int(f)] gives back the integer [f] holds. *)
Lemma int_of_float_represents (f : float) (n : Z) :
  represents f n -> Z.abs n < 2 ^ 53 -> int_of_float f = Ok n.
Proof.
  intros Hf Hn.
  destruct (represents_finite f n Hf Hn) as [[-> [s ->]]|(Hne & -> & Hp)].
  - reflexivity.
  - unfold canon, int_of_float.
    destruct (canon_mantissa (Z.abs n) Hp) as [Hm _].
    pose proof (log2_bounds (Z.abs n) Hp) as Hlog.
    rewrite Hm, Z.shiftl_div_pow2 by lia.
    replace (- (Z.log2 (Z.abs n) - 52)) with (52 - Z.log2 (Z.abs n)) by lia.
    rewrite Z.div_mul by (apply Z.pow_nonzero; lia).
    f_equal. destruct (n <? 0) eqn:Hs; simpl; lia.
Qed.

(** A float that holds an integer compares with an int as that integer
    does. *)
Lemma float_compare_int_represents (f : float) (n z : Z) :
  represents f n -> Z.abs n < 2 ^ 53 ->
  float_compare_int f z = Some (n ?= z).
Proof.
  intros Hf Hn.
  destruct (represents_finite f n Hf Hn) as [[-> [s ->]]|(Hne & -> & Hp)].
  - reflexivity.
  - unfold canon, float_compare_int.
    destruct (canon_mantissa (Z.abs n) Hp) as [Hm _].
    pose proof (log2_bounds (Z.abs n) Hp) as Hlog.
    rewrite Hm. f_equal.
    assert (Hpow : 0 < 2 ^ (52 - Z.log2 (Z.abs n)))
      by (apply Z.pow_pos_nonneg; lia).
    assert (Hval : cond_Zopp (n <? 0)
                     (Z.abs n * 2 ^ (52 - Z.log2 (Z.abs n)))
                   = n * 2 ^ (52 - Z.log2 (Z.abs n))).
    { destruct (n <? 0) eqn:Hs; simpl; lia. }
    rewrite Hval.
    destruct (0 <=? Z.log2 (Z.abs n) - 52) eqn:He.
    + apply Z.leb_le in He.
      replace (Z.log2 (Z.abs n) - 52) with 0 by lia.
      replace (52 - Z.log2 (Z.abs n)) with 0 by lia.
      rewrite Z.pow_0_r, !Z.mul_1_r. reflexivity.
    + replace (- (Z.log2 (Z.abs n) - 52)) with (52 - Z.log2 (Z.abs n)) by lia.
      destruct (Z.compare_spec n z) as [->|Hlt|Hgt].
      * apply Z.compare_refl.
      * apply Z.compare_lt_iff. nia.
      * apply Z.compare_gt_iff. nia.
Qed.

(** ** Floats: an int over its magnitude *)

Lemma div_eucl_div_mod (a b : Z) : Z.div_eucl a b = (a / b, a mod b).
Proof. unfold Z.div, Z.modulo. destruct (Z.div_eucl a b). reflexivity. Qed.

(** [p / p] is 1, with the sign of the operands. *)
Lemma SFdiv_same (s1 s2 : bool) (p : positive) :
  SFdiv prec emax (S754_finite s1 p 0) (S754_finite s2 p 0)
  = canon (xorb s1 s2) 1.
Proof.
  unfold SFdiv, SFdiv_core_binary.
  replace (Zdigits2 (Z.pos p) + 0 - (Zdigits2 (Z.pos p) + 0)) with 0 by lia.
  change (fexp prec emax 0) with (-53).
  change (Z.min (-53) (0 - 0)) with (-53). change (0 - 0 - -53) with 53.
  cbv iota zeta.
  rewrite Z.shiftl_mul_pow2 by lia.
  rewrite div_eucl_div_mod.
  rewrite (Z.mul_comm (Z.pos p)), Z.div_mul, Z.mod_mul by lia.
  replace (new_location (Z.pos p) 0) with loc_Exact.
  2:{ unfold new_location. destruct (Z.even (Z.pos p)); reflexivity. }
  apply (binary_round_aux_exact _ (2 ^ 53)%positive (-53) 1); try reflexivity.
  - split; reflexivity.
  - discriminate.
  - discriminate.
Qed.

(** [d / abs(d)] and [-d / abs(d)], with 1 in place of [abs(d)] when [d]
    is 0, are the floats that hold the sign of [d] and its opposite. *)
Lemma int_truediv_sign (d : Z) :
  exists a b,
    int_truediv d (if d =? 0 then 1 else Z.abs d) = Ok a /\
    int_truediv (- d) (if d =? 0 then 1 else Z.abs d) = Ok b /\
    represents a (Z.sgn d) /\ represents b (- Z.sgn d).
Proof.
  unfold int_truediv. destruct d as [|p|p].
  - exists (S754_zero false), (S754_zero false).
    repeat split; try reflexivity; exists false; reflexivity.
  - change (Z.pos p =? 0) with false. cbv iota.
    change (Z.abs (Z.pos p)) with (Z.pos p).
    change (- Z.pos p) with (Z.neg p). change (Z.pos p =? 0) with false.
    cbn [raw_float]. rewrite !SFdiv_same.
    exists (canon false 1), (canon true 1). repeat split; reflexivity.
  - change (Z.neg p =? 0) with false. cbv iota.
    change (Z.abs (Z.neg p)) with (Z.pos p).
    change (- Z.neg p) with (Z.pos p). change (Z.pos p =? 0) with false.
    cbn [raw_float]. rewrite !SFdiv_same.
    exists (canon true 1), (canon false 1). repeat split; reflexivity.
Qed.

(** ** Numbers that hold integers *)

Lemma to_float_is (v : num) (n : Z) :
  num_is v n -> Z.abs n < 2 ^ 53 ->
  exists f, to_float v = Ok f /\ represents f n.
Proof.
  destruct v as [z|f]; simpl.
  - intros -> Hn. apply float_of_int_exact, Hn.
  - intros Hf _. eauto.
Qed.

Lemma num_mul_is (a b : num) (x y : Z) :
  num_is a x -> num_is b y ->
  Z.abs x < 2 ^ 53 -> Z.abs y < 2 ^ 53 -> Z.abs (x * y) < 2 ^ 53 ->
  exists v, num_mul a b = Ok v /\ num_is v (x * y).
Proof.
  intros Ha Hb Hx Hy Hxy.
  destruct (to_float_is a x Ha Hx) as (fa & Hfa & Hra).
  destruct (to_float_is b y Hb Hy) as (fb & Hfb & Hrb).
  assert (Hfloat : (fa' ← to_float a; fb' ← to_float b;
                    Ok (NFloat (fmul fa' fb'))) = Ok (NFloat (fmul fa fb))).
  { rewrite Hfa, Hfb. reflexivity. }
  assert (Hprod : represents (fmul fa fb) (x * y))
    by (apply represents_fmul; assumption).
  destruct a as [za|fa'], b as [zb|fb']; cbn [num_mul].
  - cbn [num_is] in Ha, Hb. subst. eexists. split; reflexivity.
  - rewrite Hfloat. eexists. split; [reflexivity|exact Hprod].
  - rewrite Hfloat. eexists. split; [reflexivity|exact Hprod].
  - rewrite Hfloat. eexists. split; [reflexivity|exact Hprod].
Qed.

Lemma num_add_is (a b : num) (x y : Z) :
  num_is a x -> num_is b y ->
  Z.abs x < 2 ^ 53 -> Z.abs y < 2 ^ 53 -> Z.abs (x + y) < 2 ^ 53 ->
  exists v, num_add a b = Ok v /\ num_is v (x + y).
Proof.
  intros Ha Hb Hx Hy Hxy.
  destruct (to_float_is a x Ha Hx) as (fa & Hfa & Hra).
  destruct (to_float_is b y Hb Hy) as (fb & Hfb & Hrb).
  assert (Hfloat : (fa' ← to_float a; fb' ← to_float b;
                    Ok (NFloat (fadd fa' fb'))) = Ok (NFloat (fadd fa fb))).
  { rewrite Hfa, Hfb. reflexivity. }
  assert (Hsum : represents (fadd fa fb) (x + y))
    by (apply represents_fadd; assumption).
  destruct a as [za|fa'], b as [zb|fb']; cbn [num_add].
  - cbn [num_is] in Ha, Hb. subst. eexists. split; reflexivity.
  - rewrite Hfloat. eexists. split; [reflexivity|exact Hsum].
  - rewrite Hfloat. eexists. split; [reflexivity|exact Hsum].
  - rewrite Hfloat. eexists. split; [reflexivity|exact Hsum].
Qed.

Lemma num_compare_int_is (v : num) (n z : Z) :
  num_is v n -> Z.abs n < 2 ^ 53 -> num_compare_int v z = Some (n ?= z).
Proof.
  destruct v as [x|f]; simpl.
  - intros -> _. reflexivity.
  - apply float_compare_int_represents.
Qed.

Lemma order_of_compare (v : num) (n z : Z) :
  num_compare_int v z = Some (n ?= z) ->
  int_le_num z v = (z <=? n) /\ num_lt_int v z = (n <? z).
Proof.
  intros Hc. unfold int_le_num, num_lt_int. rewrite Hc.
  destruct (Z.compare_spec n z); split; symmetry;
    first [apply Z.leb_le; lia | apply Z.leb_gt; lia
          | apply Z.ltb_lt; lia | apply Z.ltb_ge; lia].
Qed.

Lemma int_of_num_is (v : num) (n : Z) :
  num_is v n -> Z.abs n < 2 ^ 53 -> int_of_num v = Ok n.
Proof.
  destruct v as [x|f]; simpl.
  - intros -> _. reflexivity.
  - apply int_of_float_represents.
Qed.

Lemma unit_exact_shift (level k : Z) :
  Z.abs level <= 2 ^ 52 -> -1 <= k <= 1 -> exact_shift level k.
Proof.
  intros Hl Hk. unfold exact_shift.
  assert (2 ^ 52 < 2 ^ 53) by (apply Z.pow_lt_mono_r; lia).
  assert (0 < 2 ^ 52) by (apply Z.pow_pos_nonneg; lia).
  repeat split; try lia.
  assert (Hcases : k = -1 \/ k = 0 \/ k = 1) by lia.
  destruct Hcases as [-> | [-> | ->]]; lia.
Qed.

(** ** Grid perturbation *)

Section PerturbPoint.
Context `{Generator}.

Lemma shifted_in_grid (map_size : Z * Z) (point level : Z) (offset : Z * Z) :
  0 <= point < map_size.1 * map_size.2 ->
  0 <= shifted map_size point level offset < map_size.1 * map_size.2.
Proof.
  destruct map_size as [h w], offset as [xo yo]. unfold shifted. simpl.
  intros Hp. destruct (_ && _) eqn:Ht; [|exact Hp].
  repeat (apply andb_prop in Ht as [Ht ?]).
  apply Z.leb_le in Ht. repeat match goal with
    | Hx : (_ <=? _) = true |- _ => apply Z.leb_le in Hx
    | Hx : (_ <? _) = true |- _ => apply Z.ltb_lt in Hx
    end.
  nia.
Qed.

(** The coordinate a shift reaches, on ints *)
Lemma moved_int (v a level : Z) :
  Porto.moved v (NInt a) level = Ok (NInt (v + a * level)).
Proof. reflexivity. Qed.

Lemma within_int (n bound : Z) :
  Porto.within (NInt n) bound = (0 <=? n) && (n <? bound).
Proof.
  unfold Porto.within.
  destruct (order_of_compare (NInt n) n 0 eq_refl) as [-> _].
  destruct (order_of_compare (NInt n) n bound eq_refl) as [_ ->].
  reflexivity.
Qed.

(** The coordinate a shift reaches, on numbers that hold integers *)
Lemma moved_is (v : Z) (o : num) (k level : Z) :
  num_is o k -> Z.abs v < 2 ^ 52 -> exact_shift level k ->
  exists r, Porto.moved v o level = Ok r /\
            num_is r (v + k * level) /\ Z.abs (v + k * level) < 2 ^ 53.
Proof.
  intros Ho Hv (Hl & Hk & Hkl).
  assert (Hpow : 2 ^ 53 = 2 * 2 ^ 52) by reflexivity.
  assert (Hsum : Z.abs (v + k * level) < 2 ^ 53) by lia.
  destruct (num_mul_is o (NInt level) k level Ho eq_refl Hk Hl) as (d & Hd & Hdis);
    [lia|].
  destruct (num_add_is (NInt v) d v (k * level) eq_refl Hdis) as (r & Hr & Hris);
    [lia|lia|exact Hsum|].
  exists r. unfold Porto.moved. rewrite Hd. split; [exact Hr|auto].
Qed.

Lemma within_is (r : num) (n bound : Z) :
  num_is r n -> Z.abs n < 2 ^ 53 ->
  Porto.within r bound = (0 <=? n) && (n <? bound).
Proof.
  intros Hr Hn. unfold Porto.within.
  destruct (order_of_compare r n 0 (num_compare_int_is r n 0 Hr Hn)) as [-> _].
  destruct (order_of_compare r n bound (num_compare_int_is r n bound Hr Hn))
    as [_ ->].
  reflexivity.
Qed.

(** An offset of two ints: the arithmetic is that of the integers. *)
Lemma perturb_point_ints (map_size : Z * Z) (point level : Z)
    (offset : Z * Z) (g : rng) :
  map_size.2 <> 0 ->
  Porto._perturb_point map_size point level
    (Some (NInt offset.1, NInt offset.2)) g
    = Ok (shifted map_size point level offset, g).
Proof.
  destruct map_size as [h w], offset as [xo yo]. cbn [fst snd]. intros Hw.
  unfold Porto._perturb_point, shifted, bind, lift, ret,
    Porto.floordiv, Porto.modulo.
  cbn [fst snd]. rewrite (proj2 (Z.eqb_neq w 0) Hw). cbn beta iota zeta.
  rewrite !moved_int. cbn beta iota zeta. rewrite !within_int.
  destruct ((0 <=? point / w + xo * level) && (point / w + xo * level <? h));
    cbn [andb].
  - destruct ((0 <=? point mod w + yo * level)
              && (point mod w + yo * level <? w)).
    + reflexivity.
    + cbn. f_equal. f_equal. rewrite (Z.div_mod point w Hw) at 3. lia.
  - cbn. f_equal. f_equal. rewrite (Z.div_mod point w Hw) at 3. lia.
Qed.

Lemma coordinates_small (map_size : Z * Z) (point : Z) :
  0 <= point < map_size.1 * map_size.2 -> map_size.1 * map_size.2 <= 2 ^ 52 ->
  map_size.2 <> 0 /\
  Z.abs (point / map_size.2) < 2 ^ 52 /\
  Z.abs (point mod map_size.2) < 2 ^ 52.
Proof.
  destruct map_size as [h w]. cbn [fst snd]. intros Hp Hcells.
  assert (Hw : w <> 0) by nia. split; [exact Hw|].
  pose proof (Z.div_mod point w Hw) as Hdm.
  set (q := point / w) in *. set (r := point mod w) in *.
  destruct (Z_lt_le_dec 0 w) as [Hpos|Hneg].
  - pose proof (Z.mod_pos_bound point w Hpos) as Hm. fold r in Hm.
    assert (Hq : 0 <= q) by (apply Z.div_pos; lia).
    assert (Hq' : q <= w * q) by nia.
    split; lia.
  - assert (Hw' : w < 0) by lia.
    pose proof (Z.mod_neg_bound point w Hw') as Hm. fold r in Hm.
    assert (Hq : q <= 0).
    { destruct (Z_lt_le_dec 0 q); [|lia]. assert (w * q <= w) by nia. lia. }
    assert (Hq' : - point <= q).
    { destruct (Z.eq_dec q 0); [lia|].
      assert (0 <= (- w - 1) * (- q - 1))
        by (apply Z.mul_nonneg_nonneg; lia).
      lia. }
    assert (Hh : - w <= h * w) by (assert (h < 0) by nia; nia).
    split; lia.
Qed.

(** A supplied offset of numbers that hold integers: as long as binary64
    is exact on the grid, the result is that of the integers. *)
Lemma perturb_point_supplied (map_size : Z * Z) (point level : Z)
    (offset : num * num) (used : Z * Z) (g : rng) :
  num_is offset.1 used.1 -> num_is offset.2 used.2 ->
  0 <= point < map_size.1 * map_size.2 -> map_size.1 * map_size.2 <= 2 ^ 52 ->
  exact_shift level used.1 -> exact_shift level used.2 ->
  Porto._perturb_point map_size point level (Some offset) g
    = Ok (shifted map_size point level used, g).
Proof.
  intros Hox Hoy Hp Hcells Hkx Hky.
  destruct (coordinates_small map_size point Hp Hcells) as (Hw & Hx & Hy).
  destruct map_size as [h w], offset as [ox oy], used as [kx ky].
  cbn [fst snd] in *.
  destruct (moved_is (point / w) ox kx level Hox Hx Hkx)
    as (xn & Hxn & Hxis & Hxb).
  destruct (moved_is (point mod w) oy ky level Hoy Hy Hky)
    as (yn & Hyn & Hyis & Hyb).
  assert (Hpow : 2 ^ 53 = 2 * 2 ^ 52) by reflexivity.
  unfold Porto._perturb_point, shifted, bind, lift, ret,
    Porto.floordiv, Porto.modulo.
  cbn [fst snd]. rewrite (proj2 (Z.eqb_neq w 0) Hw). cbn beta iota zeta.
  rewrite Hxn, Hyn. cbn beta iota zeta.
  rewrite (within_is xn _ h Hxis Hxb), (within_is yn _ w Hyis Hyb).
  destruct ((0 <=? point / w + kx * level) && (point / w + kx * level <? h))
    eqn:Hin1; cbn [andb].
  - destruct ((0 <=? point mod w + ky * level)
              && (point mod w + ky * level <? w)) eqn:Hin2.
    + apply andb_prop in Hin1 as [Hx0 Hx1]. apply andb_prop in Hin2 as [Hy0 Hy1].
      apply Z.leb_le in Hx0, Hy0. apply Z.ltb_lt in Hx1, Hy1.
      cbn [fst snd].
      destruct (num_mul_is xn (NInt w) _ w Hxis eq_refl) as (sc & Hsc & Hscis);
        [lia|nia|nia|].
      destruct (num_add_is sc yn _ _ Hscis Hyis) as (tot & Htot & Htotis);
        [nia|lia|nia|].
      rewrite Hsc. cbn beta iota. rewrite Htot. cbn beta iota.
      rewrite (int_of_num_is tot _ Htotis) by nia.
      reflexivity.
    + cbn. f_equal. f_equal. rewrite (Z.div_mod point w Hw) at 3. lia.
  - cbn. f_equal. f_equal. rewrite (Z.div_mod point w Hw) at 3. lia.
Qed.

Lemma index_compass (i : Z) :
  0 <= i < 8 -> exists offset, index Porto.compass i = Ok offset /\ offset ∈ Porto.compass.
Proof.
  intros Hi.
  assert (Hcases : i = 0 \/ i = 1 \/ i = 2 \/ i = 3 \/ i = 4 \/ i = 5 \/ i = 6 \/ i = 7)
    by lia.
  repeat (destruct Hcases as [->|Hcases]); try subst i;
    (eexists; split; [reflexivity|]);
    repeat (first [left | right]).
Qed.

(** A drawn offset is a pair of ints. *)
Lemma perturb_point_drawn (map_size : Z * Z) (point level i : Z)
    (offset : Z * Z) (g g1 : rng) :
  randint 0 (len Porto.compass) g = Ok (i, g1) ->
  index Porto.compass i = Ok offset ->
  Porto._perturb_point map_size point level None g
  = Porto._perturb_point map_size point level
      (Some (NInt offset.1, NInt offset.2)) g1.
Proof.
  intros Hi Hidx.
  unfold Porto._perturb_point, bind, lift, ret.
  destruct (Porto.floordiv point map_size.2) as [x|e]; [|reflexivity].
  destruct (Porto.modulo point map_size.2) as [y|e]; [|reflexivity].
  rewrite Hi, Hidx. reflexivity.
Qed.

Lemma perturb_point_random (map_size : Z * Z) (point level : Z) (g : rng) :
  map_size.2 <> 0 ->
  exists offset g',
    offset ∈ Porto.compass /\
    Porto._perturb_point map_size point level None g
      = Ok (shifted map_size point level offset, g').
Proof.
  intros Hw.
  destruct (randint 0 (len Porto.compass) g) as [[i g1]|e] eqn:Hi.
  2:{ exfalso. unfold randint in Hi. simpl in Hi. discriminate. }
  pose proof (randint_Ok_inv _ _ _ _ _ Hi) as Hrange.
  destruct (index_compass i Hrange) as (offset & Hidx & Hin).
  exists offset, g1. split; [exact Hin|].
  rewrite (perturb_point_drawn map_size point level i offset g g1 Hi Hidx).
  apply perturb_point_ints, Hw.
Qed.


End PerturbPoint.

(** ** Indexing and slicing *)

Lemma index_Ok_nonneg {A} (l : list A) (i : Z) (x : A) :
  0 <= i -> index l i = Ok x -> i < len l /\ l !! Z.to_nat i = Some x.
Proof.
  intros Hi. unfold index.
  destruct (i <? 0) eqn:Hneg; [apply Z.ltb_lt in Hneg; lia|].
  rewrite Hneg. destruct (l !! Z.to_nat i) as [y|] eqn:Hl; [|discriminate].
  intros [= ->]. split; [|reflexivity].
  apply lookup_lt_Some in Hl. unfold len. lia.
Qed.

Lemma index_raises_ge {A} (l : list A) (i : Z) :
  len l <= i -> raises (index l i).
Proof.
  intros Hi. unfold index, len in *.
  destruct (i <? 0) eqn:Hneg; [apply Z.ltb_lt in Hneg; lia|]. rewrite Hneg.
  rewrite lookup_ge_None_2 by lia. eexists. reflexivity.
Qed.

Lemma index_first {A} (l : list A) (x : A) : index l 0 = Ok x -> head l = Some x.
Proof.
  intros Hx. apply index_Ok_nonneg in Hx as [_ Hx]; [|lia].
  destruct l; simpl in *; congruence.
Qed.

Lemma index_last {A} (l : list A) (x : A) : index l (-1) = Ok x -> last l = Some x.
Proof.
  unfold index, len. simpl.
  destruct (-1 + Z.of_nat (length l) <? 0) eqn:Hneg; [discriminate|].
  apply Z.ltb_ge in Hneg.
  destruct (l !! Z.to_nat (-1 + Z.of_nat (length l))) as [y|] eqn:Hl; [|discriminate].
  intros [= ->]. rewrite last_lookup. rewrite <- Hl. f_equal. lia.
Qed.

Lemma slice_prefix {A} (l : list A) (st : Z) :
  0 <= st <= len l -> slice l None (Some st) = take (Z.to_nat st) l.
Proof.
  intros Hst. unfold slice, clamp. simpl.
  destruct (st <? 0) eqn:Hneg; [apply Z.ltb_lt in Hneg; lia|].
  rewrite Z.min_l by lia. rewrite Z.min_l by (unfold len; lia).
  rewrite Z.sub_0_r. reflexivity.
Qed.

Lemma slice_suffix {A} (l : list A) (ed : Z) :
  0 <= ed <= len l -> slice l (Some ed) None = drop (Z.to_nat ed) l.
Proof.
  intros Hed. unfold slice, clamp. simpl.
  destruct (ed <? 0) eqn:Hneg; [apply Z.ltb_lt in Hneg; lia|].
  destruct (len l <? 0) eqn:Hn; [apply Z.ltb_lt in Hn; unfold len in Hn; lia|].
  rewrite Z.min_l by lia. rewrite Z.min_l by lia.
  apply take_ge. rewrite length_drop. unfold len. lia.
Qed.

Lemma slice_middle_length {A} (l : list A) (st ed : Z) :
  0 <= st -> st <= ed -> ed <= len l ->
  length (slice l (Some st) (Some ed)) = Z.to_nat (ed - st).
Proof.
  intros Hst Hed Hn. unfold slice, clamp. simpl.
  destruct (st <? 0) eqn:Hneg; [apply Z.ltb_lt in Hneg; lia|].
  destruct (ed <? 0) eqn:Hneg'; [apply Z.ltb_lt in Hneg'; lia|].
  rewrite !Z.min_l by lia.
  rewrite length_take, length_drop. unfold len in Hn. lia.
Qed.

(** [l[st:ed]] is empty when [ed] is not after [st]. *)
Lemma slice_backwards {A} (l : list A) (st ed : Z) :
  0 <= ed <= st -> slice l (Some st) (Some ed) = [].
Proof.
  intros Hed. unfold slice, clamp. simpl.
  destruct (st <? 0) eqn:Hneg; [apply Z.ltb_lt in Hneg; lia|].
  destruct (ed <? 0) eqn:Hneg'; [apply Z.ltb_lt in Hneg'; lia|].
  replace (Z.to_nat (Z.min ed (len l) - Z.min st (len l))) with 0%nat by lia.
  reflexivity.
Qed.

(** [traj[1:-1]] *)
Lemma slice_interior_length {A} (l : list A) :
  length (slice l (Some 1) (Some (-1))) = (length l - 2)%nat.
Proof.
  unfold slice, clamp, len. simpl.
  rewrite length_take, length_drop. lia.
Qed.

(** ** Route-switch outliers *)

Section RouteSwitch.
Context `{Generator}.

Lemma route_switch_one_shape map_size level prob traj g out g' :
  Porto.route_switch_one map_size level prob traj g = Ok (out, g') ->
  exists first middle last,
    index traj 0 = Ok first /\ index traj (-1) = Ok last /\
    out = [first] ++ middle ++ [last] /\
    length middle = (length traj - 2)%nat.
Proof.
  unfold Porto.route_switch_one. intros Hrun.
  apply bind_Ok_inv in Hrun as (first & g1 & Hfirst & Hrun).
  apply lift_Ok_inv in Hfirst as [Hfirst ->].
  apply bind_Ok_inv in Hrun as (middle & g2 & Hmiddle & Hrun).
  apply bind_Ok_inv in Hrun as (last & g3 & Hlast & Hrun).
  apply lift_Ok_inv in Hlast as [Hlast ->].
  apply ret_Ok_inv in Hrun as [-> _].
  exists first, middle, last. repeat split; try assumption.
  rewrite (for_each_length _ _ _ _ _ Hmiddle). apply slice_interior_length.
Qed.

(** A route-switch outlier keeps the length of a source of at least two
    points. *)
Lemma route_switch_one_length map_size level prob traj g out g' :
  (2 <= length traj)%nat ->
  Porto.route_switch_one map_size level prob traj g = Ok (out, g') ->
  length out = length traj.
Proof.
  intros Hn Hrun.
  apply route_switch_one_shape in Hrun as (first & middle & last & _ & _ & -> & Hm).
  rewrite !length_app. simpl. lia.
Qed.

Lemma route_switch_one_ends map_size level prob traj g out g' :
  Porto.route_switch_one map_size level prob traj g = Ok (out, g') ->
  head out = head traj /\ last out = last traj.
Proof.
  intros Hrun.
  apply route_switch_one_shape in Hrun
    as (first & middle & lst & Hfirst & Hlast & -> & _).
  rewrite (index_first _ _ Hfirst), (index_last _ _ Hlast). split.
  - reflexivity.
  - rewrite app_assoc. apply last_snoc.
Qed.

(** C5: the route-switch generator turns the one-point trajectory [[p]]
    into the two-point trajectory [[p, p]], whatever the level, the
    probability and the state of the generator; in general the outlier of
    a source of [n] points has [max n 2] points. *)
Theorem route_switch_single_point_doubles (map_size : Z * Z) (level : Z)
    (prob : float) :
  (forall (p : Z) (g : rng),
      Porto.get_route_switch_outliers map_size [[p]] level prob g
        = Ok ([[p; p]], g))
  /\
  (forall batch_x g outliers g',
      Porto.get_route_switch_outliers map_size batch_x level prob g
        = Ok (outliers, g') ->
      Forall2 (fun traj out => length out = Nat.max (length traj) 2)
        batch_x outliers).
Proof.
  split; [reflexivity|].
  intros batch_x g outliers g' Hrun.
  unfold Porto.get_route_switch_outliers in Hrun.
  apply for_each_Ok_Forall2 in Hrun.
  eapply Forall2_impl; [exact Hrun|].
  intros traj out (g0 & g1 & Hone).
  apply route_switch_one_shape in Hone as (first & middle & lst & _ & _ & -> & Hm).
  rewrite !length_app. simpl. lia.
Qed.

End RouteSwitch.

(** ** Floats: the sign of [int(n * prob)] *)

Lemma binary_round_aux_nonneg (m e : Z) (l : location) :
  nonneg_float (binary_round_aux prec emax false m e l).
Proof.
  unfold binary_round_aux.
  destruct (shr_fexp prec emax m e l) as [mrs' e'].
  destruct (shr_fexp prec emax _ e' loc_Exact) as [mrs'' e''].
  destruct (shr_m mrs''); simpl; auto.
  destruct (_ <=? _)%Z; reflexivity.
Qed.

Lemma float_of_int_nonneg (n : Z) (x : float) :
  0 <= n -> float_of_int n = Ok x -> nonneg_float x.
Proof.
  unfold float_of_int, binary_normalize. destruct n as [|p|p]; [| |lia].
  - intros _ [= <-]. exact I.
  - intros _. unfold binary_round.
    destruct (shl_align _ _ _) as [mz ez].
    pose proof (binary_round_aux_nonneg (Z.pos mz) ez loc_Exact) as Hs.
    destruct (binary_round_aux prec emax false (Z.pos mz) ez loc_Exact);
      intros [= <-]; exact Hs.
Qed.

Lemma fle_zero_nonneg (prob : float) :
  fle (S754_zero false) prob = true -> nonneg_float prob.
Proof.
  destruct prob as [s|s| |s m e]; simpl; try auto; destruct s; simpl;
    try reflexivity; discriminate.
Qed.

Lemma fmul_nonneg (x y : float) :
  nonneg_float x -> nonneg_float y -> nonneg_float (fmul x y).
Proof.
  destruct x as [sx|sx| |sx mx ex], y as [sy|sy| |sy my ey]; simpl;
    intros Hx Hy; subst; try exact I; try reflexivity.
  apply binary_round_aux_nonneg.
Qed.

Lemma int_of_float_nonneg (f : float) (a : Z) :
  nonneg_float f -> int_of_float f = Ok a -> 0 <= a.
Proof.
  destruct f as [s|s| |s m e]; simpl; try discriminate.
  - intros _ [= <-]. lia.
  - intros -> [= <-]. simpl. apply Z.shiftl_nonneg. lia.
Qed.

(** With [0 <= prob] and [0 <= n], [int(n * prob)] is not negative. *)
Lemma int_mul_float_nonneg (n : Z) (prob : float) (a : Z) :
  0 <= n -> fle (S754_zero false) prob = true ->
  int_mul_float n prob = Ok a -> 0 <= a.
Proof.
  intros Hn Hprob. unfold int_mul_float.
  destruct (float_of_int n) as [x|e] eqn:Hx; [|discriminate].
  rewrite bind_Ok. apply int_of_float_nonneg.
  apply fmul_nonneg; [exact (float_of_int_nonneg n x Hn Hx)|].
  apply fle_zero_nonneg. exact Hprob.
Qed.

(** [int(0 * prob)] is [0] whenever it is defined. *)
Lemma int_mul_float_zero (prob : float) (a : Z) :
  int_mul_float 0 prob = Ok a -> a = 0.
Proof.
  unfold int_mul_float. change (float_of_int 0) with (Ok (S754_zero false)).
  rewrite bind_Ok. destruct prob as [s|s| |s m e]; simpl; try discriminate;
    intros [= <-]; reflexivity.
Qed.

(** ** Detour outliers *)

Section Detour.
Context `{Generator}.

Lemma detour_span_Ok_inv prob traj g st ed g1 :
  Porto.detour_span prob traj g = Ok ((st, ed), g1) ->
  exists anomaly_len,
    int_mul_float (len traj - 2) prob = Ok anomaly_len /\
    1 <= st < len traj - anomaly_len - 1 /\
    ed = st + anomaly_len.
Proof.
  unfold Porto.detour_span. intros Hrun.
  apply bind_Ok_inv in Hrun as (anomaly_len & g2 & Hlen & Hrun).
  apply lift_Ok_inv in Hlen as [Hlen ->].
  apply bind_Ok_inv in Hrun as (st' & g3 & Hst & Hrun).
  apply ret_Ok_inv in Hrun as [[= -> ->] _].
  apply randint_Ok_inv in Hst. eauto.
Qed.

Lemma detour_one_shape map_size level prob traj g out g' :
  Porto.detour_one map_size level prob traj g = Ok (out, g') ->
  exists st ed g1 middle,
    Porto.detour_span prob traj g = Ok ((st, ed), g1) /\
    is_ok (index traj st) /\
    out = slice traj None (Some st) ++ middle ++ slice traj (Some ed) None /\
    length middle = length (slice traj (Some st) (Some ed)).
Proof.
  unfold Porto.detour_one. intros Hrun.
  apply bind_Ok_inv in Hrun as ([st ed] & g1 & Hspan & Hrun).
  apply bind_Ok_inv in Hrun as (offset & g2 & Hoffset & Hrun).
  apply bind_Ok_inv in Hrun as (middle & g3 & Hmiddle & Hrun).
  apply ret_Ok_inv in Hrun as [-> _].
  exists st, ed, g1, middle. split; [exact Hspan|]. split.
  - unfold Porto.detour_offset in Hoffset.
    apply bind_Ok_inv in Hoffset as (ps & g4 & Hps & _).
    apply lift_Ok_inv in Hps as [Hps _]. exists ps. exact Hps.
  - split; [reflexivity|]. exact (for_each_length _ _ _ _ _ Hmiddle).
Qed.

(** With a probability that is not negative, a detour changes nothing
    outside the span it chose. *)
Lemma detour_one_frame map_size level prob traj g out g' :
  fle (S754_zero false) prob = true ->
  Porto.detour_one map_size level prob traj g = Ok (out, g') ->
  exists st ed g1,
    Porto.detour_span prob traj g = Ok ((st, ed), g1) /\
    detour_frame traj out st ed.
Proof.
  intros Hprob Hrun.
  apply detour_one_shape in Hrun as (st & ed & g1 & middle & Hspan & [ps Hps] & -> & Hmid).
  exists st, ed, g1. split; [exact Hspan|].
  apply detour_span_Ok_inv in Hspan as (anomaly_len & Hlen & Hst & ->).
  apply index_Ok_nonneg in Hps as [Hn _]; [|lia].
  assert (Hpos : 0 <= anomaly_len).
  { apply (int_mul_float_nonneg (len traj - 2) prob); [lia|exact Hprob|exact Hlen]. }
  rewrite slice_middle_length in Hmid by lia.
  rewrite slice_prefix by lia. rewrite slice_suffix by lia.
  unfold len in *.
  assert (Hlen_take : length (take (Z.to_nat st) traj) = Z.to_nat st)
    by (rewrite length_take; lia).
  repeat split; try (unfold len; lia).
  - rewrite !length_app, Hlen_take, Hmid, length_drop. lia.
  - intros i [Hi|Hi].
    + rewrite lookup_app_l by lia. apply lookup_take_lt. lia.
    + rewrite lookup_app_r by lia. rewrite lookup_app_r by lia.
      rewrite lookup_drop. f_equal. lia.
Qed.

Lemma detour_frame_length traj out st ed :
  detour_frame traj out st ed -> length out = length traj.
Proof. intros (_ & _ & Hlen & _). exact Hlen. Qed.

(** A trajectory of fewer than three points makes the loop body raise. *)
Lemma detour_one_short_raises map_size level prob traj g :
  (length traj < 3)%nat ->
  raises (Porto.detour_one map_size level prob traj g).
Proof.
  intros Hshort. unfold Porto.detour_one.
  apply bind_raises_r. intros [st ed] g1 Hspan.
  apply detour_span_Ok_inv in Hspan as (anomaly_len & Hlen & Hst & ->).
  destruct (decide (length traj = 2%nat)) as [Htwo|Hless].
  - exfalso. unfold len in Hlen, Hst. rewrite Htwo in Hlen, Hst.
    apply int_mul_float_zero in Hlen. lia.
  - apply bind_raises_l. unfold Porto.detour_offset.
    apply bind_raises_l. unfold lift.
    destruct (index_raises_ge traj st) as [e He]; [unfold len; lia|].
    rewrite He. exists e. reflexivity.
Qed.

(** C9: when the batch holds a trajectory of fewer than three points,
    [get_detour_outliers] raises, whatever the level, the probability, the
    [vary] flag and the state of the generator: it returns no outliers. *)
Theorem detour_short_trajectory_raises (map_size : Z * Z)
    (batch_x : list (list Z)) (level : Z) (prob : float) (vary : bool)
    (traj : list Z) (g : rng) :
  traj ∈ batch_x -> (length traj < 3)%nat ->
  raises (Porto.get_detour_outliers map_size batch_x level prob vary g).
Proof.
  intros Hin Hshort. unfold Porto.get_detour_outliers.
  apply bind_raises_r. intros params g1 _.
  apply (for_each_raises _ _ traj Hin). intros g2.
  apply detour_one_short_raises. exact Hshort.
Qed.

(** X24: every route-switch outlier starts and ends with the first and
    the last point of its source; and every detour outlier generated with
    a probability that is not negative holds, at every position outside
    the span [[start, end)] it chose, the point of its source. *)
Theorem outliers_keep_unselected_points (map_size : Z * Z) (level : Z)
    (prob : float) :
  (forall batch_x g outliers g',
      Porto.get_route_switch_outliers map_size batch_x level prob g
        = Ok (outliers, g') ->
      Forall2 (fun traj out => head out = head traj /\ last out = last traj)
        batch_x outliers)
  /\
  (forall traj g out g',
      fle (S754_zero false) prob = true ->
      Porto.detour_one map_size level prob traj g = Ok (out, g') ->
      exists st ed g1,
        Porto.detour_span prob traj g = Ok ((st, ed), g1) /\
        detour_frame traj out st ed)
  /\
  (forall batch_x vary g outliers g',
      (forall params g1,
          Porto.detour_params level prob vary g = Ok (params, g1) ->
          fle (S754_zero false) params.2 = true) ->
      Porto.get_detour_outliers map_size batch_x level prob vary g
        = Ok (outliers, g') ->
      Forall2 (fun traj out => exists st ed, detour_frame traj out st ed)
        batch_x outliers).
Proof.
  split; [|split].
  - intros batch_x g outliers g' Hrun. unfold Porto.get_route_switch_outliers in Hrun.
    apply for_each_Ok_Forall2 in Hrun.
    eapply Forall2_impl; [exact Hrun|].
    intros traj out (g0 & g1 & Hone). exact (route_switch_one_ends _ _ _ _ _ _ _ Hone).
  - intros traj g out g'. apply detour_one_frame.
  - intros batch_x vary g outliers g' Hprob Hrun.
    unfold Porto.get_detour_outliers in Hrun.
    apply bind_Ok_inv in Hrun as (params & g1 & Hparams & Hrun).
    specialize (Hprob params g1 Hparams).
    apply for_each_Ok_Forall2 in Hrun.
    eapply Forall2_impl; [exact Hrun|].
    intros traj out (g2 & g3 & Hone).
    destruct (detour_one_frame _ _ _ _ _ _ _ Hprob Hone) as (st & ed & _ & _ & Hframe).
    exists st, ed. exact Hframe.
Qed.

(** C6: with [vary] enabled, [get_detour_outliers] lowers the probability
    by up to 0.2 and runs its loop with the result as it is.  Whenever
    the span ends before it starts ([0 <= ed < st], the case of a negative
    probability), the detour is [traj[:st] + traj[ed:]]: it is [st - ed]
    points longer than its source, and from position [st] on it holds the
    points the source holds [st - ed] positions earlier.  So it is with the
    probability 0.1 on a trajectory of 60 points: the prelude leaves a
    negative probability, the span is [(53, 51)], and the outlier has 62
    points, where position 53 holds the point 51 of the source. *)
Theorem detour_vary_repeats_points :
  (forall map_size level prob traj g st ed g1 out g',
      Porto.detour_span prob traj g = Ok ((st, ed), g1) -> 0 <= ed < st ->
      Porto.detour_one map_size level prob traj g = Ok (out, g') ->
      out = take (Z.to_nat st) traj ++ drop (Z.to_nat ed) traj /\
      length out = (length traj + Z.to_nat (st - ed))%nat /\
      forall i : nat, (Z.to_nat st <= i)%nat ->
        out !! i = traj !! (i - Z.to_nat (st - ed))%nat)
  /\
  (exists prob' g1 g2 out g',
      @Porto.detour_params lcg 3 (float_lit 1 10) true 4
        = Ok ((5, prob'), g1) /\
      flt prob' (S754_zero false) = true /\
      @Porto.detour_span lcg prob' long_traj g1 = Ok ((53, 51), g2) /\
      @Porto.get_detour_outliers lcg porto_grid [long_traj] 3 (float_lit 1 10)
        true 4 = Ok ([out], g') /\
      out = seqZ 1000 53 ++ seqZ 1051 9 /\
      length long_traj = 60%nat /\ length out = 62%nat /\
      long_traj !! 53%nat = Some 1053 /\ out !! 53%nat = Some 1051).
Proof.
  split.
  - intros map_size level prob traj g st ed g1 out g' Hspan Hed Hrun.
    apply detour_one_shape in Hrun
      as (st' & ed' & g1' & middle & Hspan' & [ps Hps] & -> & Hmid).
    rewrite Hspan in Hspan'. injection Hspan' as <- <- <-.
    apply index_Ok_nonneg in Hps as [Hn _]; [|lia].
    rewrite slice_backwards in Hmid by lia.
    destruct middle; [|discriminate]. cbn [app].
    rewrite slice_prefix by lia. rewrite slice_suffix by lia.
    unfold len in Hn.
    assert (Hlen_take : length (take (Z.to_nat st) traj) = Z.to_nat st)
      by (rewrite length_take; lia).
    split; [reflexivity|]. split.
    + rewrite length_app, Hlen_take, length_drop. lia.
    + intros i Hi. rewrite lookup_app_r by lia. rewrite Hlen_take.
      rewrite lookup_drop. f_equal. lia.
  - eexists _, _, _, _, _. split; [vm_compute; reflexivity|].
    split; [reflexivity|]. split; [vm_compute; reflexivity|].
    split; [vm_compute; reflexivity|]. repeat split.
Qed.

(** C4: [generate_outliers] seeds the generator itself, with 0 for the
    route-switch outliers and 10 for the detours, so two runs on the same
    trajectories and configuration agree whatever state the generator was
    in: the outliers of each kind, and the text written for them, are what
    the generator of that kind (with [vary] disabled for the detours)
    returns from the seeded state. *)
Theorem generate_outliers_deterministic (config : Porto.PortoConfig)
    (data : list (list Z)) :
  (forall g1 g2 : rng,
      Porto.generate_outliers config data g1
        = Porto.generate_outliers config data g2)
  /\
  (forall (g : rng) outliers files g',
      Porto.generate_outliers config data g = Ok ((outliers, files), g') ->
      exists route_switch detour g0,
        (sources <~ drawn_sources config data;;
         Porto.get_route_switch_outliers (Porto.grip_size config) sources
           (Porto.outlier_level config) (Porto.outlier_prob config))
          (seeded 0) = Ok (route_switch, g0) /\
        (sources <~ drawn_sources config data;;
         Porto.get_detour_outliers (Porto.grip_size config) sources
           (Porto.outlier_level config) (Porto.outlier_prob config) false)
          (seeded 10) = Ok (detour, g') /\
        outliers = [("route_switch"%string, route_switch);
                    ("detour"%string, detour)] /\
        files = [("route_switch"%string, Porto.file_of route_switch);
                 ("detour"%string, Porto.file_of detour)]).
Proof.
  split; [reflexivity|].
  intros g outliers files g'. unfold Porto.generate_outliers, drawn_sources.
  intros Hrun.
  apply bind_Ok_inv in Hrun as ([] & g1 & Hseed & Hrun).
  injection Hseed as <-.
  apply bind_Ok_inv in Hrun as (size & g2 & Hsize & Hrun).
  apply bind_Ok_inv in Hrun as (idx & g3 & Hidx & Hrun).
  apply bind_Ok_inv in Hrun as (sources & g4 & Hsources & Hrun).
  apply bind_Ok_inv in Hrun as (route_switch & g5 & Hrs & Hrun).
  apply bind_Ok_inv in Hrun as ([] & g6 & Hseed & Hrun).
  injection Hseed as <-.
  apply bind_Ok_inv in Hrun as (size' & g7 & Hsize' & Hrun).
  apply bind_Ok_inv in Hrun as (idx' & g8 & Hidx' & Hrun).
  apply bind_Ok_inv in Hrun as (sources' & g9 & Hsources' & Hrun).
  apply bind_Ok_inv in Hrun as (detour & g10 & Hdt & Hrun).
  apply ret_Ok_inv in Hrun as [[= -> ->] ->].
  exists route_switch, detour, g5. repeat split.
  - unfold bind in *. rewrite Hsize, Hidx, Hsources. exact Hrs.
  - unfold bind in *. rewrite Hsize', Hidx', Hsources'. exact Hdt.
Qed.

End Detour.

(** * Instances and scenarios *)

(** ** The vocabulary codec *)

Lemma sample_vocab_injective : injective sample_vocab.
Proof.
  intros k1 k2 v. simpl. repeat case_decide; congruence.
Qed.

Lemma decode_encode_roundtrip_witness :
  exists toks,
    encode sample_vocab [PStr "A"; PStr "B"; PStr "EOT"] = Ok toks /\
    decode sample_vocab toks = Ok [PStr "A"; PStr "B"; PStr "EOT"].
Proof.
  apply (decode_encode_roundtrip
           [("A", 0); ("B", 1); ("PAD", 2); ("EOT", 3)]%string
           [PStr "A"; PStr "B"; PStr "EOT"]).
  - exact sample_vocab_injective.
  - repeat constructor; eexists; reflexivity.
Defined.

Example encode_scenario :
  encode sample_vocab [PStr "A"; PStr "B"; PStr "EOT"] = Ok [0; 1; 3].
Proof. reflexivity. Qed.

Example decode_scenario :
  decode sample_vocab [0; 1; 3] = Ok [PStr "A"; PStr "B"; PStr "EOT"].
Proof. reflexivity. Qed.

Example encode_unknown_symbol : encode sample_vocab [PStr "C"] = Raise KeyError.
Proof. reflexivity. Qed.

Example decode_unknown_id : decode sample_vocab [9] = Raise KeyError.
Proof. reflexivity. Qed.

(** Without injectivity the round trip is lost: both symbols have the id
    0, and the reverse map keeps the later one. *)
Example clashing_vocab_roundtrip :
  encode clashing_vocab [PStr "A"] = Ok [0] /\
  decode clashing_vocab [0] = Ok [PStr "B"].
Proof. split; reflexivity. Qed.

Lemma digit_vocab_injective : injective digit_vocab.
Proof.
  intros k1 k2 v. simpl. repeat case_decide; congruence.
Qed.

Lemma encode_coerces_to_str_witness :
  decode digit_vocab [0; 1] = Ok [PStr "5"; PStr "7"].
Proof.
  apply (proj1 (proj2 (encode_coerces_to_str
                         [("5", 0); ("7", 1); ("PAD", 2)]%string [5; 7]))).
  - exact digit_vocab_injective.
  - reflexivity.
Defined.

Example encode_ints_scenario :
  encode digit_vocab [PInt 5; PInt 7] = Ok [0; 1] /\
  encode digit_vocab [PStr "5"; PStr "7"] = Ok [0; 1].
Proof. split; reflexivity. Qed.

(** ** Collation *)

Lemma collate_pads_and_masks_witness :
  exists b,
    POL.collate sample_vocab
      [(("user_1", 1, "non outlier"), [0; 1; 3]);
       (("user_2", 1, "non outlier"), [0; 1; 0; 1; 3])]%string = Ok b /\
    collated 2 [[0; 1; 3]; [0; 1; 0; 1; 3]]
      [("user_1", 1, "non outlier"); ("user_2", 1, "non outlier")]%string b.
Proof.
  apply (proj1 (collate_pads_and_masks sample_vocab 2 eq_refl) eq_refl
           [(("user_1", 1, "non outlier"), [0; 1; 3]);
            (("user_2", 1, "non outlier"), [0; 1; 0; 1; 3])]%string).
  - discriminate.
  - repeat constructor.
Defined.

Example pol_collate_scenario :
  POL.collate sample_vocab
    [(("user_1", 1, "non outlier"), [0; 1; 3]);
     (("user_2", 1, "non outlier"), [0; 1; 0; 1; 3])]%string
  = Ok {| data := [[0; 1; 3; 2; 2]; [0; 1; 0; 1; 3]];
          mask := [[1; 1; 1; 0; 0]; [1; 1; 1; 1; 1]];
          metadata := [("user_1", 1, "non outlier");
                       ("user_2", 1, "non outlier")]%string |}.
Proof. reflexivity. Qed.

Example porto_collate_scenario :
  Porto.collate digit_vocab
    [([PInt 5], "non outlier"); ([PInt 7; PInt 5; PInt 7], "detour outlier")]%string
  = Ok {| data := [[0; 2; 2]; [1; 0; 1]];
          mask := [[1; 0; 0]; [1; 1; 1]];
          metadata := ["non outlier"; "detour outlier"]%string |}.
Proof. reflexivity. Qed.

(** A symbol outside the vocabulary, or an empty list, makes [collate]
    raise. *)
Example porto_collate_unknown_symbol :
  Porto.collate digit_vocab [([PInt 6], "non outlier"%string)] = Raise KeyError.
Proof. reflexivity. Qed.

Example pol_collate_empty : POL.collate sample_vocab [] = Raise ValueError.
Proof. reflexivity. Qed.

(** A token beyond [int64] does not fit the tensor. *)
Example pol_collate_overflow :
  POL.collate sample_vocab [(("user_1", 1, "non outlier"), [0; 2 ^ 63])]%string
  = Raise RuntimeError.
Proof. reflexivity. Qed.

(** ** The check-in dataset *)

Lemma zero_visit_feature_vector_witness :
  POL.get_feature_vector default_pol_config zero_visit_row
    = Ok [PStr "user_7"; PStr "day_4"; PStr "EOT"]
  /\ encode checkin_vocab [PStr "user_7"; PStr "day_4"; PStr "EOT"]
     = Ok [2; 3; 1].
Proof.
  destruct (zero_visit_feature_vector default_pol_config zero_visit_row
              (PStr "day_4") [] eq_refl eq_refl eq_refl eq_refl eq_refl)
    as [Hvec Henc].
  split; [exact Hvec|].
  exact (Henc checkin_vocab 2 3 1 eq_refl eq_refl eq_refl).
Defined.

(** Without a day of week the record has no feature vector. *)
Example zero_visit_without_day :
  POL.get_feature_vector default_pol_config
    {| POL.user_id := "user_7"; POL.date := 1; POL.dayofweek := "[]";
       POL.place := "[]"; POL.token := "[]"; POL.duration_bucket := "[]";
       POL.distance_label := "[]" |}
  = Raise IndexError.
Proof. reflexivity. Qed.

Example feature_vector_scenario :
  POL.get_feature_vector default_pol_config
    {| POL.user_id := "user_35"; POL.date := 1; POL.dayofweek := "['day_4', 'day_4']";
       POL.place := "['Workplace', 'Restaurant']"; POL.token := "[88, 88]";
       POL.duration_bucket := "['0-60', '0-60']";
       POL.distance_label := "['near', 'near']" |}
  = Ok [PStr "user_35"; PStr "day_4";
        PStr "Workplace"; PStr "88"; PStr "0-60"; PStr "near";
        PStr "Restaurant"; PStr "88"; PStr "0-60"; PStr "near"; PStr "EOT"].
Proof. reflexivity. Qed.

(** The outlier user's row is dropped before [block_size] is derived:
    the remaining cell [[88]] has four characters. *)
Example get_data_drops_outliers :
  exists config' data,
    POL.get_data default_pol_config two_user_table
      = Ok (config', data, [(546, 100)]) /\
    map (fun r => POL.user_id (POL.row r)) data = ["user_7"%string] /\
    POL.block_size config' = Some 19.
Proof. eexists _, _. split; [vm_compute; reflexivity|]. split; reflexivity. Qed.

(** ** Outlier synthesis *)


Example perturb_point_scenario :
  @Porto._perturb_point lcg porto_grid 500 3 None 0 = Ok (974, 12345).
Proof. reflexivity. Qed.

(** At the edge of the grid the point stays where it is. *)
Example perturb_point_edge :
  @Porto._perturb_point lcg porto_grid 0 3 (Some (NInt (-1), NInt 0)) 0
  = Ok (0, 0).
Proof. reflexivity. Qed.

(** The floats the detour generator supplies: [1.0] and [0.0]. *)
Example perturb_point_float_offset :
  int_truediv 7 7 = Ok (float_lit 1 1) /\ int_truediv 0 1 = Ok (float_lit 0 1) /\
  @Porto._perturb_point lcg porto_grid 500 3
    (Some (NFloat (float_lit 1 1), NFloat (float_lit 0 1))) 0 = Ok (974, 0).
Proof. repeat split; vm_compute; reflexivity. Qed.

(** Beyond [2^53] cells binary64 rounds the cell id: on a grid of [2^30]
    rows and columns, with a float offset, the last cell comes back as
    [2^60], which is no cell of the grid; with an offset of ints it comes
    back as it is. *)
Example perturb_point_rounds :
  @Porto._perturb_point lcg (2 ^ 30, 2 ^ 30) (2 ^ 60 - 1) 3
    (Some (NFloat (float_lit 0 1), NFloat (float_lit 0 1))) 0
  = Ok (2 ^ 60, 0) /\
  @Porto._perturb_point lcg (2 ^ 30, 2 ^ 30) (2 ^ 60 - 1) 3
    (Some (NInt 0, NInt 0)) 0
  = Ok (2 ^ 60 - 1, 0).
Proof. split; vm_compute; reflexivity. Qed.

Lemma outliers_keep_unselected_points_witness :
  exists st ed g1,
    @Porto.detour_span lcg (float_lit 3 10) sample_traj 0 = Ok ((st, ed), g1) /\
    detour_frame sample_traj [500; 504; 502; 660; 661; 820; 821; 822] st ed.
Proof.
  apply (proj1 (proj2 (@outliers_keep_unselected_points lcg porto_grid 3
                         (float_lit 3 10)))
           sample_traj 0 [500; 504; 502; 660; 661; 820; 821; 822] 1406932606).
  - reflexivity.
  - vm_compute. reflexivity.
Defined.

Example route_switch_scenario :
  @Porto.get_route_switch_outliers lcg porto_grid [sample_traj] 3
    (float_lit 3 10) 0
  = Ok ([[500; 30; 502; 183; 658; 820; 821; 822]], 794471793).
Proof. vm_compute. reflexivity. Qed.

Lemma route_switch_single_point_doubles_witness :
  Forall2 (fun traj out => length out = Nat.max (length traj) 2)
    [sample_traj] [[500; 30; 502; 183; 658; 820; 821; 822]].
Proof.
  apply (proj2 (@route_switch_single_point_doubles lcg porto_grid 3
                  (float_lit 3 10)) [sample_traj] 0 _ 794471793).
  vm_compute. reflexivity.
Defined.

(** The generators draw from the generator as they find it: from another
    state the same call gives another outlier. *)
Example route_switch_depends_on_state :
  @Porto.get_route_switch_outliers lcg porto_grid [sample_traj] 3
    (float_lit 3 10) 1
  = Ok ([[500; 501; 979; 660; 661; 823; 821; 822]], 486256185).
Proof. vm_compute. reflexivity. Qed.

Lemma detour_short_trajectory_raises_witness :
  raises (@Porto.get_detour_outliers lcg porto_grid [[500; 501]] 3
            (float_lit 3 10) false 0).
Proof.
  apply (@detour_short_trajectory_raises lcg porto_grid [[500; 501]] 3
           (float_lit 3 10) false [500; 501] 0).
  - left.
  - simpl. lia.
Defined.

Example detour_two_points :
  @Porto.get_detour_outliers lcg porto_grid [[500; 501]] 3 (float_lit 3 10)
    false 0 = Raise ValueError.
Proof. vm_compute. reflexivity. Qed.

(** On three points the span is empty and the detour is the source. *)
Example detour_three_points :
  @Porto.get_detour_outliers lcg porto_grid [[9; 9; 9]] 3 (float_lit 3 10)
    false 0 = Ok ([[9; 9; 9]], 1406932606).
Proof. vm_compute. reflexivity. Qed.

(** A negative probability makes the span end before it starts, and the
    two outer slices overlap: eight points become eleven. *)
Example detour_negative_probability :
  @Porto.detour_span lcg (float_lit (-1) 2) sample_traj 0 = Ok ((7, 4), 12345) /\
  @Porto.detour_one lcg porto_grid 3 (float_lit (-1) 2) sample_traj 0
  = Ok ([500; 501; 502; 660; 661; 820; 821; 661; 820; 821; 822], 1406932606).
Proof. split; vm_compute; reflexivity. Qed.

Lemma detour_vary_repeats_points_witness :
  seqZ 1000 53 ++ seqZ 1051 9
  = take (Z.to_nat 53) long_traj ++ drop (Z.to_nat 51) long_traj /\
  length (seqZ 1000 53 ++ seqZ 1051 9)
  = (length long_traj + Z.to_nat (53 - 51))%nat /\
  forall i : nat, (Z.to_nat 53 <= i)%nat ->
    (seqZ 1000 53 ++ seqZ 1051 9) !! i
    = long_traj !! (i - Z.to_nat (53 - 51))%nat.
Proof.
  apply (proj1 (@detour_vary_repeats_points lcg) porto_grid 5
           (S754_finite true 5038402083120744 (-57)) long_traj 687545011
           53 51 243210352 (seqZ 1000 53 ++ seqZ 1051 9) 1009760233).
  - vm_compute. reflexivity.
  - lia.
  - vm_compute. reflexivity.
Defined.

Example generate_outliers_scenario :
  @Porto.generate_outliers lcg sample_porto_config sample_data 7
  = Ok ((sample_outliers, sample_files), 146443332).
Proof. vm_compute. reflexivity. Qed.

Lemma generate_outliers_deterministic_witness :
  exists route_switch detour g0,
    (sources <~ @drawn_sources lcg sample_porto_config sample_data;;
     Porto.get_route_switch_outliers porto_grid sources 3 (float_lit 3 10))
      0 = Ok (route_switch, g0) /\
    (sources <~ @drawn_sources lcg sample_porto_config sample_data;;
     Porto.get_detour_outliers porto_grid sources 3 (float_lit 3 10) false)
      10 = Ok (detour, 146443332) /\
    sample_outliers = [("route_switch"%string, route_switch);
                       ("detour"%string, detour)] /\
    sample_files = [("route_switch"%string, Porto.file_of route_switch);
                    ("detour"%string, Porto.file_of detour)].
Proof.
  apply (proj2 (@generate_outliers_deterministic lcg sample_porto_config
                  sample_data) 7 sample_outliers sample_files 146443332).
  vm_compute. reflexivity.
Defined.

(** * Further properties *)

(** ** The vocabulary codec: errors and the other round trip *)

Lemma dict_get_elem_Some {K V} `{EqDecision K} (d : list (K * V)) k v :
  (k, v) ∈ d -> is_Some (dict_get d k).
Proof.
  induction d as [|[k0 v0] d IH]; simpl; intros Hin; [inversion Hin|].
  case_decide; [eauto|]. apply IH.
  apply elem_of_cons in Hin as [[= -> ->]|Hin]; [congruence|exact Hin].
Qed.

(** The reverse map holds [id -> symbol] only for symbols that have that
    id in the vocabulary. *)
Lemma reverse_map_vocab_sound (file : list (string * Z)) (k : string) (v : Z) :
  dict_get (reverse_map_vocab (init file)) v = Some k ->
  dict_get (vocab (init file)) k = Some v.
Proof.
  simpl. rewrite dict_get_of_pairs. intros Hrev.
  apply dict_get_Some_elem in Hrev.
  apply list_elem_of_In, in_rev in Hrev. rewrite ?rev_involutive in Hrev.
  apply list_elem_of_In, list_elem_of_fmap in Hrev as [[k0 v0] [Heq Hin]].
  injection Heq as -> ->.
  apply dict_get_NoDup_elem; [apply dict_of_pairs_NoDup|exact Hin].
Qed.

Lemma reverse_map_vocab_complete (file : list (string * Z)) (k : string) (v : Z) :
  dict_get (vocab (init file)) k = Some v ->
  is_Some (dict_get (reverse_map_vocab (init file)) v).
Proof.
  simpl. intros Hk. rewrite dict_get_of_pairs.
  apply (dict_get_elem_Some _ v k).
  apply list_elem_of_In, in_rev. rewrite ?rev_involutive. apply list_elem_of_In.
  apply list_elem_of_fmap. exists (k, v). split; [reflexivity|].
  apply dict_get_Some_elem. exact Hk.
Qed.

(** X1: whatever the vocabulary file (one-to-one or not), encoding what
    [decode] returned gives the ids back. *)
Theorem encode_decode_roundtrip (file : list (string * Z)) (toks : list Z)
    (s : list pyval) :
  decode (init file) toks = Ok s -> encode (init file) s = Ok toks.
Proof.
  unfold decode, encode. rewrite !mapM_Ok_Forall2.
  induction 1 as [|t x toks s Hx _ IH]; constructor; [|exact IH].
  unfold dict_lookup in *.
  destruct (dict_get (reverse_map_vocab (init file)) t) as [k|] eqn:Hk;
    [|discriminate].
  injection Hx as <-. simpl str.
  rewrite (reverse_map_vocab_sound file k t Hk). reflexivity.
Qed.

Lemma mapM_Raise_inv {A B} (f : A -> result B) (l : list A) (e : pyerr) :
  mapM f l = Raise e -> Exists (fun x => f x = Raise e) l.
Proof.
  induction l as [|x l IH]; [discriminate|]. rewrite mapM_cons.
  destruct (f x) as [y|e'] eqn:Hx.
  - rewrite bind_Ok. destruct (mapM f l) as [ys|e'']; [discriminate|].
    intros [= ->]. right. apply IH. reflexivity.
  - intros [= ->]. left. exact Hx.
Qed.

(** X2: [encode] returns exactly when the string form of every symbol is
    a key of the vocabulary, one id per symbol; otherwise it raises
    [KeyError], and nothing else. *)
Theorem encode_KeyError_iff_unknown (d : VocabDictionary) (s : list pyval) :
  (is_ok (encode d s) <->
     Forall (fun x => is_Some (dict_get (vocab d) (str x))) s)
  /\ (forall toks, encode d s = Ok toks -> length toks = length s)
  /\ (forall e, encode d s = Raise e ->
        e = KeyError /\ Exists (fun x => dict_get (vocab d) (str x) = None) s).
Proof.
  split; [|split].
  - split.
    + intros [toks Htoks]. exact (encode_Ok_known d s toks Htoks).
    + apply encode_total.
  - apply encode_length.
  - intros e He. apply mapM_Raise_inv in He.
    assert (Hall : Exists (fun x => e = KeyError /\
                                    dict_get (vocab d) (str x) = None) s).
    { eapply Exists_impl; [exact He|]. intros x Hx. simpl in Hx.
      unfold dict_lookup in Hx.
      destruct (dict_get (vocab d) (str x)); [discriminate|].
      injection Hx as <-. auto. }
    split.
    + apply Exists_exists in Hall as (x & _ & -> & _). reflexivity.
    + eapply Exists_impl; [exact Hall|]. intros x [_ Hx]. exact Hx.
Qed.

(** X3: [decode] returns exactly when every id is the id of some symbol
    of the vocabulary; otherwise it raises [KeyError]; and what it returns
    are symbols of the vocabulary, as strings. *)
Theorem decode_KeyError_iff_unknown (file : list (string * Z)) (toks : list Z) :
  (is_ok (decode (init file) toks) <->
     Forall (fun t => exists k, dict_get (vocab (init file)) k = Some t) toks)
  /\ (forall s, decode (init file) toks = Ok s ->
        Forall2 (fun t x => exists k, x = PStr k /\
                   dict_get (vocab (init file)) k = Some t) toks s)
  /\ (forall e, decode (init file) toks = Raise e -> e = KeyError).
Proof.
  split; [|split].
  - split.
    + intros [s Hs]. unfold decode in Hs. apply mapM_Ok_Forall2 in Hs.
      induction Hs as [|t x toks s Hx _ IH]; constructor; [|exact IH].
      unfold dict_lookup in Hx.
      destruct (dict_get (reverse_map_vocab (init file)) t) as [k|] eqn:Hk;
        [|discriminate].
      exists k. exact (reverse_map_vocab_sound file k t Hk).
    + intros Hall. apply mapM_Ok_total. eapply Forall_impl; [exact Hall|].
      intros t [k Hk]. cbv beta.
      destruct (reverse_map_vocab_complete file k t Hk) as [k' Hk'].
      exists (PStr k'). unfold dict_lookup. rewrite Hk'. reflexivity.
  - intros s Hs. unfold decode in Hs. apply mapM_Ok_Forall2 in Hs.
    eapply Forall2_impl; [exact Hs|]. intros t x Hx. cbv beta in Hx.
    unfold dict_lookup in Hx.
    destruct (dict_get (reverse_map_vocab (init file)) t) as [k|] eqn:Hk;
      [|discriminate].
    injection Hx as <-. exists k. split; [reflexivity|].
    exact (reverse_map_vocab_sound file k t Hk).
  - intros e He. apply mapM_Raise_inv, Exists_exists in He as (t & _ & Ht).
    unfold dict_lookup in Ht.
    destruct (dict_get (reverse_map_vocab (init file)) t); [discriminate|].
    injection Ht as <-. reflexivity.
Qed.

Lemma dict_keys_of_pairs {K V} `{EqDecision K} (ps : list (K * V)) (k : K) :
  k ∈ map fst (dict_of_pairs ps) <-> k ∈ map fst ps.
Proof.
  unfold dict_of_pairs.
  assert (Hgen : forall d,
            k ∈ map fst (fold_left (fun d kv => dict_set d kv.1 kv.2) ps d) <->
            k ∈ map fst d \/ k ∈ map fst ps).
  { induction ps as [|[k0 v0] ps IH]; intros d; simpl.
    - split; [auto|]. intros [?|Hin]; [assumption|inversion Hin].
    - rewrite IH, dict_set_keys. simpl.
      destruct (bool_decide (k0 ∈ map fst d)) eqn:Hb.
      + apply bool_decide_eq_true_1 in Hb. rewrite elem_of_cons.
        split; [tauto|]. intros [?|[->|?]]; tauto.
      + rewrite elem_of_app, list_elem_of_singleton, elem_of_cons. tauto. }
  rewrite Hgen. split; [intros [Hin|?]; [inversion Hin|assumption]|auto].
Qed.

(** X4: the size of the vocabulary ([__len__], the size of the embedding
    table) is the number of distinct symbols of the file. *)
Theorem size_counts_distinct_symbols (file : list (string * Z)) :
  size (init file) = Z.of_nat (length (remove_dups (map fst file))).
Proof.
  unfold size, len. f_equal. simpl.
  rewrite <- (length_map fst (dict_of_pairs file)).
  apply Permutation_length, NoDup_Permutation.
  - apply dict_of_pairs_NoDup.
  - apply NoDup_remove_dups.
  - intros k. rewrite dict_keys_of_pairs, elem_of_remove_dups. reflexivity.
Qed.

(** ** Outlier synthesis: what the generators return *)

Section OutlierFacts.
Context `{Generator}.

Lemma perturb_point_zero_columns (map_size : Z * Z) (point level : Z)
    (offset : option (num * num)) (g : rng) :
  map_size.2 = 0 ->
  Porto._perturb_point map_size point level offset g = Raise ZeroDivisionError.
Proof.
  intros Hw. unfold Porto._perturb_point, bind, lift, Porto.floordiv.
  rewrite Hw. reflexivity.
Qed.

Lemma perturb_point_Ok_columns (map_size : Z * Z) (point level : Z)
    (offset : option (num * num)) (g : rng) q g' :
  Porto._perturb_point map_size point level offset g = Ok (q, g') ->
  map_size.2 <> 0.
Proof.
  intros Hrun Hw. rewrite (perturb_point_zero_columns _ _ _ _ _ Hw) in Hrun.
  discriminate.
Qed.

Lemma shifted_cases (map_size : Z * Z) (point level : Z) (offset : Z * Z) :
  shifted map_size point level offset = point \/
  in_grid map_size (shifted map_size point level offset).
Proof.
  unfold shifted, in_grid. destruct map_size as [h w], offset as [xo yo].
  cbn [fst snd]. destruct (_ && _) eqn:Ht; [right|left; reflexivity].
  repeat (apply andb_prop in Ht as [Ht ?]).
  apply Z.leb_le in Ht. repeat match goal with
    | Hx : (_ <=? _) = true |- _ => apply Z.leb_le in Hx
    | Hx : (_ <? _) = true |- _ => apply Z.ltb_lt in Hx
    end.
  nia.
Qed.

Lemma shifted_level_zero (map_size : Z * Z) (point : Z) (offset : Z * Z) :
  map_size.2 <> 0 -> shifted map_size point 0 offset = point.
Proof.
  intros Hw. unfold shifted. destruct (_ && _); [|reflexivity].
  rewrite !Z.mul_0_r, !Z.add_0_r.
  rewrite (Z.div_mod point map_size.2 Hw) at 3. lia.
Qed.

(** X5: [_perturb_point] raises [ZeroDivisionError] on a grid without
    columns, whatever the offset.  On any other grid, with an offset it
    draws or a supplied offset of two ints it returns, for any point, on
    the grid or not, the point itself or a cell id of the grid, and the
    point itself at level 0.  With a supplied offset of two numbers, ints
    or floats, that hold integers, the same is true of the points of a
    grid of at most [2^52] cells as long as the shifts [offset * level]
    have magnitude at most [2^52]. *)
Theorem perturb_point_total (map_size : Z * Z) (point level : Z) (g : rng) :
  (forall offset : option (num * num),
     map_size.2 = 0 ->
     Porto._perturb_point map_size point level offset g
       = Raise ZeroDivisionError)
  /\
  (forall offset : option (Z * Z),
     map_size.2 <> 0 ->
     exists q g',
       Porto._perturb_point map_size point level
         ((fun o => (NInt o.1, NInt o.2)) <$> offset) g = Ok (q, g') /\
       (q = point \/ in_grid map_size q) /\
       (level = 0 -> q = point))
  /\
  (forall (offset : num * num) (used : Z * Z),
     num_is offset.1 used.1 -> num_is offset.2 used.2 ->
     in_grid map_size point -> map_size.1 * map_size.2 <= 2 ^ 52 ->
     exact_shift level used.1 -> exact_shift level used.2 ->
     exists q,
       Porto._perturb_point map_size point level (Some offset) g = Ok (q, g) /\
       in_grid map_size q /\
       (level = 0 -> q = point)).
Proof.
  split; [intros offset; apply perturb_point_zero_columns|]. split.
  - intros offset Hw. destruct offset as [used|]; cbn [fmap option_fmap option_map].
    + exists (shifted map_size point level used), g.
      split; [apply perturb_point_ints; exact Hw|].
      split; [apply shifted_cases|]. intros ->. apply shifted_level_zero, Hw.
    + destruct (perturb_point_random map_size point level g Hw)
        as (used & g' & _ & Hrun).
      exists (shifted map_size point level used), g'.
      split; [exact Hrun|]. split; [apply shifted_cases|].
      intros ->. apply shifted_level_zero, Hw.
  - intros offset used Hox Hoy Hp Hcells Hkx Hky.
    exists (shifted map_size point level used).
    split; [apply perturb_point_supplied; assumption|].
    split; [apply shifted_in_grid; exact Hp|].
    intros ->. apply shifted_level_zero.
    intros Hw. unfold in_grid in Hp. rewrite Hw in Hp. lia.
Qed.

Lemma route_switch_point_switched map_size level prob p g q g' :
  Porto.route_switch_point map_size level prob p g = Ok (q, g') ->
  switched map_size level p q.
Proof.
  unfold Porto.route_switch_point, switched.
  destruct (p =? 0) eqn:Hp.
  - intros Hrun. apply ret_Ok_inv in Hrun as [-> _]. left. reflexivity.
  - apply Z.eqb_neq in Hp. intros Hrun.
    apply bind_Ok_inv in Hrun as (r & g1 & _ & Hrun).
    destruct (flt r prob).
    + right. split; [exact Hp|].
      pose proof (perturb_point_Ok_columns _ _ _ _ _ _ _ Hrun) as Hw.
      destruct (perturb_point_random map_size p level g1 Hw)
        as (used & g2 & Hin & Hrun').
      rewrite Hrun' in Hrun. injection Hrun as <- <-. eauto.
    + apply ret_Ok_inv in Hrun as [-> _]. left. reflexivity.
Qed.

(** A list of at least two elements is its first element, its interior
    [l[1:-1]] and its last element. *)
Lemma list_ends_interior {A} (l : list A) (first last : A) :
  (2 <= length l)%nat ->
  index l 0 = Ok first -> index l (-1) = Ok last ->
  l = [first] ++ slice l (Some 1) (Some (-1)) ++ [last].
Proof.
  intros Hn Hfirst Hlast.
  apply index_first in Hfirst. apply index_last in Hlast.
  destruct l as [|x l]; [discriminate|]. injection Hfirst as ->.
  assert (Hslice : slice (first :: l) (Some 1) (Some (-1))
                   = take (length l - 1) (drop 1 (first :: l))).
  { unfold slice, clamp, default, id. cbn [from_option].
    change (1 <? 0) with false. change (-1 <? 0) with true. cbv iota.
    unfold len. f_equal; [|f_equal]; simpl length in *; lia. }
  rewrite Hslice. cbn [drop].
  destruct (exists_last (l := l)) as (l' & y & ->).
  { intros ->. simpl in Hn. lia. }
  rewrite last_cons, last_snoc in Hlast. injection Hlast as ->.
  rewrite length_app. simpl length.
  replace (length l' + 1 - 1)%nat with (length l') by lia.
  rewrite drop_0, take_app_length. reflexivity.
Qed.

(** X6: in a route-switch outlier of a source of at least two points,
    every position holds the point of the source or, unless that point is
    0, the point shifted by [level] cells in a compass direction (kept in
    place when the shift leaves the grid); the two ends hold the points of
    the source. *)
Theorem route_switch_pointwise (map_size : Z * Z) (level : Z) (prob : float)
    (batch_x : list (list Z)) (g : rng) (outliers : list (list Z)) (g' : rng) :
  Porto.get_route_switch_outliers map_size batch_x level prob g
    = Ok (outliers, g') ->
  Forall2 (fun traj out =>
             (2 <= length traj)%nat ->
             Forall2 (switched map_size level) traj out /\
             head out = head traj /\ last out = last traj)
    batch_x outliers.
Proof.
  unfold Porto.get_route_switch_outliers. intros Hrun.
  apply for_each_Ok_Forall2 in Hrun.
  eapply Forall2_impl; [exact Hrun|].
  intros traj out (g0 & g1 & Hone) Hn.
  split; [|exact (route_switch_one_ends _ _ _ _ _ _ _ Hone)].
  unfold Porto.route_switch_one in Hone.
  apply bind_Ok_inv in Hone as (first & g2 & Hfirst & Hone).
  apply lift_Ok_inv in Hfirst as [Hfirst ->].
  apply bind_Ok_inv in Hone as (middle & g3 & Hmiddle & Hone).
  apply bind_Ok_inv in Hone as (lst & g4 & Hlast & Hone).
  apply lift_Ok_inv in Hlast as [Hlast ->].
  apply ret_Ok_inv in Hone as [-> _].
  rewrite (list_ends_interior traj first lst Hn Hfirst Hlast) at 1.
  apply Forall2_app; [repeat constructor; left; reflexivity|].
  apply Forall2_app; [|repeat constructor; left; reflexivity].
  apply for_each_Ok_Forall2 in Hmiddle.
  eapply Forall2_impl; [exact Hmiddle|].
  intros p q (g5 & g6 & Hp). exact (route_switch_point_switched _ _ _ _ _ _ _ Hp).
Qed.

End OutlierFacts.

Lemma Forall_index {A} (P : A -> Prop) (l : list A) (i : Z) (x : A) :
  Forall P l -> index l i = Ok x -> P x.
Proof.
  intros Hall. unfold index. destruct (_ <? 0); [discriminate|].
  destruct (l !! _) as [y|] eqn:Hy; [|discriminate]. intros [= <-].
  exact (Forall_lookup_1 _ _ _ _ Hall Hy).
Qed.

Lemma Forall_slice {A} (P : A -> Prop) (l : list A) (lo hi : option Z) :
  Forall P l -> Forall P (slice l lo hi).
Proof. intros Hall. unfold slice. apply Forall_take, Forall_drop, Hall. Qed.

Lemma index_elem_of {A} (l : list A) (i : Z) (x : A) : index l i = Ok x -> x ∈ l.
Proof.
  intros Hx. apply (Forall_index (fun y => y ∈ l) l i x); [|exact Hx].
  apply Forall_forall. auto.
Qed.

Lemma slice_middle {A} (l : list A) (st ed : Z) :
  0 <= st -> st <= ed -> ed <= len l ->
  slice l (Some st) (Some ed) = take (Z.to_nat (ed - st)) (drop (Z.to_nat st) l).
Proof.
  intros Hst Hed Hn. unfold slice, clamp, default, id. cbn [from_option].
  destruct (st <? 0) eqn:Hneg; [apply Z.ltb_lt in Hneg; lia|].
  destruct (ed <? 0) eqn:Hneg'; [apply Z.ltb_lt in Hneg'; lia|].
  rewrite !Z.min_l by lia. reflexivity.
Qed.

Section DetourFacts.
Context `{Generator}.

Lemma for_each_supplied (map_size : Z * Z) (level : Z) (offset : num * num)
    (used : Z * Z) (l : list Z) (g : rng) :
  num_is offset.1 used.1 -> num_is offset.2 used.2 ->
  map_size.1 * map_size.2 <= 2 ^ 52 ->
  exact_shift level used.1 -> exact_shift level used.2 ->
  Forall (in_grid map_size) l ->
  for_each (fun p => Porto._perturb_point map_size p level (Some offset)) l g
    = Ok (map (fun p => shifted map_size p level used) l, g).
Proof.
  intros Hox Hoy Hcells Hkx Hky Hgrid.
  induction Hgrid as [|p l Hp _ IH]; [reflexivity|].
  cbn [for_each map]. unfold bind at 1.
  rewrite (perturb_point_supplied map_size p level offset used g)
    by assumption.
  unfold bind at 1. rewrite IH. reflexivity.
Qed.

(** The offset of a detour: a pair of floats that hold the signs of the
    coordinate differences of the two ends of the span, one of them
    reversed. *)
Lemma detour_offset_Ok_inv map_size traj st ed g offset g' :
  Porto.detour_offset map_size traj st ed g = Ok (offset, g') ->
  map_size.2 <> 0 /\
  exists used, unit_offset used /\
               num_is offset.1 used.1 /\ num_is offset.2 used.2.
Proof.
  unfold Porto.detour_offset. intros Hrun.
  apply bind_Ok_inv in Hrun as (ps & g1 & _ & Hrun).
  apply bind_Ok_inv in Hrun as (xs & g2 & Hxs & Hrun).
  apply bind_Ok_inv in Hrun as (pe & g3 & _ & Hrun).
  apply bind_Ok_inv in Hrun as (xe & g4 & _ & Hrun).
  apply bind_Ok_inv in Hrun as (ys & g5 & _ & Hrun).
  apply bind_Ok_inv in Hrun as (ye & g6 & _ & Hrun).
  cbv zeta in Hrun. cbn [fst snd] in Hrun.
  apply bind_Ok_inv in Hrun as (r & g7 & _ & Hrun). split.
  - apply lift_Ok_inv in Hxs as [Hxs _]. unfold Porto.floordiv in Hxs.
    destruct (map_size.2 =? 0) eqn:Hw; [discriminate|].
    apply Z.eqb_neq. exact Hw.
  - destruct (int_truediv_sign (xs - xe)) as (ax & bx & Hax & Hbx & Hrax & Hrbx).
    destruct (int_truediv_sign (ys - ye)) as (ay & by' & Hay & Hby & Hray & Hrby).
    assert (Hsx : -1 <= Z.sgn (xs - xe) <= 1) by lia.
    assert (Hsy : -1 <= Z.sgn (ys - ye) <= 1) by lia.
    destruct (flt r _).
    + unfold bind, lift in Hrun. rewrite Hbx, Hay in Hrun.
      apply ret_Ok_inv in Hrun as [-> _].
      exists (- Z.sgn (xs - xe), Z.sgn (ys - ye)).
      unfold unit_offset. cbn [fst snd num_is]. repeat split; try lia; assumption.
    + unfold bind, lift in Hrun. rewrite Hax, Hby in Hrun.
      apply ret_Ok_inv in Hrun as [-> _].
      exists (Z.sgn (xs - xe), - Z.sgn (ys - ye)).
      unfold unit_offset. cbn [fst snd num_is]. repeat split; try lia; assumption.
Qed.

(** What the loop body of [get_detour_outliers] returns on a trajectory
    of a grid on which binary64 is exact. *)
Lemma detour_one_Ok_inv map_size level prob traj g out g' :
  map_size.1 * map_size.2 <= 2 ^ 52 -> Z.abs level <= 2 ^ 52 ->
  Forall (in_grid map_size) traj ->
  Porto.detour_one map_size level prob traj g = Ok (out, g') ->
  exists st ed g1 offset,
    Porto.detour_span prob traj g = Ok ((st, ed), g1) /\
    is_ok (index traj st) /\
    map_size.2 <> 0 /\ unit_offset offset /\
    out = slice traj None (Some st) ++
          map (fun p => shifted map_size p level offset)
            (slice traj (Some st) (Some ed)) ++
          slice traj (Some ed) None.
Proof.
  unfold Porto.detour_one. intros Hcells Hlevel Hgrid Hrun.
  apply bind_Ok_inv in Hrun as ([st ed] & g1 & Hspan & Hrun).
  apply bind_Ok_inv in Hrun as (offset & g2 & Hoffset & Hrun).
  destruct (detour_offset_Ok_inv _ _ _ _ _ _ _ Hoffset)
    as (Hw & used & Hunit & Hox & Hoy).
  unfold bind in Hrun at 1.
  rewrite (for_each_supplied map_size level offset used) in Hrun;
    [|exact Hox|exact Hoy|exact Hcells
     |apply unit_exact_shift; [exact Hlevel|apply Hunit]
     |apply unit_exact_shift; [exact Hlevel|apply Hunit]
     |apply Forall_slice, Hgrid].
  apply ret_Ok_inv in Hrun as [-> _].
  exists st, ed, g1, used.
  split; [exact Hspan|]. split; [|split; [exact Hw|split; [exact Hunit|reflexivity]]].
  unfold Porto.detour_offset in Hoffset.
  apply bind_Ok_inv in Hoffset as (ps & g4 & Hps & _).
  apply lift_Ok_inv in Hps as [Hps _]. exists ps. exact Hps.
Qed.

(** X7: on a grid of at most [2^52] cells and for a level of magnitude at
    most [2^52], with a probability that is not negative, every point
    inside the span of a detour of a trajectory of the grid is shifted by
    [level] cells along one offset, the same for the whole span and of at
    most one cell on each axis, and kept in place when the shift would
    leave the grid. *)
Theorem detour_span_shifted (map_size : Z * Z) (level : Z) (prob : float)
    (traj : list Z) (g : rng) (out : list Z) (g' : rng) :
  map_size.1 * map_size.2 <= 2 ^ 52 -> Z.abs level <= 2 ^ 52 ->
  Forall (in_grid map_size) traj ->
  fle (S754_zero false) prob = true ->
  Porto.detour_one map_size level prob traj g = Ok (out, g') ->
  exists st ed g1 offset,
    Porto.detour_span prob traj g = Ok ((st, ed), g1) /\
    unit_offset offset /\
    forall i : nat, st <= Z.of_nat i < ed ->
      out !! i = (fun p => shifted map_size p level offset) <$> traj !! i.
Proof.
  intros Hcells Hlevel Hgrid Hprob Hrun.
  apply detour_one_Ok_inv in Hrun
    as (st & ed & g1 & offset & Hspan & [ps Hps] & Hw & Hunit & ->);
    [|assumption..].
  exists st, ed, g1, offset. split; [exact Hspan|]. split; [exact Hunit|].
  apply detour_span_Ok_inv in Hspan as (anomaly_len & Hlen & Hst & ->).
  apply index_Ok_nonneg in Hps as [Hn _]; [|lia].
  assert (Hpos : 0 <= anomaly_len).
  { apply (int_mul_float_nonneg (len traj - 2) prob); [lia|exact Hprob|exact Hlen]. }
  rewrite slice_prefix by lia. rewrite slice_middle by lia.
  unfold len in *. intros i Hi.
  assert (Hlen_take : length (take (Z.to_nat st) traj) = Z.to_nat st)
    by (rewrite length_take; lia).
  rewrite lookup_app_r by lia. rewrite Hlen_take.
  rewrite lookup_app_l.
  2:{ rewrite length_map, length_take, length_drop. lia. }
  change map with (@fmap list _). rewrite list_lookup_fmap. f_equal.
  rewrite lookup_take_lt by lia. rewrite lookup_drop. f_equal. lia.
Qed.

Lemma route_switch_one_in_grid map_size level prob traj g out g' :
  Porto.route_switch_one map_size level prob traj g = Ok (out, g') ->
  Forall (in_grid map_size) traj -> Forall (in_grid map_size) out.
Proof.
  unfold Porto.route_switch_one. intros Hone Hgrid.
  apply bind_Ok_inv in Hone as (first & g2 & Hfirst & Hone).
  apply lift_Ok_inv in Hfirst as [Hfirst ->].
  apply bind_Ok_inv in Hone as (middle & g3 & Hmiddle & Hone).
  apply bind_Ok_inv in Hone as (lst & g4 & Hlast & Hone).
  apply lift_Ok_inv in Hlast as [Hlast ->].
  apply ret_Ok_inv in Hone as [-> _].
  apply Forall_app. split.
  { constructor; [exact (Forall_index _ _ _ _ Hgrid Hfirst)|constructor]. }
  apply Forall_app. split.
  2:{ constructor; [exact (Forall_index _ _ _ _ Hgrid Hlast)|constructor]. }
  apply for_each_Ok_Forall2 in Hmiddle.
  pose proof (Forall_slice _ traj (Some 1) (Some (-1)) Hgrid) as Hinner.
  revert Hinner. induction Hmiddle as [|p q ps qs (g5 & g6 & Hp) _ IH];
    intros Hinner; [constructor|].
  apply Forall_cons in Hinner as [Hp_grid Hinner].
  constructor; [|exact (IH Hinner)].
  apply route_switch_point_switched in Hp as [->|(_ & offset & _ & ->)];
    [exact Hp_grid|].
  apply shifted_in_grid. exact Hp_grid.
Qed.

Lemma detour_one_in_grid map_size level prob traj g out g' :
  map_size.1 * map_size.2 <= 2 ^ 52 -> Z.abs level <= 2 ^ 52 ->
  Porto.detour_one map_size level prob traj g = Ok (out, g') ->
  Forall (in_grid map_size) traj -> Forall (in_grid map_size) out.
Proof.
  intros Hcells Hlevel Hrun Hgrid.
  apply detour_one_Ok_inv in Hrun
    as (st & ed & g1 & offset & _ & _ & _ & _ & ->); [|assumption..].
  apply Forall_app. split; [apply Forall_slice, Hgrid|].
  apply Forall_app. split; [|apply Forall_slice, Hgrid].
  rewrite Forall_fmap. eapply Forall_impl; [apply Forall_slice, Hgrid|].
  intros p Hp. apply shifted_in_grid. exact Hp.
Qed.

(** The level the loop of [get_detour_outliers] runs with is at most two
    away from the one it was given. *)
Lemma detour_params_level level prob vary g params g1 :
  Porto.detour_params level prob vary g = Ok (params, g1) ->
  -2 <= params.1 - level <= 2.
Proof.
  unfold Porto.detour_params. destruct vary.
  - intros Hrun.
    apply bind_Ok_inv in Hrun as (d & g2 & Hd & Hrun).
    apply randint_Ok_inv in Hd.
    apply bind_Ok_inv in Hrun as (r & g3 & _ & Hrun).
    destruct (flt _ r);
      apply bind_Ok_inv in Hrun as (r' & g4 & _ & Hrun);
      apply ret_Ok_inv in Hrun as [-> _]; cbn [fst]; lia.
  - intros Hrun. apply ret_Ok_inv in Hrun as [-> _]. cbn [fst]. lia.
Qed.

(** X8: the generators do not leave the grid.  Whatever the level, the
    probability and the draws, a route-switch outlier made from cell ids
    of the grid consists of cell ids of the grid; so does a detour
    outlier, whatever the probability, the [vary] flag and the draws, on a
    grid of at most [2^52] cells and for a level of magnitude at most
    [2^52 - 2]. *)
Theorem outliers_stay_in_grid (map_size : Z * Z) (level : Z) (prob : float)
    (batch_x : list (list Z)) :
  (forall g outliers g',
      Porto.get_route_switch_outliers map_size batch_x level prob g
        = Ok (outliers, g') ->
      Forall2 (fun traj out =>
                 Forall (in_grid map_size) traj -> Forall (in_grid map_size) out)
        batch_x outliers)
  /\
  (forall vary g outliers g',
      map_size.1 * map_size.2 <= 2 ^ 52 -> Z.abs level <= 2 ^ 52 - 2 ->
      Porto.get_detour_outliers map_size batch_x level prob vary g
        = Ok (outliers, g') ->
      Forall2 (fun traj out =>
                 Forall (in_grid map_size) traj -> Forall (in_grid map_size) out)
        batch_x outliers).
Proof.
  split.
  - intros g outliers g' Hrun. unfold Porto.get_route_switch_outliers in Hrun.
    apply for_each_Ok_Forall2 in Hrun. eapply Forall2_impl; [exact Hrun|].
    intros traj out (g0 & g1 & Hone). exact (route_switch_one_in_grid _ _ _ _ _ _ _ Hone).
  - intros vary g outliers g' Hcells Hlevel Hrun.
    unfold Porto.get_detour_outliers in Hrun.
    apply bind_Ok_inv in Hrun as (params & g1 & Hparams & Hrun).
    apply detour_params_level in Hparams.
    apply for_each_Ok_Forall2 in Hrun. eapply Forall2_impl; [exact Hrun|].
    intros traj out (g2 & g3 & Hone).
    apply (detour_one_in_grid map_size params.1 params.2 traj g2 out g3 Hcells);
      [lia|exact Hone].
Qed.

End DetourFacts.

Section GenerateFacts.
Context `{Generator}.

Lemma for_each_replicate_randint low high (n : nat) g idx g' :
  for_each (fun _ : unit => randint low high) (replicate n tt) g = Ok (idx, g') ->
  length idx = n /\ Forall (fun i => low <= i < high) idx.
Proof.
  intros Hrun. split.
  - rewrite (for_each_length _ _ _ _ _ Hrun). apply length_replicate.
  - apply for_each_Ok_Forall2 in Hrun.
    induction Hrun as [|x i xs idx (g0 & g1 & Hi) _ IH]; constructor; [|exact IH].
    exact (randint_Ok_inv _ _ _ _ _ Hi).
Qed.

(** [randint(low, high, size)] returns [size] draws of the range. *)
Lemma randint_size_Ok_inv low high size g idx g' :
  randint_size low high size g = Ok (idx, g') ->
  0 <= size /\ length idx = Z.to_nat size /\
  Forall (fun i => low <= i < high) idx.
Proof.
  unfold randint_size. destruct (size <? 0) eqn:Hneg; [discriminate|].
  apply Z.ltb_ge in Hneg. destruct (size =? 0) eqn:Hzero.
  - apply Z.eqb_eq in Hzero. subst. intros Hrun.
    apply ret_Ok_inv in Hrun as [-> _]. repeat split; [lia|constructor].
  - intros Hrun. apply for_each_replicate_randint in Hrun as [Hlen Hall]. auto.
Qed.

Lemma mapM_index_sources {A} (data : list A) (idx : list Z) (sources : list A) :
  mapM (index data) idx = Ok sources ->
  length sources = length idx /\ Forall (fun traj => traj ∈ data) sources.
Proof.
  rewrite mapM_Ok_Forall2. intros Hall. split.
  - symmetry. exact (Forall2_length _ _ _ Hall).
  - induction Hall as [|i x idx sources Hx _ IH]; constructor; [|exact IH].
    exact (index_elem_of _ _ _ Hx).
Qed.

Lemma drawn_sources_Ok_inv config data g sources g' :
  drawn_sources config data g = Ok (sources, g') ->
  exists size,
    int_mul_float (len data) (Porto.outlier_ratio config) = Ok size /\
    0 <= size /\ length sources = Z.to_nat size /\
    Forall (fun traj => traj ∈ data) sources.
Proof.
  unfold drawn_sources. intros Hrun.
  apply bind_Ok_inv in Hrun as (size & g1 & Hsize & Hrun).
  apply lift_Ok_inv in Hsize as [Hsize ->].
  apply bind_Ok_inv in Hrun as (idx & g2 & Hidx & Hrun).
  apply lift_Ok_inv in Hrun as [Hsources _].
  apply randint_size_Ok_inv in Hidx as (Hpos & Hlen & _).
  apply mapM_index_sources in Hsources as [Hlen' Hin].
  exists size. repeat split; try assumption. congruence.
Qed.

Lemma get_detour_outliers_sources map_size batch_x level prob vary g outliers g' :
  Porto.get_detour_outliers map_size batch_x level prob vary g = Ok (outliers, g') ->
  length outliers = length batch_x /\
  Forall (fun traj => (3 <= length traj)%nat) batch_x.
Proof.
  intros Hrun. split.
  - unfold Porto.get_detour_outliers in Hrun.
    apply bind_Ok_inv in Hrun as (params & g1 & _ & Hrun).
    exact (for_each_length _ _ _ _ _ Hrun).
  - apply Forall_forall. intros traj Hin.
    destruct (decide (3 <= length traj)%nat) as [Hlong|Hshort]; [exact Hlong|].
    exfalso.
    assert (Hraises : raises (Porto.get_detour_outliers map_size batch_x level
                                prob vary g)).
    { unfold Porto.get_detour_outliers. apply bind_raises_r. intros params g1 _.
      apply (for_each_raises _ _ traj Hin). intros g2.
      apply detour_one_short_raises. lia. }
    destruct Hraises as [e He]. congruence.
Qed.

Lemma Forall2_with_left {A B} (P : A -> Prop) (R : A -> B -> Prop)
    (l : list A) (k : list B) :
  Forall P l -> Forall2 R l k -> Forall2 (fun a b => P a /\ R a b) l k.
Proof.
  intros HP HR. induction HR as [|a b l k Hab _ IH]; [constructor|].
  apply Forall_cons in HP as [Ha HP]. constructor; auto.
Qed.

(** X9: when [generate_outliers] returns, it holds
    [int(len(data) * outlier_ratio)] outliers of each kind.  The sources
    are the trajectories drawn, with replacement, from the state seeded
    with 0 for the route-switch outliers and with 10 for the detours; the
    outliers of each kind are what the generator of that kind returns on
    its sources, one outlier per source and in the order of the sources.
    Each source is a trajectory of the dataset; each route-switch outlier
    is the result of the loop body on its source and keeps its two ends;
    each source of a detour has at least three points and each detour is
    the result of the loop body on its source. *)
Theorem generate_outliers_counts (config : Porto.PortoConfig)
    (data : list (list Z)) (g : rng) outliers files (g' : rng) :
  Porto.generate_outliers config data g = Ok ((outliers, files), g') ->
  exists size route_switch detour sources sources' g1 g2 g3,
    int_mul_float (len data) (Porto.outlier_ratio config) = Ok size /\
    outliers = [("route_switch"%string, route_switch);
                ("detour"%string, detour)] /\
    length route_switch = Z.to_nat size /\ length detour = Z.to_nat size /\
    drawn_sources config data (seeded 0) = Ok (sources, g1) /\
    Porto.get_route_switch_outliers (Porto.grip_size config) sources
      (Porto.outlier_level config) (Porto.outlier_prob config) g1
      = Ok (route_switch, g2) /\
    drawn_sources config data (seeded 10) = Ok (sources', g3) /\
    Porto.get_detour_outliers (Porto.grip_size config) sources'
      (Porto.outlier_level config) (Porto.outlier_prob config) false g3
      = Ok (detour, g') /\
    Forall2 (fun traj out =>
               traj ∈ data /\
               (exists g0 g0',
                   Porto.route_switch_one (Porto.grip_size config)
                     (Porto.outlier_level config) (Porto.outlier_prob config)
                     traj g0 = Ok (out, g0')) /\
               head out = head traj /\ last out = last traj)
      sources route_switch /\
    Forall2 (fun traj out =>
               (traj ∈ data /\ (3 <= length traj)%nat) /\
               exists g0 g0',
                 Porto.detour_one (Porto.grip_size config)
                   (Porto.outlier_level config) (Porto.outlier_prob config)
                   traj g0 = Ok (out, g0'))
      sources' detour.
Proof.
  unfold Porto.generate_outliers. intros Hrun.
  apply bind_Ok_inv in Hrun as ([] & g1 & Hseed & Hrun).
  injection Hseed as <-.
  apply bind_Ok_inv in Hrun as (size & g2 & Hsize & Hrun).
  apply bind_Ok_inv in Hrun as (idx & g3 & Hidx & Hrun).
  apply bind_Ok_inv in Hrun as (sources & g4 & Hsources & Hrun).
  apply bind_Ok_inv in Hrun as (route_switch & g5 & Hrs & Hrun).
  apply bind_Ok_inv in Hrun as ([] & g6 & Hseed & Hrun).
  injection Hseed as <-.
  apply bind_Ok_inv in Hrun as (size' & g7 & Hsize' & Hrun).
  apply bind_Ok_inv in Hrun as (idx' & g8 & Hidx' & Hrun).
  apply bind_Ok_inv in Hrun as (sources' & g9 & Hsources' & Hrun).
  apply bind_Ok_inv in Hrun as (detour & g10 & Hdt & Hrun).
  apply ret_Ok_inv in Hrun as [[= -> ->] ->].
  assert (Hdrawn : drawn_sources config data (seeded 0) = Ok (sources, g4)).
  { unfold drawn_sources, bind. rewrite Hsize, Hidx. exact Hsources. }
  assert (Hdrawn' : drawn_sources config data (seeded 10) = Ok (sources', g9)).
  { unfold drawn_sources, bind. rewrite Hsize', Hidx'. exact Hsources'. }
  apply lift_Ok_inv in Hsize as [Hsize _]. apply lift_Ok_inv in Hsize' as [Hsize' _].
  assert (size' = size) as -> by congruence.
  apply lift_Ok_inv in Hsources as [Hsources _].
  apply lift_Ok_inv in Hsources' as [Hsources' _].
  apply randint_size_Ok_inv in Hidx as (_ & Hlen & _).
  apply randint_size_Ok_inv in Hidx' as (_ & Hlen' & _).
  apply mapM_index_sources in Hsources as [Hn Hin].
  apply mapM_index_sources in Hsources' as [Hn' Hin'].
  destruct (get_detour_outliers_sources _ _ _ _ _ _ _ _ Hdt) as [Hdt_len Hlong].
  pose proof Hrs as Hrs_len. unfold Porto.get_route_switch_outliers in Hrs_len.
  apply for_each_length in Hrs_len.
  exists size, route_switch, detour, sources, sources', g4, g5, g9.
  split; [exact Hsize|]. split; [reflexivity|].
  split; [congruence|]. split; [congruence|].
  split; [exact Hdrawn|]. split; [exact Hrs|].
  split; [exact Hdrawn'|]. split; [exact Hdt|]. split.
  - apply Forall2_with_left; [exact Hin|].
    unfold Porto.get_route_switch_outliers in Hrs.
    apply for_each_Ok_Forall2 in Hrs. eapply Forall2_impl; [exact Hrs|].
    intros traj out (g11 & g12 & Hone). split; [eauto|].
    exact (route_switch_one_ends _ _ _ _ _ _ _ Hone).
  - apply Forall2_with_left; [apply Forall_and; split; assumption|].
    unfold Porto.get_detour_outliers in Hdt.
    apply bind_Ok_inv in Hdt as (params & g11 & Hparams & Hdt).
    apply ret_Ok_inv in Hparams as [-> _]. cbn [fst snd] in Hdt.
    apply for_each_Ok_Forall2 in Hdt. exact Hdt.
Qed.

End GenerateFacts.

(** ** The check-in dataset: feature vectors and the block size *)

Lemma zip4_length {A B C D} (a : list A) (b : list B) (c : list C) (d : list D) :
  length (POL.zip4 a b c d)
  = Nat.min (Nat.min (length a) (length b)) (Nat.min (length c) (length d)).
Proof.
  revert b c d. induction a as [|x a IH]; intros [|y b] [|z c] [|w d];
    simpl; try reflexivity; try lia.
  rewrite IH. lia.
Qed.

Lemma flat_map_constant_length {A B} (f : A -> list B) (l : list A) (k : nat) :
  (forall x, length (f x) = k) -> length (flat_map f l) = (k * length l)%nat.
Proof.
  intros Hf. induction l as [|x l IH]; simpl; [lia|].
  rewrite length_app, Hf, IH. lia.
Qed.

(** The shape of a feature vector. *)
Lemma feature_vector_shape (config : POL.POLConfig) (sample : POL.Row)
    (v : list pyval) :
  POL.get_feature_vector config sample = Ok v ->
  exists places tokens duration_buckets distances,
    eval_list (POL.place sample) = Ok places /\
    eval_list (POL.token sample) = Ok tokens /\
    eval_list (POL.duration_bucket sample) = Ok duration_buckets /\
    eval_list (POL.distance_label sample) = Ok distances /\
    length v = (3 + enabled config *
                    Nat.min (Nat.min (length places) (length tokens))
                            (Nat.min (length duration_buckets) (length distances)))%nat /\
    head v = Some (PStr (POL.user_id sample)) /\
    last v = Some (PStr "EOT").
Proof.
  unfold POL.get_feature_vector. intros Hrun.
  destruct (eval_list (POL.dayofweek sample)) as [days|e]; [|discriminate].
  rewrite bind_Ok in Hrun.
  destruct (index days 0) as [day|e]; [|discriminate]. rewrite bind_Ok in Hrun.
  destruct (eval_list (POL.place sample)) as [places|e]; [|discriminate].
  rewrite bind_Ok in Hrun.
  destruct (eval_list (POL.token sample)) as [tokens|e]; [|discriminate].
  rewrite bind_Ok in Hrun.
  destruct (eval_list (POL.duration_bucket sample)) as [duration_buckets|e];
    [|discriminate].
  rewrite bind_Ok in Hrun.
  destruct (eval_list (POL.distance_label sample)) as [distances|e]; [|discriminate].
  rewrite bind_Ok in Hrun. cbv zeta in Hrun. injection Hrun as <-.
  exists places, tokens, duration_buckets, distances.
  do 4 (split; [reflexivity|]). split; [|split; [reflexivity|]].
  - cbn [length]. rewrite length_app.
    rewrite (flat_map_constant_length _ _ (enabled config)).
    + rewrite zip4_length. simpl. lia.
    + intros [[[p t] du] di]. unfold enabled.
      rewrite !filter_cons, filter_nil.
      destruct (POL.has (POL.features config) "place"),
               (POL.has (POL.features config) "gps"),
               (POL.has (POL.features config) "duration"),
               (POL.has (POL.features config) "distance");
        repeat case_decide; try congruence; reflexivity.
  - match goal with
    | |- last (?a :: ?b :: ?fm ++ [?c]) = _ =>
        change (a :: b :: fm ++ [c]) with ((a :: b :: fm) ++ [c])
    end.
    apply last_snoc.
Qed.

(** X10: the feature vector of a record starts with its user id, ends
    with [EOT] and holds, in between, the day of week and one symbol per
    enabled feature and visit, the visits being counted on the shortest of
    the four sequences: [3 + enabled * visits] symbols in all. *)
Theorem feature_vector_length (config : POL.POLConfig) (sample : POL.Row)
    (v : list pyval) :
  POL.get_feature_vector config sample = Ok v ->
  exists places tokens duration_buckets distances,
    eval_list (POL.place sample) = Ok places /\
    eval_list (POL.token sample) = Ok tokens /\
    eval_list (POL.duration_bucket sample) = Ok duration_buckets /\
    eval_list (POL.distance_label sample) = Ok distances /\
    length v = (3 + enabled config *
                    Nat.min (Nat.min (length places) (length tokens))
                            (Nat.min (length duration_buckets) (length distances)))%nat /\
    head v = Some (PStr (POL.user_id sample)) /\
    last v = Some (PStr "EOT").
Proof.
  intros Hrun.
  destruct (feature_vector_shape config sample v Hrun)
    as (places & tokens & duration_buckets & distances
        & Hplaces & Htokens & Hdurations & Hdistances & Hlen & Hhead & Hlast).
  exists places, tokens, duration_buckets, distances.
  split; [exact Hplaces|]. split; [exact Htokens|].
  split; [exact Hdurations|]. split; [exact Hdistances|].
  split; [exact Hlen|]. split; [exact Hhead | exact Hlast].
Qed.

Lemma idle_step_pending (c : ascii) ts m' :
  idle_step c = Some (ts, m') -> (length ts + pending m' <= 1)%nat.
Proof.
  unfold idle_step.
  repeat (destruct (Ascii.eqb c _); [intros [= <- <-]; simpl; lia|]).
  destruct (digit_of c); [|discriminate]. intros [= <- <-]. simpl. lia.
Qed.

Lemma lex_step_pending (m : lex_mode) (c : ascii) ts m' :
  lex_step m c = Some (ts, m') ->
  (length ts + pending m' <= 1 + pending m)%nat.
Proof.
  destruct m as [|neg [[n lead0]|]|q acc]; simpl.
  - intros Hs. apply idle_step_pending in Hs. lia.
  - destruct (digit_of c).
    + destruct lead0; [discriminate|]. intros [= <- <-]. simpl. lia.
    + destruct (idle_step c) as [[ts0 m0]|] eqn:Hs; [|discriminate].
      intros [= <- <-]. apply idle_step_pending in Hs. simpl. lia.
  - destruct (digit_of c); [|discriminate]. intros [= <- <-]. simpl. lia.
  - destruct (Ascii.eqb c q); [intros [= <- <-]; simpl; lia|].
    destruct (_ || _); [discriminate|]. intros [= <- <-]. simpl. lia.
Qed.

Lemma lex_length (cs : list ascii) (m : lex_mode) (ts : list token) :
  lex m cs = Some ts -> (length ts <= length cs + pending m)%nat.
Proof.
  revert m ts. induction cs as [|c cs IH]; intros m ts; simpl.
  - destruct m as [|neg [[n lead0]|]|q acc]; simpl; try discriminate;
      intros [= <-]; simpl; lia.
  - destruct (lex_step m c) as [[ts0 m0]|] eqn:Hstep; [|discriminate].
    destruct (lex m0 cs) as [ts1|] eqn:Hrest; [|discriminate].
    intros [= <-]. rewrite length_app.
    apply lex_step_pending in Hstep. apply IH in Hrest. lia.
Qed.

Lemma parse_items_length (ts : list token) (st : parse_state) (l : list pyval) :
  parse_items st ts = Some l -> (length l < length ts)%nat.
Proof.
  revert st l. induction ts as [|t ts IH]; intros st l; simpl; [discriminate|].
  destruct t.
  - discriminate.
  - destruct ts; [|discriminate]. intros [= <-]. simpl. lia.
  - destruct st; try discriminate. intros Hp. apply IH in Hp. lia.
  - destruct st; try discriminate;
      (destruct (parse_items PAfterElem ts) as [l'|] eqn:Hp; [|discriminate];
       intros [= <-]; apply IH in Hp; simpl; lia).
  - destruct st; try discriminate;
      (destruct (parse_items PAfterElem ts) as [l'|] eqn:Hp; [|discriminate];
       intros [= <-]; apply IH in Hp; simpl; lia).
Qed.

Lemma length_list_ascii (s : string) :
  length (list_ascii_of_string s) = String.length s.
Proof. induction s as [|c s IH]; simpl; congruence. Qed.

(** A list literal has more characters than elements. *)
Lemma eval_list_length (s : string) (l : list pyval) :
  eval_list s = Ok l -> (length l < String.length s)%nat.
Proof.
  unfold eval_list.
  destruct (lex Idle (list_ascii_of_string s)) as [[|t ts]|] eqn:Hlex;
    try discriminate.
  destruct t; try discriminate.
  destruct (parse_items PStart ts) as [l'|] eqn:Hp; [|discriminate].
  intros [= <-]. apply lex_length in Hlex. apply parse_items_length in Hp.
  rewrite length_list_ascii in Hlex. simpl in Hlex. lia.
Qed.

Lemma enabled_le_features (config : POL.POLConfig) :
  (enabled config <= length (POL.features config))%nat.
Proof.
  unfold enabled.
  set (names := filter _ _).
  apply submseteq_length, NoDup_submseteq.
  - apply NoDup_filter.
    repeat (apply NoDup_cons; split;
            [rewrite ?elem_of_cons, elem_of_nil; intuition discriminate|]).
    apply NoDup_nil_2.
  - intros f Hf. apply list_elem_of_filter in Hf as [Hf _].
    unfold POL.has in Hf. apply bool_decide_eq_true_1 in Hf. exact Hf.
Qed.

Lemma series_max_ge (l : list Z) (x m : Z) :
  POL.series_max l = Some m -> x ∈ l -> x <= m.
Proof.
  destruct l as [|y r]; simpl; [discriminate|]. intros [= <-] Hin.
  destruct (foldl_max_spec r y) as (Hle & Hall & _).
  apply elem_of_cons in Hin as [->|Hin]; [exact Hle|].
  rewrite Forall_forall in Hall. exact (Hall x Hin).
Qed.

(** X11: the block size [get_data] derives bounds the items of the
    dataset whose sequence cells are flat list literals, as the tables
    hold them: such a row, when [__getitem__] returns it, has at most
    [block_size] tokens.  (A cell that holds another expression, say a
    list times a number, has fewer characters than elements; it is
    outside the reader and outside this statement.) *)
Theorem getitem_fits_block_size (config : POL.POLConfig) (table : list POL.Row)
    (dictionary : VocabDictionary) config' data outliers (i : Z) sample meta
    tokens :
  POL.get_data config table = Ok (config', data, outliers) ->
  index data i = Ok sample ->
  Forall flat_literal (sequence_cells (POL.row sample)) ->
  POL.getitem config' dictionary data i = Ok (meta, tokens) ->
  exists block, POL.block_size config' = Some block /\ len tokens <= block.
Proof.
  intros Hdata Hsample Hflat Hitem.
  assert (Hfeatures : POL.features config' = POL.features config).
  { unfold POL.get_data in Hdata.
    destruct (mapM POL.parse_user_id table); [|discriminate].
    rewrite bind_Ok in Hdata. cbv zeta in Hdata. injection Hdata as <- _ _.
    reflexivity. }
  destruct (get_data_block_size _ _ _ _ _ Hdata) as [Hblock _].
  unfold POL.getitem in Hitem. rewrite Hsample, bind_Ok in Hitem.
  destruct (POL.get_feature_vector config' (POL.row sample)) as [v|e] eqn:Hv;
    [|discriminate].
  rewrite bind_Ok in Hitem.
  destruct (encode dictionary v) as [toks|e] eqn:Henc; [|discriminate].
  rewrite bind_Ok in Hitem. injection Hitem as _ <-.
  apply index_elem_of in Hsample.
  set (lens := map (fun r => Z.of_nat (String.length (POL.token (POL.row r)))) data)
    in *.
  assert (Hin : Z.of_nat (String.length (POL.token (POL.row sample))) ∈ lens).
  { apply list_elem_of_fmap. exists sample. split; [reflexivity|exact Hsample]. }
  destruct (POL.series_max lens) as [m|] eqn:Hmax.
  2:{ destruct lens; [inversion Hin|discriminate]. }
  pose proof (series_max_ge lens _ m Hmax Hin) as Hle.
  exists (m * len (POL.features config) + 3). split; [exact Hblock|].
  apply feature_vector_shape in Hv
    as (places & tokens & durations & distances & _ & Htokens & _ & _ & Hlen & _).
  apply eval_list_length in Htokens.
  pose proof (enabled_le_features config') as Hk. rewrite Hfeatures in Hk.
  unfold len. rewrite (encode_length _ _ _ Henc), Hlen.
  set (visits := Nat.min _ _) in *.
  assert (Hvisits : (visits <= String.length (POL.token (POL.row sample)))%nat)
    by (unfold visits; lia).
  nia.
Qed.

(** ** The check-in dataset: labels *)

Lemma Forall2_zip_elem {A B} (P : A -> B -> Prop) (l : list A) (k : list B) :
  Forall2 P l k ->
  (forall x y, (x, y) ∈ zip l k -> x ∈ l /\ P x y) /\
  (forall x, x ∈ l -> exists y, (x, y) ∈ zip l k) /\
  map fst (zip l k) = l.
Proof.
  induction 1 as [|x y l k Hxy _ (IH1 & IH2 & IH3)]; simpl.
  - split; [|split; [|reflexivity]].
    + intros a b Hin. inversion Hin.
    + intros a Hin. inversion Hin.
  - split; [|split].
    + intros a b Hin. apply elem_of_cons in Hin as [[= -> ->]|Hin].
      * split; [left|exact Hxy].
      * destruct (IH1 _ _ Hin) as [Ha Hab]. split; [right; exact Ha|exact Hab].
    + intros a Ha. apply elem_of_cons in Ha as [->|Ha].
      * exists y. left.
      * destruct (IH2 a Ha) as [b Hb]. exists b. right. exact Hb.
    + f_equal. exact IH3.
Qed.

Section GetDataLabels.
Variables (config : POL.POLConfig) (table : list POL.Row) (ids : list Z).
Hypothesis Hids : Forall2 (fun r id => POL.parse_user_id r = Ok id) table ids.

(** The pieces of [get_data], named as in the source. *)
Let data0 : list (POL.Row * Z) := zip table ids.
Let recent (d : Z) : bool :=
  match POL.series_max (map (fun r : POL.Row * Z => POL.date r.1) data0) with
  | Some m => m - POL.outlier_days config <? d
  | None => false
  end.
Let outliers : list (Z * Z) :=
  map (fun r : POL.Row * Z => (r.2, POL.date r.1))
    (filter (fun r : POL.Row * Z => r.2 ∈ POL.outlier_list)
       (filter (fun r : POL.Row * Z => recent (POL.date r.1) = true) data0)).
Let block (r : POL.Row * Z) : list POL.Labelled :=
  match filter (fun o => o = (r.2, POL.date r.1)) outliers with
  | [] => [{| POL.row := r.1; POL.user_id_int := r.2;
              POL.outlier := "non outlier" |}]
  | ms => map (fun _ => {| POL.row := r.1; POL.user_id_int := r.2;
                           POL.outlier := "outlier" |}) ms
  end.

Lemma dates_of_data0 :
  map (fun r : POL.Row * Z => POL.date r.1) data0 = map POL.date table.
Proof.
  destruct (Forall2_zip_elem _ _ _ Hids) as (_ & _ & Hfst).
  unfold data0. rewrite <- Hfst at 2. rewrite map_map. reflexivity.
Qed.

Lemma key_in_outliers (r : POL.Row * Z) :
  r ∈ data0 ->
  ((r.2, POL.date r.1) ∈ outliers <-> flagged config table r.1).
Proof.
  intros Hr. destruct (Forall2_zip_elem _ _ _ Hids) as (Hzip & _ & _).
  destruct r as [row id]. destruct (Hzip row id Hr) as [_ Hparse].
  cbn [fst snd]. unfold outliers, flagged. rewrite <- dates_of_data0.
  split.
  - intros Hin. apply list_elem_of_fmap in Hin as ([row1 id1] & Heq & Hin).
    cbn [fst snd] in Heq. injection Heq as -> Hdate.
    apply list_elem_of_filter in Hin as [Hlisted Hin].
    apply list_elem_of_filter in Hin as [Hrecent _].
    cbn [fst snd] in *. unfold recent in Hrecent.
    destruct (POL.series_max _) as [m|]; [|discriminate].
    apply Z.ltb_lt in Hrecent. exists id1, m. rewrite Hdate. auto.
  - intros (id' & latest & Hparse' & Hlisted & Hmax & Hlate).
    assert (id' = id) as -> by congruence.
    apply list_elem_of_fmap. exists (row, id). split; [reflexivity|].
    apply list_elem_of_filter. split; [exact Hlisted|].
    apply list_elem_of_filter. split; [|exact Hr].
    cbn [fst]. unfold recent. rewrite Hmax. apply Z.ltb_lt. exact Hlate.
Qed.

Lemma block_spec (r : POL.Row * Z) (l : POL.Labelled) :
  r ∈ data0 -> l ∈ block r ->
  POL.row l = r.1 /\ POL.user_id_int l = r.2 /\
  (POL.outlier l = "outlier"%string /\ flagged config table r.1 \/
   POL.outlier l = "non outlier"%string /\ ~ flagged config table r.1).
Proof.
  intros Hr Hl. unfold block in Hl.
  destruct (filter _ outliers) as [|o ms] eqn:Hf.
  - apply list_elem_of_singleton in Hl as ->. repeat split. right.
    split; [reflexivity|]. rewrite <- (key_in_outliers r Hr). intros Hin.
    assert (Hin' : (r.2, POL.date r.1) ∈ filter (fun o => o = (r.2, POL.date r.1)) outliers)
      by (apply list_elem_of_filter; auto).
    rewrite Hf in Hin'. inversion Hin'.
  - apply list_elem_of_fmap in Hl as (o' & -> & _). repeat split. left.
    split; [reflexivity|]. rewrite <- (key_in_outliers r Hr).
    assert (Ho : o ∈ filter (fun o => o = (r.2, POL.date r.1)) outliers)
      by (rewrite Hf; left).
    apply list_elem_of_filter in Ho as [-> Ho]. exact Ho.
Qed.

Lemma block_nonempty (r : POL.Row * Z) :
  exists l, l ∈ block r /\ POL.row l = r.1.
Proof.
  unfold block. destruct (filter _ outliers) as [|o ms].
  - eexists. split; [left|reflexivity].
  - eexists. split; [left|reflexivity].
Qed.

(** What [get_data] computes once the user ids are parsed. *)
Lemma get_data_unfold :
  POL.get_data config table =
  let merged := flat_map block data0 in
  let data := if negb (POL.include_outliers config)
              then filter (fun r => POL.outlier r <> "outlier"%string) merged
              else merged in
  Ok ({| POL.features := POL.features config;
         POL.block_size :=
           (fun m => m * len (POL.features config) + 3) <$>
             POL.series_max
               (map (fun r => Z.of_nat (String.length (POL.token (POL.row r))))
                  data);
         POL.include_outliers := POL.include_outliers config;
         POL.outlier_days := POL.outlier_days config |}, data, outliers).
Proof.
  unfold POL.get_data. apply mapM_Ok_Forall2 in Hids. rewrite Hids, bind_Ok.
  reflexivity.
Qed.

End GetDataLabels.

(** X12: every row [get_data] keeps is a row of the table, with its
    parsed user id, labelled [outlier] exactly when its user is listed and
    its date is among the last [outlier_days] days of the table, and
    [non outlier] otherwise; every row of the table is kept, except, when
    outliers are excluded, the rows so labelled. *)
Theorem get_data_labels (config : POL.POLConfig) (table : list POL.Row)
    config' data outliers :
  POL.get_data config table = Ok (config', data, outliers) ->
  Forall (fun l =>
            POL.row l ∈ table /\
            POL.parse_user_id (POL.row l) = Ok (POL.user_id_int l) /\
            (POL.outlier l = "outlier"%string /\
               flagged config table (POL.row l) /\
               POL.include_outliers config = true
             \/ POL.outlier l = "non outlier"%string /\
                ~ flagged config table (POL.row l))) data
  /\ (forall r, r ∈ table ->
        POL.include_outliers config = true \/ ~ flagged config table r ->
        exists l, l ∈ data /\ POL.row l = r).
Proof.
  intros Hrun.
  destruct (mapM POL.parse_user_id table) as [ids|e] eqn:Hids.
  2:{ unfold POL.get_data in Hrun. rewrite Hids in Hrun. discriminate. }
  apply mapM_Ok_Forall2 in Hids.
  rewrite (get_data_unfold config table ids Hids) in Hrun.
  cbv zeta in Hrun. injection Hrun as _ <- <-.
  destruct (Forall2_zip_elem _ _ _ Hids) as (Hzip & Hcover & _).
  split.
  - apply Forall_forall. intros l Hl.
    assert (Hmerged : exists r, r ∈ zip table ids /\
              POL.row l = r.1 /\ POL.user_id_int l = r.2 /\
              (POL.outlier l = "outlier"%string /\ flagged config table r.1 \/
               POL.outlier l = "non outlier"%string /\ ~ flagged config table r.1) /\
              (POL.include_outliers config = false ->
               POL.outlier l <> "outlier"%string)).
    { destruct (POL.include_outliers config); cbn [negb] in Hl.
      - apply list_elem_of_In, in_flat_map in Hl as (r & Hr & Hl).
        apply list_elem_of_In in Hr, Hl. exists r. split; [exact Hr|].
        destruct (block_spec config table ids Hids r l Hr Hl) as (Ha & Hb & Hc).
        split; [exact Ha|]. split; [exact Hb|]. split; [exact Hc|]. discriminate.
      - apply list_elem_of_filter in Hl as [Hlabel Hl].
        apply list_elem_of_In, in_flat_map in Hl as (r & Hr & Hl).
        apply list_elem_of_In in Hr, Hl. exists r. split; [exact Hr|].
        destruct (block_spec config table ids Hids r l Hr Hl) as (Ha & Hb & Hc).
        split; [exact Ha|]. split; [exact Hb|]. split; [exact Hc|].
        intros _. exact Hlabel. }
    destruct Hmerged as ([row id] & Hr & Hrow & Hid & Hlabel & Hkept).
    cbn [fst snd] in *. destruct (Hzip row id Hr) as [Hin Hparse].
    rewrite Hrow, Hid. split; [exact Hin|]. split; [exact Hparse|].
    destruct Hlabel as [[Hout Hflag]|[Hout Hflag]]; [left|right; auto].
    split; [exact Hout|]. split; [exact Hflag|].
    destruct (POL.include_outliers config); [reflexivity|].
    exfalso. apply Hkept; [reflexivity|exact Hout].
  - intros r Hr Hkeep. destruct (Hcover r Hr) as [id Hrid].
    destruct (block_nonempty config table ids (r, id)) as (l & Hl & Hrow).
    exists l. split; [|exact Hrow].
    destruct (POL.include_outliers config) eqn:Hinc; cbn [negb].
    + apply list_elem_of_In, in_flat_map. exists (r, id).
      split; apply list_elem_of_In; assumption.
    + apply list_elem_of_filter. split.
      * destruct Hkeep as [?|Hnot]; [discriminate|].
        destruct (block_spec config table ids Hids (r, id) l Hrid Hl)
          as (_ & _ & [[_ Hflag]|[Hout _]]); [contradiction|].
        rewrite Hout. discriminate.
      * apply list_elem_of_In, in_flat_map. exists (r, id).
        split; apply list_elem_of_In; assumption.
Qed.

Lemma last_segment_Forall (P : ascii -> Prop) (acc cs : list ascii) :
  Forall P acc -> Forall P cs -> Forall P (POL.last_segment acc cs).
Proof.
  intros Hacc Hcs. revert acc Hacc.
  induction Hcs as [|c cs Hc _ IH]; intros acc Hacc; simpl.
  - rewrite Forall_forall in Hacc. apply Forall_forall. intros x Hx.
    apply Hacc. apply list_elem_of_In, in_rev in Hx.
    by apply list_elem_of_In.
  - destruct (Ascii.eqb c "_"); apply IH; [constructor | by constructor].
Qed.

Lemma int_of_string_errors (cs : list ascii) (e : pyerr) :
  POL.int_of_string cs = Raise e ->
  (e = Unsupported /\
   Exists (fun c => 128 <= Z.of_nat (nat_of_ascii c)) cs) \/
  ((e = ValueError \/ e = OverflowError) /\
   Forall (fun c => Z.of_nat (nat_of_ascii c) < 128) cs).
Proof.
  unfold POL.int_of_string.
  destruct (existsb _ cs) eqn:Hbeyond.
  - intros [= <-]. left. split; [reflexivity|].
    apply existsb_exists in Hbeyond as (c & Hin & Hc).
    apply Exists_exists. exists c. split; [by apply list_elem_of_In|lia].
  - intros Hrun. right. split.
    + destruct (match POL.strip cs with [] => _ | c :: r => _ end) as [neg ds].
      destruct ds; [injection Hrun as <-; auto|].
      destruct (POL.digits_value _ _); [|injection Hrun as <-; auto].
      destruct (int64 _); [discriminate|injection Hrun as <-; auto].
    + apply Forall_forall. intros c Hc.
      destruct (Z_lt_dec (Z.of_nat (nat_of_ascii c)) 128) as [?|Hge];
        [assumption|].
      assert (Htrue : existsb (fun c => 128 <=? Z.of_nat (nat_of_ascii c)) cs
                      = true).
      { apply existsb_exists. exists c.
        split; [by apply list_elem_of_In|lia]. }
      congruence.
Qed.

(** X13: [get_data] returns exactly when [astype(int)] reads every user
    id, that is when what follows its last underscore is, between white
    space, an optionally signed run of decimal digits whose value fits
    [int64].  On a table of ASCII user ids it raises otherwise
    [ValueError] or, for a value beyond [int64], [OverflowError], and
    nothing else. *)
Theorem pol_get_data_errors (config : POL.POLConfig) (table : list POL.Row) :
  (is_ok (POL.get_data config table) <->
     Forall (fun r => is_ok (POL.parse_user_id r)) table)
  /\ (Forall (fun r => ascii_text (POL.user_id r)) table ->
      forall e, POL.get_data config table = Raise e ->
                e = ValueError \/ e = OverflowError).
Proof.
  split.
  - split.
    + intros [[[config' data] outliers] Hrun]. unfold POL.get_data in Hrun.
      destruct (mapM POL.parse_user_id table) as [ids|e] eqn:Hids; [|discriminate].
      apply mapM_Ok_Forall2 in Hids. clear Hrun.
      induction Hids; constructor; eauto. eexists; eassumption.
    + intros Hall. destruct (mapM_Ok_total _ _ Hall) as [ids Hids].
      apply mapM_Ok_Forall2 in Hids.
      rewrite (get_data_unfold config table ids Hids). eexists. reflexivity.
  - intros Hascii e He. unfold POL.get_data in He.
    destruct (mapM POL.parse_user_id table) as [ids|e'] eqn:Hids; [discriminate|].
    injection He as <-.
    apply mapM_Raise_inv, Exists_exists in Hids as (r & Hin & Hr).
    rewrite Forall_forall in Hascii. specialize (Hascii r Hin).
    unfold POL.parse_user_id in Hr.
    apply int_of_string_errors in Hr as [[_ Hbeyond]|[He _]]; [|exact He].
    exfalso. apply Exists_exists in Hbeyond as (c & Hc & Hge).
    pose proof (last_segment_Forall _ [] _ (Forall_nil_2 _) Hascii) as Hseg.
    rewrite Forall_forall in Hseg. specialize (Hseg c Hc). simpl in Hseg. lia.
Qed.

(** ** Partitions *)

Lemma slice_split {A} (l : list A) (k : Z) :
  slice l None (Some k) ++ slice l (Some k) None = l.
Proof.
  unfold slice, default, id. cbn [from_option].
  set (n := len l).
  assert (Hn : 0 <= n) by (unfold n, len; lia).
  assert (Hc : 0 <= clamp n k <= n).
  { unfold clamp. destruct (k <? 0) eqn:Hk; lia. }
  assert (H0 : clamp n 0 = 0).
  { unfold clamp. simpl. lia. }
  assert (Hnn : clamp n n = n).
  { unfold clamp. destruct (n <? 0) eqn:Hk; lia. }
  rewrite H0, Hnn, Z.sub_0_r. change (Z.to_nat 0) with 0%nat. rewrite drop_0.
  rewrite (take_ge (drop (Z.to_nat (clamp n k)) l)).
  - apply take_drop.
  - rewrite length_drop. unfold n, len in *. lia.
Qed.

Lemma slice_prefix_len {A} (l : list A) (k : Z) :
  0 <= k <= len l -> len (slice l None (Some k)) = k.
Proof.
  intros Hk. unfold slice, default, id. cbn [from_option].
  assert (H0 : clamp (len l) 0 = 0).
  { unfold clamp. simpl. unfold len. lia. }
  assert (Hc : clamp (len l) k = k).
  { unfold clamp. destruct (k <? 0) eqn:E; lia. }
  rewrite H0, Hc, Z.sub_0_r. change (Z.to_nat 0) with 0%nat. rewrite drop_0.
  unfold len in *. rewrite length_take. lia.
Qed.

(** X14.  [partition_dataset] splits the positions of the dataset: the
    training and the validation indices together are an arrangement of
    [0 .. len - 1], each position in exactly one of the two, whatever the
    proportion; the training part has [int(len * proportion)] indices
    when that number lies between 0 and the length. *)
Theorem partition_dataset_covers `{Permuter} {A} (data : list A)
    (proportion : float) (seed : Z) g train val g' :
  Porto.partition_dataset data proportion seed g = Ok ((train, val), g') ->
  train ++ val ≡ₚ seqZ 0 (len data) /\
  NoDup (train ++ val) /\
  (forall i, 0 <= i < len data <-> i ∈ train \/ i ∈ val) /\
  exists train_num,
    int_mul_float (len data) proportion = Ok train_num /\
    (0 <= train_num <= len data ->
     len train = train_num /\ len val = len data - train_num).
Proof.
  unfold Porto.partition_dataset. intros Hrun.
  apply bind_Ok_inv in Hrun as (u & g1 & _ & Hrun).
  apply bind_Ok_inv in Hrun as (train_num & g2 & Hnum & Hrun).
  apply lift_Ok_inv in Hnum as [Hnum ->].
  apply bind_Ok_inv in Hrun as (indices & g3 & Hperm & Hrun).
  unfold permutation in Hperm. unfold ret in Hrun.
  injection Hrun as <- <- _.
  assert (Hind : indices ≡ₚ seqZ 0 (len data)).
  { pose proof (next_permutation_perm (len data) g1) as Hp.
    injection Hperm as Hp1. rewrite Hp1 in Hp. exact Hp. }
  rewrite slice_split.
  split; [exact Hind|]. split.
  { rewrite Hind. apply NoDup_seqZ. }
  split.
  { intros i. rewrite <- elem_of_app, slice_split, Hind, elem_of_seqZ. lia. }
  exists train_num. split; [exact Hnum|]. intros Hk.
  assert (Hlen : len indices = len data).
  { unfold len. rewrite Hind, length_seqZ. unfold len. lia. }
  assert (Hpre : len (slice indices None (Some train_num)) = train_num).
  { apply slice_prefix_len. lia. }
  split; [exact Hpre|].
  pose proof (f_equal length (slice_split indices train_num)) as Hsum.
  rewrite length_app in Hsum. unfold len in *. lia.
Qed.

(** ** Reading back what [str] wrote *)

Lemma chars_app (s t : string) :
  list_ascii_of_string (s +:+ t)
  = list_ascii_of_string s ++ list_ascii_of_string t.
Proof. induction s as [|c s IH]; simpl; [reflexivity | by rewrite IH]. Qed.

Lemma pretty_N_go_app (x : N) (s t : string) :
  pretty_N_go x s +:+ t = pretty_N_go x (s +:+ t).
Proof.
  revert s. induction (N.lt_wf_0 x) as [x _ IH]; intros s.
  assert (x = 0 \/ 0 < x)%N as [->|Hx] by lia.
  - by rewrite !pretty_N_go_0.
  - rewrite (pretty_N_go_step x s), (pretty_N_go_step x (s +:+ t)) by done.
    rewrite IH by (by apply N.div_lt). reflexivity.
Qed.

Lemma digit_char (d : N) :
  (d < 10)%N ->
  digit_of (pretty_N_char d) = Some (Z.of_N d) /\
  (forall neg, lex_step (start_mode neg) (pretty_N_char d)
               = Some ([], InInt neg (Some (Z.of_N d, Z.of_N d =? 0)))) /\
  plain (pretty_N_char d).
Proof.
  intros Hd.
  assert (d = 0 \/ d = 1 \/ d = 2 \/ d = 3 \/ d = 4 \/ d = 5 \/ d = 6
          \/ d = 7 \/ d = 8 \/ d = 9)%N as Hcases by lia.
  repeat destruct Hcases as [->|Hcases]; try subst d;
    (split; [reflexivity | split; [intros []; reflexivity | split; reflexivity]]).
Qed.

Lemma lex_silent (m m' : lex_mode) (c : ascii) (r : list ascii) :
  lex_step m c = Some ([], m') -> lex m (c :: r) = lex m' r.
Proof. intros Hstep. simpl. rewrite Hstep. by destruct (lex m' r). Qed.

(** The digits [str] writes for a positive number bring the lexer to that
    number. *)
Lemma lex_digits (neg : bool) (x : N) (s : string) :
  (0 < x)%N ->
  lex (start_mode neg) (list_ascii_of_string (pretty_N_go x s))
  = lex (InInt neg (Some (Z.of_N x, false))) (list_ascii_of_string s).
Proof.
  revert s. induction (N.lt_wf_0 x) as [x _ IH]; intros s Hx.
  rewrite pretty_N_go_step by done.
  pose proof (digit_char (x `mod` 10)%N) as (Hdig & Hstart & _).
  { apply N.mod_lt. lia. }
  assert (Hsplit : Z.of_N x = 10 * Z.of_N (x `div` 10) + Z.of_N (x `mod` 10)).
  { rewrite <- (N2Z.inj_mul 10), <- N2Z.inj_add. f_equal.
    apply N.div_mod. lia. }
  destruct (N.eq_0_gt_0_cases (x `div` 10)) as [Hq|Hq].
  - rewrite Hq, pretty_N_go_0. simpl list_ascii_of_string.
    rewrite (lex_silent _ _ _ _ (Hstart neg)).
    rewrite Hq in Hsplit. rewrite Hsplit. simpl Z.mul. rewrite Z.add_0_l.
    assert (Hnz : (Z.of_N (x `mod` 10) =? 0) = false).
    { apply Z.eqb_neq. lia. }
    rewrite Hnz. reflexivity.
  - rewrite IH by (done || by apply N.div_lt). simpl list_ascii_of_string.
    rewrite (lex_silent _ (InInt neg (Some (Z.of_N x, false)))); [reflexivity|].
    simpl. rewrite Hdig, Hsplit. reflexivity.
Qed.

(** A number being read ends at a character that is no digit. *)
Lemma lex_number_ends (neg : bool) (n : Z) (lead0 : bool) (cs : list ascii) :
  match cs with [] => True | c :: _ => digit_of c = None end ->
  lex (InInt neg (Some (n, lead0))) cs
  = cons (TInt (if neg then - n else n)) <$> lex Idle cs.
Proof.
  destruct cs as [|c r]; intros Hc; [reflexivity|].
  simpl. rewrite Hc. destruct (idle_step c) as [[ts m']|]; [|reflexivity].
  destruct (lex m' r); reflexivity.
Qed.

Lemma pretty_pos (p : positive) : pretty (Z.pos p) = pretty_N_go (N.pos p) "".
Proof. reflexivity. Qed.

Lemma pretty_neg (p : positive) :
  pretty (Z.neg p) = "-" +:+ pretty_N_go (N.pos p) "".
Proof. reflexivity. Qed.

(** [eval] reads the text of an int as that int. *)
Lemma lex_pretty (z : Z) (s : string) :
  match list_ascii_of_string s with
  | [] => True
  | c :: _ => digit_of c = None
  end ->
  lex Idle (list_ascii_of_string (pretty z +:+ s))
  = cons (TInt z) <$> lex Idle (list_ascii_of_string s).
Proof.
  intros Hs. destruct z as [|p|p].
  - change (pretty 0) with "0"%string. simpl list_ascii_of_string.
    rewrite (lex_silent Idle (InInt false (Some (0, true)))) by reflexivity.
    by rewrite lex_number_ends.
  - rewrite pretty_pos, pretty_N_go_app. simpl append.
    rewrite (lex_digits false) by lia.
    by rewrite lex_number_ends.
  - rewrite pretty_neg.
    change (("-" +:+ pretty_N_go (N.pos p) "") +:+ s)
      with (String "-" (pretty_N_go (N.pos p) "" +:+ s)).
    rewrite pretty_N_go_app.
    change (list_ascii_of_string (String "-" ?t))
      with ("-"%char :: list_ascii_of_string t).
    rewrite (lex_silent Idle (InInt true None)) by reflexivity.
    simpl append.
    rewrite (lex_digits true) by lia.
    by rewrite lex_number_ends.
Qed.

Lemma string_app_assoc (s t u : string) : (s +:+ t) +:+ u = s +:+ (t +:+ u).
Proof.
  induction s as [|c s IH]; [reflexivity|].
  change (String c (s +:+ t) +:+ u = String c s +:+ (t +:+ u)).
  change (String c ((s +:+ t) +:+ u) = String c (s +:+ (t +:+ u))).
  by rewrite IH.
Qed.

Lemma concat_cons2 (sep x y : string) (r : list string) :
  String.concat sep (x :: y :: r) = x +:+ sep +:+ String.concat sep (y :: r).
Proof. reflexivity. Qed.

(** The text between the brackets, and the closing bracket. *)
Lemma lex_items (traj : list Z) :
  lex Idle (list_ascii_of_string
              (String.concat ", " (map pretty traj) +:+ "]"))
  = Some (list_tokens traj).
Proof.
  induction traj as [|x r IH]; [reflexivity|].
  destruct r as [|y r].
  - change (String.concat ", " (map pretty [x])) with (pretty x).
    rewrite lex_pretty by reflexivity. reflexivity.
  - change (map pretty (x :: y :: r))
      with (pretty x :: pretty y :: map pretty r).
    rewrite concat_cons2.
    change (map pretty (y :: r)) with (pretty y :: map pretty r) in IH.
    set (rest := String.concat ", " (pretty y :: map pretty r)) in *.
    replace ((pretty x +:+ ", " +:+ rest) +:+ "]")
      with (pretty x +:+ (", " +:+ (rest +:+ "]"))).
    2:{ rewrite !string_app_assoc. reflexivity. }
    rewrite lex_pretty by reflexivity.
    change (list_ascii_of_string (", " +:+ (rest +:+ "]")))
      with (","%char :: " "%char :: list_ascii_of_string (rest +:+ "]")).
    change (list_tokens (x :: y :: r))
      with (TInt x :: TComma :: list_tokens (y :: r)).
    cbn [lex lex_step]. change (idle_step ",") with (Some ([TComma], Idle)).
    cbn iota beta. cbn [lex_step].
    change (idle_step " ") with (Some (@nil token, Idle)).
    cbn iota beta. rewrite IH. reflexivity.
Qed.

Lemma parse_list_tokens (st : parse_state) (traj : list Z) :
  st <> PAfterElem ->
  parse_items st (list_tokens traj) = Some (map PInt traj).
Proof.
  revert st. induction traj as [|x r IH]; intros st Hst.
  - by destruct st.
  - assert (Htail : parse_items PAfterElem
                      match r with
                      | [] => [TRBr]
                      | _ :: _ => TComma :: list_tokens r
                      end = Some (map PInt r)).
    { destruct r as [|y r]; [reflexivity|].
      change (parse_items PAfterElem (TComma :: list_tokens (y :: r)))
        with (parse_items PAfterComma (list_tokens (y :: r))).
      apply IH. discriminate. }
    change (list_tokens (x :: r))
      with (TInt x :: match r with
                      | [] => [TRBr]
                      | _ :: _ => TComma :: list_tokens r
                      end).
    destruct st; [| congruence |]; cbn [parse_items]; rewrite Htail;
      reflexivity.
Qed.

Lemma chomp_newline (s : string) : chomp (s +:+ String newline "") = s.
Proof.
  induction s as [|c s IH]; [reflexivity|].
  change (String c s +:+ String newline "")
    with (String c (s +:+ String newline "")).
  destruct s as [|c' s]; [reflexivity|].
  change (chomp (String c (String c' s +:+ String newline "")))
    with (String c (chomp (String c' s +:+ String newline ""))).
  by rewrite IH.
Qed.

Lemma mapM_ints (traj : list Z) :
  mapM (fun v => match v with
                 | PInt z => Ok z
                 | PStr _ => Raise Unsupported
                 end) (map PInt traj) = Ok traj.
Proof.
  induction traj as [|x r IH]; [reflexivity|].
  change (map PInt (x :: r)) with (PInt x :: map PInt r).
  rewrite mapM_cons, IH. reflexivity.
Qed.

(** [eval] gives back the list whose text [f"{traj}\n"] is. *)
Lemma eval_line_of (traj : list Z) :
  eval_line (Porto.line_of traj) = Ok traj.
Proof.
  unfold eval_line, Porto.line_of.
  replace ("[" +:+ String.concat ", " (map pretty traj) +:+ "]" +:+
           String (ascii_of_nat 10) "")
    with (("[" +:+ String.concat ", " (map pretty traj) +:+ "]") +:+
          String newline "").
  2:{ rewrite !string_app_assoc. reflexivity. }
  rewrite chomp_newline. unfold eval_list.
  change (list_ascii_of_string
            ("[" +:+ String.concat ", " (map pretty traj) +:+ "]"))
    with ("["%char :: list_ascii_of_string
                        (String.concat ", " (map pretty traj) +:+ "]")).
  cbn [lex lex_step]. change (idle_step "[") with (Some ([TLBr], Idle)).
  cbn iota beta. rewrite lex_items. cbn [app].
  rewrite parse_list_tokens by discriminate.
  rewrite bind_Ok. apply mapM_ints.
Qed.

Lemma plain_pretty_N_go (x : N) (s : string) :
  Forall plain (list_ascii_of_string s) ->
  Forall plain (list_ascii_of_string (pretty_N_go x s)).
Proof.
  revert s. induction (N.lt_wf_0 x) as [x _ IH]; intros s Hs.
  destruct (N.eq_0_gt_0_cases x) as [->|Hx].
  - by rewrite pretty_N_go_0.
  - rewrite pretty_N_go_step by done. apply IH.
    + apply N.div_lt; [done | reflexivity].
    + simpl. constructor; [|exact Hs].
      apply digit_char, N.mod_lt. discriminate.
Qed.

Lemma plain_pretty (z : Z) : Forall plain (list_ascii_of_string (pretty z)).
Proof.
  destruct z as [|p|p].
  - repeat constructor.
  - rewrite pretty_pos. apply plain_pretty_N_go. constructor.
  - rewrite pretty_neg.
    change (list_ascii_of_string ("-" +:+ pretty_N_go (N.pos p) ""))
      with ("-"%char :: list_ascii_of_string (pretty_N_go (N.pos p) "")).
    constructor; [by split|]. apply plain_pretty_N_go. constructor.
Qed.

Lemma plain_items (traj : list Z) :
  Forall plain
    (list_ascii_of_string (String.concat ", " (map pretty traj))).
Proof.
  induction traj as [|x r IH]; [constructor|].
  destruct r as [|y r].
  - apply plain_pretty.
  - change (map pretty (x :: y :: r))
      with (pretty x :: pretty y :: map pretty r).
    rewrite concat_cons2, !chars_app.
    apply Forall_app. split; [apply plain_pretty|].
    apply Forall_app. split; [|exact IH].
    repeat constructor.
Qed.

Lemma line_of_chars (traj : list Z) :
  exists body, Forall plain body /\
    list_ascii_of_string (Porto.line_of traj) = body ++ [newline].
Proof.
  exists ("["%char :: list_ascii_of_string
                        (String.concat ", " (map pretty traj)) ++ ["]"%char]).
  split.
  - constructor; [by split|]. apply Forall_app.
    split; [apply plain_items | repeat constructor].
  - unfold Porto.line_of. rewrite !chars_app. simpl.
    by rewrite <- app_assoc.
Qed.

Lemma universal_newlines_plain (body rest : list ascii) :
  Forall plain body ->
  universal_newlines (body ++ newline :: rest)
  = body ++ newline :: universal_newlines rest.
Proof.
  induction 1 as [|c body [_ Hc] _ IH]; [reflexivity|].
  change (universal_newlines ((c :: body) ++ newline :: rest))
    with (if Ascii.eqb c carriage_return
          then newline :: match body ++ newline :: rest with
                          | c' :: r' => if Ascii.eqb c' newline
                                        then universal_newlines r'
                                        else universal_newlines
                                               (body ++ newline :: rest)
                          | [] => []
                          end
          else c :: universal_newlines (body ++ newline :: rest)).
  rewrite Hc, IH. reflexivity.
Qed.

Lemma readlines_from_line (acc body rest : list ascii) :
  Forall plain body ->
  readlines_from acc (body ++ newline :: rest)
  = string_of_list_ascii (rev acc ++ body ++ [newline])
    :: readlines_from [] rest.
Proof.
  intros Hbody. revert acc.
  induction Hbody as [|c body [Hc _] _ IH]; intros acc.
  - reflexivity.
  - change (readlines_from acc ((c :: body) ++ newline :: rest))
      with (if Ascii.eqb c newline
            then string_of_list_ascii (rev (c :: acc))
                 :: readlines_from [] (body ++ newline :: rest)
            else readlines_from (c :: acc) (body ++ newline :: rest)).
    rewrite Hc, IH. simpl. by rewrite <- app_assoc.
Qed.

Lemma file_of_cons (traj : list Z) (values : list (list Z)) :
  Porto.file_of (traj :: values)
  = Porto.line_of traj +:+ Porto.file_of values.
Proof.
  unfold Porto.file_of. destruct values as [|v values].
  - simpl. induction (Porto.line_of traj) as [|c s IH]; [reflexivity|].
    change (String c s = String c (s +:+ "")). by rewrite <- IH.
  - change (map Porto.line_of (traj :: v :: values))
      with (Porto.line_of traj :: Porto.line_of v
            :: map Porto.line_of values).
    rewrite concat_cons2. reflexivity.
Qed.

(** The lines of the file [generate_outliers] writes for a key are the
    lines it wrote, and [eval] gives back the trajectories. *)
Lemma readlines_file_of (values : list (list Z)) :
  readlines (Porto.file_of values) = map Porto.line_of values.
Proof.
  unfold readlines. induction values as [|traj values IH]; [reflexivity|].
  rewrite file_of_cons, chars_app.
  destruct (line_of_chars traj) as (body & Hbody & Hline).
  rewrite Hline, <- app_assoc. simpl app.
  rewrite universal_newlines_plain, readlines_from_line by done.
  rewrite IH. simpl. rewrite <- Hline, string_of_list_ascii_of_string.
  reflexivity.
Qed.

Lemma parsed_lines_file_of (values : list (list Z)) :
  parsed_lines (Porto.file_of values) = Ok values.
Proof.
  unfold parsed_lines. rewrite readlines_file_of.
  induction values as [|traj values IH]; [reflexivity|].
  change (map Porto.line_of (traj :: values))
    with (Porto.line_of traj :: map Porto.line_of values).
  rewrite mapM_cons, eval_line_of, bind_Ok, IH. reflexivity.
Qed.

(** ** The taxi dataset: items *)

Lemma index_in_range {A} (l : list A) (i : Z) :
  - len l <= i < len l -> exists x, index l i = Ok x /\ x ∈ l.
Proof.
  intros Hi. unfold index.
  set (j := if i <? 0 then i + len l else i).
  assert (Hj : 0 <= j < len l).
  { unfold j. destruct (i <? 0) eqn:E; lia. }
  destruct (j <? 0) eqn:E; [lia|].
  destruct (lookup_lt_is_Some_2 l (Z.to_nat j)) as [x Hx].
  { unfold len in Hj. lia. }
  rewrite Hx. exists x. split; [reflexivity|].
  exact (list_elem_of_lookup_2 _ _ _ Hx).
Qed.

Lemma index_out_of_range {A} (l : list A) (i : Z) :
  ~ (- len l <= i < len l) -> index l i = Raise IndexError.
Proof.
  intros Hi. unfold index.
  set (j := if i <? 0 then i + len l else i).
  destruct (j <? 0) eqn:E; [reflexivity|].
  assert (Hj : len l <= j).
  { unfold j in *. destruct (i <? 0) eqn:E'; lia. }
  rewrite (lookup_ge_None_2 l (Z.to_nat j)); [reflexivity|].
  unfold len in Hj. lia.
Qed.

(** X15.  [__getitem__] of the taxi dataset answers exactly the indices
    [-len .. len - 1] (negative ones counting from the end) and raises
    [IndexError] on every other; the sample is the stored trajectory
    between ["SOT"] and ["EOT"], two symbols longer than the trajectory. *)
Theorem porto_getitem_bounds (data : list (list Z)) (metadata : list string)
    (i : Z) :
  length metadata = length data ->
  (- len data <= i < len data ->
   exists traj label,
     index data i = Ok traj /\ index metadata i = Ok label /\
     Porto.getitem data metadata i
       = Ok (PStr "SOT" :: map PInt traj ++ [PStr "EOT"], label) /\
     len (PStr "SOT" :: map PInt traj ++ [PStr "EOT"]) = len traj + 2) /\
  (~ (- len data <= i < len data) ->
   Porto.getitem data metadata i = Raise IndexError).
Proof.
  intros Hlen. unfold Porto.getitem. split.
  - intros Hi.
    destruct (index_in_range data i Hi) as (traj & Htraj & _).
    destruct (index_in_range metadata i) as (label & Hlabel & _).
    { unfold len in *. lia. }
    exists traj, label. rewrite Htraj, Hlabel.
    split; [reflexivity|]. split; [reflexivity|]. split; [reflexivity|].
    unfold len. simpl. rewrite length_app, length_map. simpl. lia.
  - intros Hi. rewrite (index_out_of_range data i Hi). reflexivity.
Qed.

(** ** The taxi dataset: loading *)

Lemma loaded_bind_Loaded {A B} (a : A) (f : A -> Porto.loaded B) :
  Porto.Loaded a ≫= f = f a.
Proof. reflexivity. Qed.

Lemma elem_of_accepted_outliers longest outliers traj label :
  (traj, label) ∈ accepted_outliers longest outliers <->
  exists key vals, (key, vals) ∈ outliers /\ traj ∈ vals /\
                   len traj <= longest /\ label = Porto.label_of key.
Proof.
  unfold accepted_outliers.
  rewrite list_elem_of_In, in_flat_map. split.
  - intros ([key vals] & Hkv & Hin). simpl in Hin.
    apply in_map_iff in Hin as (t & [= -> <-] & Hin).
    apply list_elem_of_In, list_elem_of_filter in Hin as [Hle Hin].
    exists key, vals. rewrite list_elem_of_In. auto.
  - intros (key & vals & Hkv & Hin & Hle & ->).
    exists (key, vals). rewrite <- list_elem_of_In. split; [exact Hkv|].
    simpl. apply in_map_iff. exists traj. split; [reflexivity|].
    apply list_elem_of_In, list_elem_of_filter. auto.
Qed.

Lemma label_of_cases (key : string) :
  Porto.label_of key = "route switch outlier"%string \/
  Porto.label_of key = "detour outlier"%string \/
  Porto.label_of key = ""%string.
Proof. unfold Porto.label_of. repeat case_decide; auto. Qed.

Lemma label_of_outlier (key : string) :
  Porto.label_of key <> "non outlier"%string.
Proof.
  intros Heq.
  destruct (label_of_cases key) as [Hl|[Hl|Hl]]; rewrite Hl in Heq;
    discriminate.
Qed.

Section PortoLoading.
Variable format_float : float -> string.
Variable data_dir : string.

Local Abbreviation outlier_file := (Porto.outlier_file format_float data_dir).
Local Abbreviation load := (load_outlier format_float data_dir).
Local Abbreviation get_outliers_from :=
  (Porto.get_outliers_from format_float data_dir).
Local Abbreviation get_outliers := (Porto.get_outliers format_float data_dir).
Local Abbreviation get_data := (Porto.get_data format_float data_dir).

Lemma load_outlier_parsed config fs t :
  load config fs t =
  match dict_get fs (outlier_file config t) with
  | Some text => Porto.of_result (parsed_lines text)
  | None => Porto.Failed (Porto.FileNotFoundError (outlier_file config t))
  end.
Proof.
  unfold load_outlier, Porto.open_readlines, parsed_lines.
  destruct (dict_get fs _); reflexivity.
Qed.

Lemma get_outliers_from_step config fs acc t rest :
  get_outliers_from config fs acc (t :: rest) =
  match load config fs t with
  | Porto.Loaded trajs =>
      get_outliers_from config fs (dict_set acc t trajs) rest
  | Porto.Failed (Porto.PyError Unsupported) =>
      Porto.Failed (Porto.PyError Unsupported)
  | Porto.Failed _ => Porto.Failed (Porto.CannotBeFound (outlier_file config t))
  end.
Proof. reflexivity. Qed.

Lemma get_outliers_from_spec config fs types acc r :
  get_outliers_from config fs acc types = Porto.Loaded r ->
  NoDup (map fst acc) ->
  NoDup (map fst r) /\
  forall t,
    (t ∈ types -> exists trajs, load config fs t = Porto.Loaded trajs /\
                                dict_get r t = Some trajs) /\
    (t ∉ types -> dict_get r t = dict_get acc t).
Proof.
  revert acc. induction types as [|t0 rest IH]; intros acc Hrun Hnd.
  - injection Hrun as <-. split; [exact Hnd|]. intros t. split.
    + intros Hin. inversion Hin.
    + reflexivity.
  - rewrite get_outliers_from_step in Hrun.
    destruct (load config fs t0) as [trajs0|[path|file|[]]] eqn:Hload;
      try discriminate.
    destruct (IH _ Hrun (dict_set_NoDup _ _ _ Hnd)) as [Hnd' Hall].
    split; [exact Hnd'|]. intros t. split.
    + intros Hin. destruct (decide (t ∈ rest)) as [Hrest|Hrest].
      * exact (proj1 (Hall t) Hrest).
      * apply elem_of_cons in Hin as [->|Hin]; [|contradiction].
        exists trajs0. split; [exact Hload|].
        rewrite (proj2 (Hall t0) Hrest), dict_get_set.
        by rewrite decide_True.
    + intros Hnot. apply not_elem_of_cons in Hnot as [Hne Hrest].
      rewrite (proj2 (Hall t) Hrest), dict_get_set.
      by rewrite decide_False.
Qed.

Lemma get_outliers_from_total config fs types acc :
  Forall (fun t => exists trajs, load config fs t = Porto.Loaded trajs) types ->
  exists r, get_outliers_from config fs acc types = Porto.Loaded r.
Proof.
  intros Hall. revert acc.
  induction Hall as [|t0 rest [trajs Hload] _ IH]; intros acc.
  - exists acc. reflexivity.
  - rewrite get_outliers_from_step, Hload. apply IH.
Qed.

Lemma get_outliers_from_missing config fs pre t post acc e :
  Forall (fun t => exists trajs, load config fs t = Porto.Loaded trajs) pre ->
  load config fs t = Porto.Failed e -> e <> Porto.PyError Unsupported ->
  get_outliers_from config fs acc (pre ++ t :: post)
  = Porto.Failed (Porto.CannotBeFound (outlier_file config t)).
Proof.
  intros Hpre Hload He. revert acc.
  induction Hpre as [|t0 rest [trajs Hload0] _ IH]; intros acc.
  - simpl app. rewrite get_outliers_from_step, Hload.
    destruct e as [path|file|[]]; try reflexivity. contradiction.
  - change ((t0 :: rest) ++ t :: post) with (t0 :: (rest ++ t :: post)).
    rewrite get_outliers_from_step, Hload0. apply IH.
Qed.

(** X16.  The dict [get_outliers] returns has one key for each outlier
    type of [outliers_list], also for a type listed twice, and no other;
    the value of a key is what the lines of the file of that type
    evaluate to. *)
Theorem get_outliers_keys (config : Porto.PortoConfig) (fs : Porto.files)
    (outliers : list (string * list (list Z))) :
  get_outliers config fs = Porto.Loaded outliers ->
  NoDup (map fst outliers) /\
  (forall t, t ∈ map fst outliers <-> t ∈ Porto.outliers_list config) /\
  (forall t trajs, (t, trajs) ∈ outliers ->
     exists text, dict_get fs (outlier_file config t) = Some text /\
                  parsed_lines text = Ok trajs).
Proof.
  unfold Porto.get_outliers. intros Hrun.
  destruct (get_outliers_from_spec _ _ _ _ _ Hrun) as [Hnd Hall];
    [constructor|].
  split; [exact Hnd|]. split.
  - intros t. split.
    + intros Hin. destruct (decide (t ∈ Porto.outliers_list config)) as [?|Hnot];
        [assumption|].
      apply list_elem_of_In, in_map_iff in Hin as ([t' trajs] & Ht & Hin).
      simpl in Ht. subst t'. apply list_elem_of_In in Hin.
      destruct (dict_get_elem_Some _ _ _ Hin) as [v Hv].
      rewrite (proj2 (Hall t) Hnot) in Hv. discriminate.
    + intros Hin. destruct (proj1 (Hall t) Hin) as (trajs & _ & Hget).
      apply dict_get_Some_elem in Hget.
      apply list_elem_of_In, in_map_iff. exists (t, trajs).
      split; [reflexivity|]. by apply list_elem_of_In.
  - intros t trajs Hin.
    assert (Ht : t ∈ Porto.outliers_list config).
    { destruct (decide (t ∈ Porto.outliers_list config)) as [?|Hnot];
        [assumption|].
      destruct (dict_get_elem_Some _ _ _ Hin) as [v Hv].
      rewrite (proj2 (Hall t) Hnot) in Hv. discriminate. }
    destruct (proj1 (Hall t) Ht) as (trajs' & Hload & Hget).
    rewrite (dict_get_NoDup_elem _ _ _ Hnd Hin) in Hget.
    injection Hget as <-.
    rewrite load_outlier_parsed in Hload.
    destruct (dict_get fs (outlier_file config t)) as [text|]; [|discriminate].
    exists text. split; [reflexivity|].
    destruct (parsed_lines text); [|discriminate].
    by injection Hload as ->.
Qed.

Lemma get_outliers_from_block_size config config' fs types acc :
  Porto.outlier_level config' = Porto.outlier_level config ->
  Porto.outlier_prob config' = Porto.outlier_prob config ->
  Porto.outlier_ratio config' = Porto.outlier_ratio config ->
  get_outliers_from config' fs acc types
  = get_outliers_from config fs acc types.
Proof.
  intros Hlevel Hprob Hratio. revert acc.
  assert (Hload : forall t, load config' fs t = load config fs t).
  { intros t. unfold load_outlier, Porto.outlier_file.
    by rewrite Hlevel, Hprob, Hratio. }
  assert (Hfile : forall t, outlier_file config' t = outlier_file config t).
  { intros t. unfold Porto.outlier_file. by rewrite Hlevel, Hprob, Hratio. }
  induction types as [|t rest IH]; intros acc; [reflexivity|].
  rewrite !get_outliers_from_step, Hload, Hfile.
  destruct (load config fs t) as [trajs|[path|file|[]]];
    [apply IH | reflexivity..].
Qed.

Lemma map_constant_replicate {A B} (b : B) (l : list A) :
  map (fun _ => b) l = replicate (length l) b.
Proof. induction l as [|x l IH]; simpl; [reflexivity | by rewrite IH]. Qed.

(** What a successful [get_data] went through. *)
Lemma get_data_Loaded_inv config fs file_path config' trajs labels :
  get_data config fs file_path = Porto.Loaded (config', (trajs, labels)) ->
  exists text raw longest accepted,
    dict_get fs file_path = Some text /\
    parsed_lines text = Ok raw /\
    max_of (map len raw) = Ok longest /\
    config' = {| Porto.grip_size := Porto.grip_size config;
                 Porto.block_size := longest + 2;
                 Porto.outlier_level := Porto.outlier_level config;
                 Porto.outlier_prob := Porto.outlier_prob config;
                 Porto.outlier_ratio := Porto.outlier_ratio config;
                 Porto.outliers_list := Porto.outliers_list config;
                 Porto.include_outliers := Porto.include_outliers config |} /\
    trajs = raw ++ map fst accepted /\
    labels = replicate (length raw) "non outlier"%string ++ map snd accepted /\
    if Porto.include_outliers config
    then exists outliers,
           get_outliers config fs = Porto.Loaded outliers /\
           accepted = accepted_outliers (Porto.block_size config' - 2) outliers
    else accepted = [].
Proof.
  unfold Porto.get_data, Porto.open_readlines. intros Hrun.
  destruct (dict_get fs file_path) as [text|]; [|discriminate].
  rewrite loaded_bind_Loaded in Hrun.
  fold (parsed_lines text) in Hrun.
  destruct (parsed_lines text) as [raw|e] eqn:Hraw; [|discriminate].
  cbn [Porto.of_result] in Hrun. rewrite loaded_bind_Loaded in Hrun.
  destruct (max_of (map len raw)) as [longest|e] eqn:Hmax; [|discriminate].
  cbn [Porto.of_result] in Hrun. rewrite loaded_bind_Loaded in Hrun.
  cbv zeta in Hrun. cbn [Porto.include_outliers] in Hrun.
  exists text, raw, longest.
  destruct (Porto.include_outliers config) eqn:Hinc.
  - unfold Porto.get_outliers in Hrun. cbn [Porto.outliers_list] in Hrun.
    rewrite (get_outliers_from_block_size config) in Hrun by reflexivity.
    destruct (get_outliers_from config fs [] (Porto.outliers_list config))
      as [outliers|e] eqn:Hout; [|discriminate].
    rewrite loaded_bind_Loaded in Hrun. injection Hrun as <- <- <-.
    exists (accepted_outliers (longest + 2 - 2) outliers).
    split; [reflexivity|]. split; [exact Hraw|]. split; [exact Hmax|].
    split; [reflexivity|]. split; [reflexivity|].
    split; [by rewrite map_constant_replicate|].
    exists outliers. split; [exact Hout | reflexivity].
  - injection Hrun as <- <- <-. exists [].
    split; [reflexivity|]. split; [exact Hraw|]. split; [exact Hmax|].
    split; [reflexivity|]. split; [by rewrite app_nil_r|].
    split; [by rewrite map_constant_replicate, app_nil_r | reflexivity].
Qed.

Lemma getitem_in_range (data : list (list Z)) (metadata : list string) i :
  length metadata = length data -> - len data <= i < len data ->
  exists traj label,
    traj ∈ data /\
    Porto.getitem data metadata i
      = Ok (PStr "SOT" :: map PInt traj ++ [PStr "EOT"], label).
Proof.
  intros Hlen Hi. unfold Porto.getitem.
  destruct (index_in_range data i Hi) as (traj & Htraj & Hin).
  destruct (index_in_range metadata i) as (label & Hlabel & _).
  { unfold len in *. lia. }
  exists traj, label. rewrite Htraj, Hlabel. split; [exact Hin | reflexivity].
Qed.

(** X17.  After [get_data], [block_size] is the length of the longest
    trajectory of the data file plus two, and everything the dataset
    then serves fits it: every trajectory kept, outliers included, has at
    most [block_size - 2] points, so that every item [__getitem__]
    returns has at most [block_size] symbols.  There are as many labels
    as trajectories, and every other field of the configuration is
    unchanged. *)
Theorem porto_get_data_block_size (config : Porto.PortoConfig)
    (fs : Porto.files) (file_path : string) config' trajs labels :
  get_data config fs file_path = Porto.Loaded (config', (trajs, labels)) ->
  (exists text raw,
      dict_get fs file_path = Some text /\ parsed_lines text = Ok raw /\
      (exists traj, traj ∈ raw /\ Porto.block_size config' = len traj + 2) /\
      Forall (fun traj => len traj + 2 <= Porto.block_size config') raw) /\
  length labels = length trajs /\
  Forall (fun traj => len traj + 2 <= Porto.block_size config') trajs /\
  (forall i, - len trajs <= i < len trajs ->
     exists sample label,
       Porto.getitem trajs labels i = Ok (sample, label) /\
       len sample <= Porto.block_size config') /\
  Porto.grip_size config' = Porto.grip_size config /\
  Porto.outlier_level config' = Porto.outlier_level config /\
  Porto.outlier_prob config' = Porto.outlier_prob config /\
  Porto.outlier_ratio config' = Porto.outlier_ratio config /\
  Porto.outliers_list config' = Porto.outliers_list config /\
  Porto.include_outliers config' = Porto.include_outliers config.
Proof.
  intros Hrun.
  apply get_data_Loaded_inv in Hrun
    as (text & raw & longest & accepted & Htext & Hraw & Hmax & -> & -> & ->
        & Hacc).
  cbn [Porto.block_size Porto.grip_size Porto.outliers_list
       Porto.include_outliers Porto.outlier_level Porto.outlier_prob
       Porto.outlier_ratio] in *.
  apply max_of_spec in Hmax as [Hle Hin].
  assert (Hlen : length (replicate (length raw) "non outlier"%string
                         ++ map snd accepted)
                 = length (raw ++ map fst accepted)).
  { rewrite !length_app, length_replicate, !length_map. reflexivity. }
  assert (Hraw_fit : Forall (fun traj => len traj + 2 <= longest + 2) raw).
  { apply Forall_forall. intros traj Htraj.
    rewrite Forall_forall in Hle. specialize (Hle (len traj)).
    cbv beta in Hle. cut (len traj <= longest); [lia|]. apply Hle.
    apply list_elem_of_In, in_map, list_elem_of_In, Htraj. }
  assert (Hfit : Forall (fun traj => len traj + 2 <= longest + 2)
                   (raw ++ map fst accepted)).
  { apply Forall_app. split; [exact Hraw_fit|].
    apply Forall_forall. intros traj Htraj.
    apply list_elem_of_In, in_map_iff in Htraj as ([t label] & Ht & Htraj).
    simpl in Ht. subst t. apply list_elem_of_In in Htraj.
    destruct (Porto.include_outliers config).
    - destruct Hacc as (outliers & _ & ->).
      apply elem_of_accepted_outliers in Htraj
        as (key & vals & _ & _ & Hlen' & _). lia.
    - subst accepted. inversion Htraj. }
  split.
  { exists text, raw. split; [exact Htext|]. split; [exact Hraw|].
    split; [|exact Hraw_fit].
    apply list_elem_of_In, in_map_iff in Hin as (traj & Hl & Hin).
    exists traj. split; [by apply list_elem_of_In | lia]. }
  split; [exact Hlen|]. split; [exact Hfit|]. split; [|repeat split].
  intros i Hi.
  destruct (getitem_in_range _ _ i Hlen Hi) as (traj & label & Htraj & Hget).
  exists (PStr "SOT" :: map PInt traj ++ [PStr "EOT"]), label.
  split; [exact Hget|].
  rewrite Forall_forall in Hfit. specialize (Hfit traj Htraj). cbv beta in Hfit.
  unfold len in *. simpl. rewrite length_app, length_map. simpl. lia.
Qed.

Lemma get_outliers_elem config fs outliers t trajs :
  get_outliers config fs = Porto.Loaded outliers ->
  (t, trajs) ∈ outliers <->
  t ∈ Porto.outliers_list config /\ load config fs t = Porto.Loaded trajs.
Proof.
  unfold Porto.get_outliers. intros Hrun.
  destruct (get_outliers_from_spec _ _ _ _ _ Hrun) as [Hnd Hall];
    [constructor|].
  split.
  - intros Hin.
    assert (Ht : t ∈ Porto.outliers_list config).
    { destruct (decide (t ∈ Porto.outliers_list config)) as [?|Hnot];
        [assumption|].
      destruct (dict_get_elem_Some _ _ _ Hin) as [v Hv].
      rewrite (proj2 (Hall t) Hnot) in Hv. discriminate. }
    split; [exact Ht|].
    destruct (proj1 (Hall t) Ht) as (trajs' & Hload & Hget).
    rewrite (dict_get_NoDup_elem _ _ _ Hnd Hin) in Hget.
    by injection Hget as <-.
  - intros [Ht Hload].
    destruct (proj1 (Hall t) Ht) as (trajs' & Hload' & Hget).
    rewrite Hload in Hload'. injection Hload' as <-.
    by apply dict_get_Some_elem.
Qed.

Lemma map_lookup {A B} (f : A -> B) (l : list A) (i : nat) :
  map f l !! i = f <$> l !! i.
Proof.
  revert i. induction l as [|x l IH]; intros [|i]; simpl; auto.
Qed.

(** X18.  What [get_data] returns: first the trajectories of the data
    file, in order, each labelled ["non outlier"]; after them the
    outliers it appends, each with its label.  With [include_outliers]
    the appended outliers are exactly the lines of the files of the
    listed outlier types that are short enough for [block_size], each
    labelled after its type and never ["non outlier"]; without it
    nothing is appended. *)
Theorem porto_get_data_labels (config : Porto.PortoConfig)
    (fs : Porto.files) (file_path : string) config' trajs labels :
  get_data config fs file_path = Porto.Loaded (config', (trajs, labels)) ->
  exists text raw appended,
    dict_get fs file_path = Some text /\ parsed_lines text = Ok raw /\
    raw <> [] /\
    trajs = raw ++ map fst appended /\
    labels = replicate (length raw) "non outlier"%string ++ map snd appended /\
    (Porto.include_outliers config = false -> appended = []) /\
    (forall traj label,
        (traj, label) ∈ appended <->
        Porto.include_outliers config = true /\
        len traj + 2 <= Porto.block_size config' /\
        exists key vals,
          key ∈ Porto.outliers_list config /\
          label = Porto.label_of key /\
          load config fs key = Porto.Loaded vals /\ traj ∈ vals) /\
    Forall (fun tl => tl.2 <> "non outlier"%string) appended.
Proof.
  intros Hrun.
  apply get_data_Loaded_inv in Hrun
    as (text & raw & longest & accepted & Htext & Hraw & Hmax & -> & -> & ->
        & Hacc).
  cbn [Porto.block_size] in *.
  exists text, raw, accepted.
  split; [exact Htext|]. split; [exact Hraw|]. split.
  { intros ->. discriminate. }
  split; [reflexivity|]. split; [reflexivity|].
  destruct (Porto.include_outliers config) eqn:Hinc.
  - destruct Hacc as (outliers & Hout & ->).
    split; [discriminate|]. split.
    + intros traj label. rewrite elem_of_accepted_outliers. split.
      * intros (key & vals & Hkv & Hin & Hle & ->).
        apply (get_outliers_elem _ _ _ _ _ Hout) in Hkv as [Hkey Hload].
        split; [reflexivity|]. split; [lia|]. exists key, vals. auto.
      * intros (_ & Hle & key & vals & Hkey & -> & Hload & Hin).
        exists key, vals.
        split; [apply (get_outliers_elem _ _ _ _ _ Hout); auto|].
        split; [exact Hin|]. split; [lia | reflexivity].
    + apply Forall_forall. intros [traj label] Hin.
      apply elem_of_accepted_outliers in Hin as (key & _ & _ & _ & _ & ->).
      apply label_of_outlier.
  - subst accepted. split; [reflexivity|]. split; [|constructor].
    intros traj label. split.
    + intros Hin. inversion Hin.
    + intros [Hfalse _]. discriminate.
Qed.

(** [get_data], case by case. *)
Lemma get_data_cases config fs file_path :
  get_data config fs file_path =
  match dict_get fs file_path with
  | None => Porto.Failed (Porto.FileNotFoundError file_path)
  | Some text =>
      match parsed_lines text with
      | Raise e => Porto.Failed (Porto.PyError e)
      | Ok raw =>
          match max_of (map len raw) with
          | Raise e => Porto.Failed (Porto.PyError e)
          | Ok longest =>
              let config' :=
                {| Porto.grip_size := Porto.grip_size config;
                   Porto.block_size := longest + 2;
                   Porto.outlier_level := Porto.outlier_level config;
                   Porto.outlier_prob := Porto.outlier_prob config;
                   Porto.outlier_ratio := Porto.outlier_ratio config;
                   Porto.outliers_list := Porto.outliers_list config;
                   Porto.include_outliers := Porto.include_outliers config |}
              in
              if Porto.include_outliers config
              then match get_outliers config fs with
                   | Porto.Failed e => Porto.Failed e
                   | Porto.Loaded outliers =>
                       let accepted :=
                         accepted_outliers (longest + 2 - 2) outliers in
                       Porto.Loaded
                         (config',
                          (raw ++ map fst accepted,
                           replicate (length raw) "non outlier"%string
                           ++ map snd accepted))
                   end
              else Porto.Loaded
                     (config',
                      (raw, replicate (length raw) "non outlier"%string))
          end
      end
  end.
Proof.
  unfold Porto.get_data, Porto.open_readlines.
  destruct (dict_get fs file_path) as [text|]; [|reflexivity].
  rewrite loaded_bind_Loaded. fold (parsed_lines text).
  destruct (parsed_lines text) as [raw|e]; [|reflexivity].
  cbn [Porto.of_result]. rewrite loaded_bind_Loaded.
  destruct (max_of (map len raw)) as [longest|e]; [|reflexivity].
  cbn [Porto.of_result]. rewrite loaded_bind_Loaded.
  cbv zeta. cbn [Porto.include_outliers Porto.block_size].
  destruct (Porto.include_outliers config).
  - unfold Porto.get_outliers. cbn [Porto.outliers_list].
    rewrite (get_outliers_from_block_size config) by reflexivity.
    destruct (get_outliers_from config fs [] (Porto.outliers_list config))
      as [outliers|e]; [|reflexivity].
    rewrite loaded_bind_Loaded. rewrite map_constant_replicate.
    reflexivity.
  - by rewrite map_constant_replicate.
Qed.

(** X19.  How [get_data] fails.  A missing data file is reported as such;
    a data file without lines makes the maximum of no sizes a
    [ValueError]; and with [include_outliers], a listed outlier type
    whose file is missing stops the load with the message of
    [get_outliers] naming that file: there is no fallback to the plain
    data.  Without [include_outliers] the outlier files are not looked
    at. *)
Theorem porto_get_data_failures (config : Porto.PortoConfig)
    (fs : Porto.files) (file_path : string) :
  (dict_get fs file_path = None ->
   get_data config fs file_path
     = Porto.Failed (Porto.FileNotFoundError file_path)) /\
  (forall text,
      dict_get fs file_path = Some text -> parsed_lines text = Ok [] ->
      get_data config fs file_path
        = Porto.Failed (Porto.PyError ValueError)) /\
  (forall text raw pre t post,
      dict_get fs file_path = Some text -> parsed_lines text = Ok raw ->
      raw <> [] ->
      Porto.include_outliers config = true ->
      Porto.outliers_list config = pre ++ t :: post ->
      Forall (fun t' => exists trajs,
                load config fs t' = Porto.Loaded trajs) pre ->
      dict_get fs (outlier_file config t) = None ->
      get_data config fs file_path
        = Porto.Failed (Porto.CannotBeFound (outlier_file config t))) /\
  (Porto.include_outliers config = false ->
   forall fs', dict_get fs' file_path = dict_get fs file_path ->
               get_data config fs' file_path = get_data config fs file_path).
Proof.
  split; [|split; [|split]].
  - intros Hnone. by rewrite get_data_cases, Hnone.
  - intros text Htext Hraw. by rewrite get_data_cases, Htext, Hraw.
  - intros text raw pre t post Htext Hraw Hne Hinc Hlist Hpre Hmissing.
    rewrite get_data_cases, Htext, Hraw.
    destruct (max_of_total (map len raw)) as [longest ->].
    { destruct raw; [congruence | discriminate]. }
    cbv zeta. rewrite Hinc. unfold Porto.get_outliers. rewrite Hlist.
    rewrite (get_outliers_from_missing config fs pre t post []
               (Porto.FileNotFoundError (outlier_file config t)));
      [reflexivity | exact Hpre | | discriminate].
    by rewrite load_outlier_parsed, Hmissing.
  - intros Hinc fs' Hsame. by rewrite !get_data_cases, Hsame, Hinc.
Qed.

End PortoLoading.

(** ** The taxi dataset: outliers saved and loaded back *)

Section SavedOutliers.
Context `{Generator}.
Variable format_float : float -> string.
Variable data_dir : string.

Local Abbreviation outlier_file := (Porto.outlier_file format_float data_dir).
Local Abbreviation load := (load_outlier format_float data_dir).
Local Abbreviation get_outliers := (Porto.get_outliers format_float data_dir).
Local Abbreviation get_data := (Porto.get_data format_float data_dir).
Local Abbreviation save_outliers :=
  (Porto.save_outliers format_float data_dir).

Lemma outlier_file_inj config t t' :
  outlier_file config t = outlier_file config t' ->
  forall c r c' r', t = String c r -> t' = String c' r' -> c = c'.
Proof.
  unfold Porto.outlier_file. intros Heq c r c' r' -> ->.
  apply (String.app_inj data_dir), (String.app_inj "/outliers/") in Heq.
  by injection Heq.
Qed.

Lemma outlier_files_differ config :
  outlier_file config "route_switch" <> outlier_file config "detour".
Proof.
  intros Heq.
  pose proof (outlier_file_inj _ _ _ Heq _ _ _ _ eq_refl eq_refl).
  discriminate.
Qed.

(** The outliers of a successful [generate_outliers], with what they
    have of their sources: a route-switch outlier is as long as a
    trajectory of the data, or has two points where that one had one; a
    detour outlier is as long as a trajectory of the data when the
    probability is not negative. *)
Lemma generate_outliers_lengths config data g outliers written g' :
  Porto.generate_outliers config data g = Ok ((outliers, written), g') ->
  exists route_switch detour,
    outliers = [("route_switch"%string, route_switch);
                ("detour"%string, detour)] /\
    written = [("route_switch"%string, Porto.file_of route_switch);
               ("detour"%string, Porto.file_of detour)] /\
    Forall (fun out => exists traj,
              traj ∈ data /\ length out = Nat.max (length traj) 2)
      route_switch /\
    (fle (S754_zero false) (Porto.outlier_prob config) = true ->
     Forall (fun out => exists traj,
               traj ∈ data /\ length out = length traj) detour).
Proof.
  unfold Porto.generate_outliers. intros Hrun.
  apply bind_Ok_inv in Hrun as ([] & g1 & _ & Hrun).
  apply bind_Ok_inv in Hrun as (size & g2 & Hsize & Hrun).
  apply bind_Ok_inv in Hrun as (idx & g3 & Hidx & Hrun).
  apply bind_Ok_inv in Hrun as (sources & g4 & Hsources & Hrun).
  apply bind_Ok_inv in Hrun as (route_switch & g5 & Hrs & Hrun).
  apply bind_Ok_inv in Hrun as ([] & g6 & _ & Hrun).
  apply bind_Ok_inv in Hrun as (size' & g7 & Hsize' & Hrun).
  apply bind_Ok_inv in Hrun as (idx' & g8 & Hidx' & Hrun).
  apply bind_Ok_inv in Hrun as (sources' & g9 & Hsources' & Hrun).
  apply bind_Ok_inv in Hrun as (detour & g10 & Hdt & Hrun).
  apply ret_Ok_inv in Hrun as [[= -> ->] _].
  apply lift_Ok_inv in Hsources as [Hsources _].
  apply lift_Ok_inv in Hsources' as [Hsources' _].
  apply mapM_index_sources in Hsources as [_ Hin].
  apply mapM_index_sources in Hsources' as [_ Hin'].
  exists route_switch, detour.
  split; [reflexivity|]. split; [reflexivity|]. split.
  - unfold Porto.get_route_switch_outliers in Hrs.
    apply for_each_Ok_Forall2 in Hrs. revert Hin.
    induction Hrs as [|traj out srcs outs (g11 & g12 & Hone) _ IH];
      intros Hin; [constructor|].
    apply Forall_cons in Hin as [Htraj Hin].
    constructor; [|exact (IH Hin)].
    exists traj. split; [exact Htraj|].
    apply route_switch_one_shape in Hone
      as (first & middle & last & Hfirst & _ & -> & Hmid).
    assert (1 <= length traj)%nat.
    { destruct traj; [discriminate Hfirst | simpl; lia]. }
    rewrite !length_app. simpl. lia.
  - intros Hprob. unfold Porto.get_detour_outliers in Hdt.
    apply bind_Ok_inv in Hdt as (params & g11 & Hparams & Hdt).
    unfold Porto.detour_params in Hparams.
    apply ret_Ok_inv in Hparams as [-> _].
    apply for_each_Ok_Forall2 in Hdt. revert Hin'.
    induction Hdt as [|traj out srcs outs (g12 & g13 & Hone) _ IH];
      intros Hin'; [constructor|].
    apply Forall_cons in Hin' as [Htraj Hin'].
    constructor; [|exact (IH Hin')].
    exists traj. split; [exact Htraj|].
    destruct (detour_one_frame _ _ _ _ _ _ _ Hprob Hone)
      as (st & ed & g14 & _ & Hframe).
    exact (detour_frame_length _ _ _ _ Hframe).
Qed.

Lemma load_saved config fs route_switch detour :
  let fs' := save_outliers config fs
               [("route_switch"%string, Porto.file_of route_switch);
                ("detour"%string, Porto.file_of detour)] in
  load config fs' "route_switch" = Porto.Loaded route_switch /\
  load config fs' "detour" = Porto.Loaded detour /\
  forall path,
    path <> outlier_file config "route_switch" ->
    path <> outlier_file config "detour" ->
    dict_get fs' path = dict_get fs path.
Proof.
  intros fs'. unfold fs', Porto.save_outliers, Porto.write_file.
  cbn [foldl fst snd].
  pose proof (outlier_files_differ config) as Hne.
  split; [|split].
  - rewrite load_outlier_parsed, !dict_get_set.
    rewrite decide_False by exact Hne. rewrite decide_True by reflexivity.
    by rewrite parsed_lines_file_of.
  - rewrite load_outlier_parsed, !dict_get_set.
    rewrite decide_True by reflexivity.
    by rewrite parsed_lines_file_of.
  - intros path Hrs Hdt. rewrite !dict_get_set.
    by rewrite !decide_False.
Qed.

Lemma get_outliers_saved config fs route_switch detour :
  Porto.outliers_list config = ["route_switch"; "detour"]%string ->
  get_outliers config
    (save_outliers config fs
       [("route_switch"%string, Porto.file_of route_switch);
        ("detour"%string, Porto.file_of detour)])
  = Porto.Loaded [("route_switch"%string, route_switch);
                  ("detour"%string, detour)].
Proof.
  intros Hlist.
  destruct (load_saved config fs route_switch detour) as (Hrs & Hdt & _).
  unfold Porto.get_outliers. rewrite Hlist.
  set (fs' := save_outliers config fs _) in *.
  rewrite (get_outliers_from_step format_float data_dir), Hrs.
  rewrite (get_outliers_from_step format_float data_dir), Hdt. reflexivity.
Qed.

(** X20.  What [generate_outliers] saves, [get_outliers] loads back: from
    the files written for a configuration, the loader of the same
    configuration reads, for each of the two outlier types, the very
    trajectories that were generated, and with both types listed it
    returns the dict [generate_outliers] returned.  Saving touches no
    file but the two outlier files. *)
Theorem saved_outliers_load_back (config : Porto.PortoConfig)
    (data : list (list Z)) (g : rng) outliers written (g' : rng)
    (fs : Porto.files) :
  Porto.generate_outliers config data g = Ok ((outliers, written), g') ->
  let fs' := save_outliers config fs written in
  (forall key vals, (key, vals) ∈ outliers ->
                    load config fs' key = Porto.Loaded vals) /\
  (Porto.outliers_list config = ["route_switch"; "detour"]%string ->
   get_outliers config fs' = Porto.Loaded outliers) /\
  (forall path,
      path <> outlier_file config "route_switch" ->
      path <> outlier_file config "detour" ->
      dict_get fs' path = dict_get fs path).
Proof.
  intros Hrun fs'.
  apply generate_outliers_lengths in Hrun
    as (route_switch & detour & -> & -> & _).
  destruct (load_saved config fs route_switch detour) as (Hrs & Hdt & Hother).
  fold fs' in Hrs, Hdt, Hother.
  split; [|split; [|exact Hother]].
  - intros key vals Hin.
    apply elem_of_cons in Hin as [[= -> ->]|Hin]; [exact Hrs|].
    apply elem_of_cons in Hin as [[= -> ->]|Hin]; [exact Hdt|].
    inversion Hin.
  - intros Hlist. exact (get_outliers_saved _ _ _ _ Hlist).
Qed.

Lemma filter_all {A} (P : A -> Prop) `{forall x, Decision (P x)} (l : list A) :
  Forall P l -> filter P l = l.
Proof.
  induction 1 as [|x l Hx _ IH]; [reflexivity|].
  by rewrite filter_cons_True, IH.
Qed.

Lemma map_fst_labelled {A B} (b : B) (l : list A) :
  map fst (map (fun a => (a, b)) l) = l.
Proof. induction l as [|x l IH]; simpl; [reflexivity | by rewrite IH]. Qed.

Lemma map_snd_labelled {A B} (b : B) (l : list A) :
  map snd (map (fun a => (a, b)) l) = replicate (length l) b.
Proof. induction l as [|x l IH]; simpl; [reflexivity | by rewrite IH]. Qed.

(** X21.  Outliers generated from a dataset and saved are all loaded
    with it: when the data file holds the trajectories the outliers were
    generated from, the probability is not negative and some trajectory
    has two points or more, [get_data] with both outlier types listed
    returns the data followed by every route-switch outlier and then
    every detour outlier, labelled in that order; none is skipped as too
    long. *)
Theorem generated_outliers_all_loaded (config : Porto.PortoConfig)
    (data : list (list Z)) (g : rng) outliers written (g' : rng)
    (fs : Porto.files) (file_path text : string) :
  Porto.generate_outliers config data g = Ok ((outliers, written), g') ->
  dict_get (save_outliers config fs written) file_path = Some text ->
  parsed_lines text = Ok data ->
  Porto.include_outliers config = true ->
  Porto.outliers_list config = ["route_switch"; "detour"]%string ->
  fle (S754_zero false) (Porto.outlier_prob config) = true ->
  Exists (fun traj => (2 <= length traj)%nat) data ->
  exists config' route_switch detour,
    outliers = [("route_switch"%string, route_switch);
                ("detour"%string, detour)] /\
    get_data config (save_outliers config fs written) file_path
    = Porto.Loaded
        (config',
         (data ++ route_switch ++ detour,
          replicate (length data) "non outlier"%string ++
          replicate (length route_switch) "route switch outlier"%string ++
          replicate (length detour) "detour outlier"%string)).
Proof.
  intros Hrun Htext Hdata Hinc Hlist Hprob Hlong.
  apply generate_outliers_lengths in Hrun
    as (route_switch & detour & -> & -> & Hrs & Hdt).
  specialize (Hdt Hprob).
  destruct (max_of_total (map len data)) as [longest Hmax].
  { apply Exists_exists in Hlong as (traj & Hin & _).
    destruct data; [inversion Hin | discriminate]. }
  pose proof Hmax as Hspec. apply max_of_spec in Hspec as [Hle _].
  assert (Hfits : forall traj, traj ∈ data -> len traj <= longest).
  { intros traj Hin. rewrite Forall_forall in Hle. apply (Hle (len traj)).
    apply list_elem_of_In, in_map, list_elem_of_In, Hin. }
  assert (Htwo : 2 <= longest).
  { apply Exists_exists in Hlong as (traj & Hin & Hlen).
    specialize (Hfits traj Hin). unfold len in Hfits. lia. }
  assert (Hkeep_rs : Forall (fun traj => len traj <= longest + 2 - 2)
                       route_switch).
  { eapply Forall_impl; [exact Hrs|]. intros out (traj & Hin & Hlen).
    specialize (Hfits traj Hin). unfold len in *. lia. }
  assert (Hkeep_dt : Forall (fun traj => len traj <= longest + 2 - 2) detour).
  { eapply Forall_impl; [exact Hdt|]. intros out (traj & Hin & Hlen).
    specialize (Hfits traj Hin). unfold len in *. lia. }
  eexists _, route_switch, detour. split; [reflexivity|].
  rewrite get_data_cases, Htext, Hdata, Hmax. cbv zeta. rewrite Hinc.
  rewrite (get_outliers_saved _ _ _ _ Hlist).
  unfold accepted_outliers. cbn [flat_map fst snd].
  rewrite (filter_all _ _ Hkeep_rs), (filter_all _ _ Hkeep_dt).
  rewrite app_nil_r, !map_app, !map_fst_labelled, !map_snd_labelled.
  reflexivity.
Qed.

End SavedOutliers.

(** ** The check-in dataset: file names *)

Lemma path_join_inj (a b b' : string) :
  String.prefix "/" b = false -> String.prefix "/" b' = false ->
  path_join a b = path_join a b' -> b = b'.
Proof.
  unfold path_join. intros -> ->.
  destruct ((String.length a =? 0)%nat || ends_with_sep a); intros Heq.
  - exact (String.app_inj a _ _ Heq).
  - apply (String.app_inj a), (String.app_inj "/") in Heq. exact Heq.
Qed.

(** X22.  The vocabulary file and the feature table are named after the
    features in use: two configurations get the same vocabulary path, and
    the same path for the table [get_all_data] writes, exactly when they
    agree on which of [gps], [distance], [duration] and [place] occur in
    [features]; the order of [features], repetitions and other names in
    it make no difference.  [get_all_data] writes one line for each row
    of the data. *)
Theorem feature_file_names (config config' : POL.POLConfig)
    (data_dir : string) :
  let same :=
    Forall (fun f => POL.has (POL.features config) f
                     = POL.has (POL.features config') f)
      ["gps"; "distance"; "duration"; "place"]%string in
  (POL.get_dictionary_path config data_dir
   = POL.get_dictionary_path config' data_dir <-> same) /\
  (forall data data' path rows path' rows',
      POL.get_all_data config data_dir data = Ok (path, rows) ->
      POL.get_all_data config' data_dir data' = Ok (path', rows') ->
      (path = path' <-> same) /\ length rows = length data).
Proof.
  intros same. unfold same. rewrite !Forall_cons, Forall_nil. split.
  - unfold POL.get_dictionary_path. cbv zeta. split.
    + intros Heq. apply path_join_inj in Heq.
      * destruct (POL.has (POL.features config) "gps"),
          (POL.has (POL.features config) "distance"),
          (POL.has (POL.features config) "duration"),
          (POL.has (POL.features config) "place"),
          (POL.has (POL.features config') "gps"),
          (POL.has (POL.features config') "distance"),
          (POL.has (POL.features config') "duration"),
          (POL.has (POL.features config') "place");
          vm_compute in Heq;
          first [discriminate Heq | repeat split; reflexivity].
      * destruct (POL.has (POL.features config) "gps"),
          (POL.has (POL.features config) "distance"),
          (POL.has (POL.features config) "duration"),
          (POL.has (POL.features config) "place"); reflexivity.
      * destruct (POL.has (POL.features config') "gps"),
          (POL.has (POL.features config') "distance"),
          (POL.has (POL.features config') "duration"),
          (POL.has (POL.features config') "place"); reflexivity.
    + intros (Hgps & Hdistance & Hduration & Hplace & _).
      by rewrite Hgps, Hdistance, Hduration, Hplace.
  - intros data data' path rows path' rows'. unfold POL.get_all_data.
    intros Hrun Hrun'.
    destruct (mapM _ data) as [lines|e] eqn:Hlines; [|discriminate].
    destruct (mapM _ data') as [lines'|e] eqn:Hlines'; [|discriminate].
    rewrite bind_Ok in Hrun, Hrun'. cbv zeta in Hrun, Hrun'.
    injection Hrun as <- <-. injection Hrun' as <- <-.
    rewrite !Forall_cons, Forall_nil. split.
    + split.
      * intros Heq. apply (String.app_inj data_dir), (String.app_inj "/") in Heq.
        destruct (POL.has (POL.features config) "gps"),
          (POL.has (POL.features config) "distance"),
          (POL.has (POL.features config) "duration"),
          (POL.has (POL.features config) "place"),
          (POL.has (POL.features config') "gps"),
          (POL.has (POL.features config') "distance"),
          (POL.has (POL.features config') "duration"),
          (POL.has (POL.features config') "place");
          vm_compute in Heq;
          first [discriminate Heq | repeat split; reflexivity].
      * intros (Hgps & Hdistance & Hduration & Hplace & _).
        by rewrite Hgps, Hdistance, Hduration, Hplace.
    + apply mapM_Ok_Forall2 in Hlines. symmetry.
      exact (Forall2_length _ _ _ Hlines).
Qed.

(** ** The check-in dataset: the samples of a user *)

Lemma index_lookup {A} (l : list A) (i : Z) (x : A) :
  0 <= i -> l !! Z.to_nat i = Some x -> index l i = Ok x.
Proof.
  intros Hi Hx. unfold index.
  destruct (i <? 0) eqn:E; [lia|]. rewrite E, Hx. reflexivity.
Qed.

Lemma zip_positions {A} (l : list A) :
  Forall (fun p : Z * A => index l p.1 = Ok p.2) (zip (seqZ 0 (len l)) l).
Proof.
  apply Forall_forall. intros [i x] Hin.
  apply elem_of_lookup_zip_with in Hin as (k & i' & x' & [= <- <-] & Hi & Hx).
  apply lookup_seqZ in Hi as [-> _]. simpl.
  apply index_lookup; [lia|].
  by replace (Z.to_nat (0 + Z.of_nat k)) with k by lia.
Qed.

Lemma filter_zip_snd {A B} (P : B -> Prop) `{forall x, Decision (P x)}
    (idx : list A) (l : list B) :
  length idx = length l ->
  map snd (filter (fun p : A * B => P p.2) (zip idx l)) = filter P l.
Proof.
  revert idx. induction l as [|x l IH]; intros [|i idx] Hlen;
    try discriminate; [reflexivity|].
  change (zip (i :: idx) (x :: l)) with ((i, x) :: zip idx l).
  rewrite !filter_cons. simpl. injection Hlen as Hlen.
  destruct (decide (P x)); simpl; by rewrite IH.
Qed.

Lemma fst_zip_seq {A} (l : list A) :
  map fst (zip (seqZ 0 (len l)) l) = seqZ 0 (len l).
Proof.
  change (map fst (zip (seqZ 0 (len l)) l))
    with ((zip (seqZ 0 (len l)) l).*1).
  apply fst_zip. rewrite length_seqZ. unfold len. lia.
Qed.

(** X23.  When [get_data] kept every row ([include_outliers]), the index
    of the frame numbers the rows by position, and [get_samples_for_user]
    returns exactly the rows of that user, in the order of the data: one
    sample for each row whose [user_id] is ["user_<id>"], carrying the
    user id, date and label of that row and the encoding of its feature
    vector. *)
Theorem samples_for_user (config : POL.POLConfig) (table : list POL.Row)
    config' data outliers (frame_index : list Z)
    (dictionary : VocabDictionary) (user : pyval) samples :
  POL.get_data config table = Ok (config', data, outliers) ->
  POL.include_outliers config = true ->
  POL.get_data_index config table = Ok frame_index ->
  POL.get_samples_for_user config' dictionary frame_index data user
    = Ok samples ->
  frame_index = seqZ 0 (len data) /\
  Forall2 (fun l s =>
             s.1 = (POL.user_id (POL.row l), POL.date (POL.row l),
                    POL.outlier l) /\
             s.1.1.1 = ("user_" +:+ str user)%string /\
             exists feature,
               POL.get_feature_vector config' (POL.row l) = Ok feature /\
               encode dictionary feature = Ok s.2)
    (filter (fun l => POL.user_id (POL.row l) = "user_" +:+ str user) data)
    samples.
Proof.
  intros Hdata Hinc Hindex Hrun.
  assert (Hframe : frame_index = seqZ 0 (len data)).
  { unfold POL.get_data_index in Hindex. rewrite Hinc in Hindex.
    replace {| POL.features := POL.features config;
               POL.block_size := POL.block_size config;
               POL.include_outliers := true;
               POL.outlier_days := POL.outlier_days config |}
      with config in Hindex by (destruct config; simpl in *; congruence).
    rewrite Hdata, bind_Ok in Hindex. simpl in Hindex.
    injection Hindex as <-. apply fst_zip_seq. }
  split; [exact Hframe|]. subst frame_index.
  unfold POL.get_samples_for_user in Hrun. cbv zeta in Hrun.
  apply mapM_Ok_Forall2 in Hrun.
  set (Q := fun p : Z * POL.Labelled =>
              POL.user_id (POL.row p.2) = "user_" +:+ str user) in *.
  rewrite <- (filter_zip_snd
                (fun l => POL.user_id (POL.row l) = "user_" +:+ str user)
                (seqZ 0 (len data)) data)
    by (rewrite length_seqZ; unfold len; lia).
  fold Q.
  assert (Hpos : Forall (fun p : Z * POL.Labelled =>
                           index data p.1 = Ok p.2 /\ Q p)
                   (filter Q (zip (seqZ 0 (len data)) data))).
  { apply Forall_forall. intros p Hp.
    apply list_elem_of_filter in Hp as [HQ Hp]. split; [|exact HQ].
    pose proof (zip_positions data) as Hall.
    rewrite Forall_forall in Hall. exact (Hall p Hp). }
  revert samples Hrun.
  induction Hpos as [|[i l] pairs [Hi HQ] _ IH]; intros samples Hrun.
  - inversion Hrun. constructor.
  - simpl in Hrun. inversion Hrun as [|? s ? rest Hget Hrest]; subst.
    simpl. constructor; [|exact (IH _ Hrest)].
    unfold POL.getitem in Hget. simpl in Hi. rewrite Hi, bind_Ok in Hget.
    destruct (POL.get_feature_vector config' (POL.row l)) as [feature|e]
      eqn:Hfeature; [|discriminate].
    rewrite bind_Ok in Hget.
    destruct (encode dictionary feature) as [tokens|e] eqn:Htokens;
      [|discriminate].
    rewrite bind_Ok in Hget. injection Hget as <-. simpl.
    split; [reflexivity|]. split; [exact HQ|].
    exists feature. auto.
Qed.

(** * Further instances *)

(** ** The vocabulary codec *)

Lemma encode_decode_roundtrip_witness :
  encode sample_vocab [PStr "A"; PStr "B"; PStr "EOT"] = Ok [0; 1; 3].
Proof.
  apply (encode_decode_roundtrip
           [("A", 0); ("B", 1); ("PAD", 2); ("EOT", 3)]%string
           [0; 1; 3] [PStr "A"; PStr "B"; PStr "EOT"]).
  reflexivity.
Defined.

(** With two symbols on one id, [decode] answers the later one, and
    encoding that answer still gives the ids back. *)
Example clashing_vocab_encodes_back :
  decode clashing_vocab [0; 0] = Ok [PStr "B"; PStr "B"] /\
  encode clashing_vocab [PStr "B"; PStr "B"] = Ok [0; 0].
Proof. split; reflexivity. Qed.

Lemma encode_KeyError_iff_unknown_witness :
  is_ok (encode digit_vocab [PInt 5; PStr "7"]).
Proof.
  apply (proj2 (proj1 (encode_KeyError_iff_unknown digit_vocab
                         [PInt 5; PStr "7"]))).
  repeat constructor; eexists; reflexivity.
Defined.

Lemma decode_KeyError_iff_unknown_witness :
  Forall2 (fun t x => exists k, x = PStr k /\
             dict_get (vocab sample_vocab) k = Some t)
    [0; 1] [PStr "A"; PStr "B"].
Proof.
  apply (proj1 (proj2 (decode_KeyError_iff_unknown
                         [("A", 0); ("B", 1); ("PAD", 2); ("EOT", 3)]%string
                         [0; 1]))).
  reflexivity.
Defined.

(** ** Outlier synthesis *)

Lemma perturb_point_total_witness :
  @Porto._perturb_point lcg (51, 0) 500 3 None 0 = Raise ZeroDivisionError /\
  exists q,
    @Porto._perturb_point lcg porto_grid 500 0
      (Some (NFloat (float_lit 1 1), NFloat (float_lit (-1) 1))) 0
      = Ok (q, 0) /\
    in_grid porto_grid q /\ (0 = 0 -> q = 500).
Proof.
  split.
  - apply (proj1 (@perturb_point_total lcg (51, 0) 500 3 0) None).
    reflexivity.
  - apply (proj2 (proj2 (@perturb_point_total lcg porto_grid 500 0 0))
             (NFloat (float_lit 1 1), NFloat (float_lit (-1) 1)) (1, -1)).
    + reflexivity.
    + reflexivity.
    + unfold in_grid. simpl. lia.
    + simpl. lia.
    + unfold exact_shift. simpl. lia.
    + unfold exact_shift. simpl. lia.
Defined.

Lemma route_switch_pointwise_witness :
  Forall2 (fun traj out =>
             (2 <= length traj)%nat ->
             Forall2 (switched porto_grid 3) traj out /\
             head out = head traj /\ last out = last traj)
    [sample_traj] [[500; 30; 502; 183; 658; 820; 821; 822]].
Proof.
  apply (@route_switch_pointwise lcg porto_grid 3 (float_lit 3 10)
           [sample_traj] 0 _ 794471793).
  vm_compute. reflexivity.
Defined.

Lemma sample_traj_in_grid : Forall (in_grid porto_grid) sample_traj.
Proof.
  unfold sample_traj.
  repeat (apply List.Forall_cons; [unfold in_grid; simpl; lia|]).
  apply List.Forall_nil.
Defined.

Lemma detour_span_shifted_witness :
  exists st ed g1 offset,
    @Porto.detour_span lcg (float_lit 3 10) sample_traj 0
      = Ok ((st, ed), g1) /\
    unit_offset offset /\
    forall i : nat, st <= Z.of_nat i < ed ->
      [500; 504; 502; 660; 661; 820; 821; 822] !! i
      = (fun p => shifted porto_grid p 3 offset) <$> sample_traj !! i.
Proof.
  apply (@detour_span_shifted lcg porto_grid 3 (float_lit 3 10) sample_traj 0
           [500; 504; 502; 660; 661; 820; 821; 822] 1406932606).
  - simpl. lia.
  - simpl. lia.
  - exact sample_traj_in_grid.
  - reflexivity.
  - vm_compute. reflexivity.
Defined.

Lemma outliers_stay_in_grid_witness :
  Forall2 (fun traj out =>
             Forall (in_grid porto_grid) traj ->
             Forall (in_grid porto_grid) out)
    [sample_traj] [[500; 504; 502; 660; 661; 820; 821; 822]].
Proof.
  apply (proj2 (@outliers_stay_in_grid lcg porto_grid 3 (float_lit 3 10)
                  [sample_traj]) false 0 _ 1406932606).
  - simpl. lia.
  - simpl. lia.
  - vm_compute. reflexivity.
Defined.

Lemma generate_outliers_counts_witness :
  exists size route_switch detour sources sources' g1 g2 g3,
    int_mul_float (len sample_data) (Porto.outlier_ratio sample_porto_config)
      = Ok size /\
    sample_outliers = [("route_switch"%string, route_switch);
                       ("detour"%string, detour)] /\
    length route_switch = Z.to_nat size /\ length detour = Z.to_nat size /\
    @drawn_sources lcg sample_porto_config sample_data (@seeded lcg 0)
      = Ok (sources, g1) /\
    @Porto.get_route_switch_outliers lcg
      (Porto.grip_size sample_porto_config) sources
      (Porto.outlier_level sample_porto_config)
      (Porto.outlier_prob sample_porto_config) g1
      = Ok (route_switch, g2) /\
    @drawn_sources lcg sample_porto_config sample_data (@seeded lcg 10)
      = Ok (sources', g3) /\
    @Porto.get_detour_outliers lcg
      (Porto.grip_size sample_porto_config) sources'
      (Porto.outlier_level sample_porto_config)
      (Porto.outlier_prob sample_porto_config) false g3
      = Ok (detour, 146443332) /\
    Forall2 (fun traj out =>
               traj ∈ sample_data /\
               (exists g0 g0',
                   @Porto.route_switch_one lcg
                     (Porto.grip_size sample_porto_config)
                     (Porto.outlier_level sample_porto_config)
                     (Porto.outlier_prob sample_porto_config)
                     traj g0 = Ok (out, g0')) /\
               head out = head traj /\ last out = last traj)
      sources route_switch /\
    Forall2 (fun traj out =>
               (traj ∈ sample_data /\ (3 <= length traj)%nat) /\
               exists g0 g0',
                 @Porto.detour_one lcg
                   (Porto.grip_size sample_porto_config)
                   (Porto.outlier_level sample_porto_config)
                   (Porto.outlier_prob sample_porto_config)
                   traj g0 = Ok (out, g0'))
      sources' detour.
Proof.
  apply (@generate_outliers_counts lcg sample_porto_config sample_data 7
           sample_outliers sample_files 146443332).
  vm_compute. reflexivity.
Defined.

(** ** The check-in dataset *)

Lemma feature_vector_length_witness :
  exists places tokens duration_buckets distances,
    eval_list (POL.place zero_visit_row) = Ok places /\
    eval_list (POL.token zero_visit_row) = Ok tokens /\
    eval_list (POL.duration_bucket zero_visit_row) = Ok duration_buckets /\
    eval_list (POL.distance_label zero_visit_row) = Ok distances /\
    length [PStr "user_7"; PStr "day_4"; PStr "EOT"]
    = (3 + enabled default_pol_config *
           Nat.min (Nat.min (length places) (length tokens))
                   (Nat.min (length duration_buckets) (length distances)))%nat /\
    head [PStr "user_7"; PStr "day_4"; PStr "EOT"]
    = Some (PStr (POL.user_id zero_visit_row)) /\
    last [PStr "user_7"; PStr "day_4"; PStr "EOT"] = Some (PStr "EOT").
Proof.
  apply (feature_vector_length default_pol_config zero_visit_row
           [PStr "user_7"; PStr "day_4"; PStr "EOT"]).
  reflexivity.
Defined.

Lemma getitem_fits_block_size_witness :
  exists block,
    Some 19 = Some block /\ len [2; 3; 4; 5; 6; 7; 1] <= block.
Proof.
  apply (getitem_fits_block_size default_pol_config two_user_table visit_vocab
           {| POL.features := ["gps"; "distance"; "duration"; "place"]%string;
              POL.block_size := Some 19;
              POL.include_outliers := false;
              POL.outlier_days := 14 |}
           [{| POL.row :=
                 {| POL.user_id := "user_7"; POL.date := 100;
                    POL.dayofweek := "['day_2']";
                    POL.place := "['Workplace']";
                    POL.token := "[88]"; POL.duration_bucket := "['0-60']";
                    POL.distance_label := "['near']" |};
               POL.user_id_int := 7; POL.outlier := "non outlier" |}]
           [(546, 100)] 0
           {| POL.row :=
                {| POL.user_id := "user_7"; POL.date := 100;
                   POL.dayofweek := "['day_2']";
                   POL.place := "['Workplace']";
                   POL.token := "[88]"; POL.duration_bucket := "['0-60']";
                   POL.distance_label := "['near']" |};
              POL.user_id_int := 7; POL.outlier := "non outlier" |}
           ("user_7"%string, 100, "non outlier"%string)
           [2; 3; 4; 5; 6; 7; 1]).
  - vm_compute. reflexivity.
  - reflexivity.
  - repeat (apply List.Forall_cons; [eexists; reflexivity|]).
    apply List.Forall_nil.
  - vm_compute. reflexivity.
Defined.

(** A cell that multiplies a list is no flat literal: the reader leaves
    it alone. *)
Example eval_list_expression :
  eval_list "[1]*9" = Raise Unsupported /\
  eval_list "[1, 2, 3]" = Ok [PInt 1; PInt 2; PInt 3] /\
  eval_list "['a', 'b']" = Ok [PStr "a"; PStr "b"].
Proof. repeat split; reflexivity. Qed.

Lemma get_data_labels_witness :
  exists l,
    l ∈ [{| POL.row :=
              {| POL.user_id := "user_7"; POL.date := 100;
                 POL.dayofweek := "['day_2']";
                 POL.place := "['Workplace']";
                 POL.token := "[88]"; POL.duration_bucket := "['0-60']";
                 POL.distance_label := "['near']" |};
            POL.user_id_int := 7; POL.outlier := "non outlier" |}] /\
    POL.row l = {| POL.user_id := "user_7"; POL.date := 100;
                   POL.dayofweek := "['day_2']";
                   POL.place := "['Workplace']";
                   POL.token := "[88]"; POL.duration_bucket := "['0-60']";
                   POL.distance_label := "['near']" |}.
Proof.
  apply (proj2 (get_data_labels default_pol_config two_user_table
                  {| POL.features :=
                       ["gps"; "distance"; "duration"; "place"]%string;
                     POL.block_size := Some 19;
                     POL.include_outliers := false;
                     POL.outlier_days := 14 |}
                  _ [(546, 100)] ltac:(vm_compute; reflexivity))).
  - right. left.
  - right. intros (id & latest & Hid & Hin & _).
    vm_compute in Hid. injection Hid as <-. unfold POL.outlier_list in Hin.
    rewrite !elem_of_cons, elem_of_nil in Hin.
    repeat destruct Hin as [Hin|Hin]; try discriminate Hin. exact Hin.
Defined.

Lemma pol_get_data_errors_witness :
  Forall (fun r => is_ok (POL.parse_user_id r)) two_user_table.
Proof.
  apply (proj1 (proj1 (pol_get_data_errors default_pol_config
                         two_user_table))).
  unfold is_ok. eexists. reflexivity.
Defined.

(** What [astype(int)] makes of user ids: white space around the digits
    is read over, a value of [2^63] overflows, and a letter is a
    [ValueError]. *)
Example parse_user_id_scenario :
  POL.int_of_string (list_ascii_of_string " 7") = Ok 7 /\
  POL.int_of_string (list_ascii_of_string "9223372036854775808")
  = Raise OverflowError /\
  POL.int_of_string (list_ascii_of_string "-9223372036854775808")
  = Ok (-9223372036854775808) /\
  POL.int_of_string (list_ascii_of_string "7a") = Raise ValueError /\
  POL.int_of_string (list_ascii_of_string "") = Raise ValueError.
Proof. repeat split; reflexivity. Qed.

(** Without [include_outliers] the frame keeps the labels of the merge:
    the one row left has label 1 and position 0, and asking for the
    samples of its user raises [IndexError]. *)
Example samples_for_user_after_filter :
  POL.get_data_index default_pol_config two_user_table = Ok [1] /\
  (forall config' data outliers,
      POL.get_data default_pol_config two_user_table
        = Ok (config', data, outliers) ->
      POL.get_samples_for_user config' visit_vocab [1] data (PInt 7)
        = Raise IndexError).
Proof.
  split; [reflexivity|]. intros config' data outliers Hdata.
  vm_compute in Hdata. injection Hdata as <- <- <-. reflexivity.
Qed.

Lemma samples_for_user_witness :
  Forall2 (fun l s =>
             s.1 = (POL.user_id (POL.row l), POL.date (POL.row l),
                    POL.outlier l) /\
             s.1.1.1 = ("user_" +:+ str (PInt 7))%string /\
             exists feature,
               POL.get_feature_vector
                 {| POL.features :=
                      ["gps"; "distance"; "duration"; "place"]%string;
                    POL.block_size := Some 75;
                    POL.include_outliers := true;
                    POL.outlier_days := 14 |} (POL.row l) = Ok feature /\
               encode visit_vocab feature = Ok s.2)
    (filter (fun l => POL.user_id (POL.row l) = "user_" +:+ str (PInt 7))
       (zip_with (fun r l => {| POL.row := r; POL.user_id_int := l.1;
                                POL.outlier := l.2 |})
          two_user_table
          [(546, "outlier"%string); (7, "non outlier"%string)]))
    [(("user_7"%string, 100, "non outlier"%string), [2; 3; 4; 5; 6; 7; 1])].
Proof.
  apply (proj2 (samples_for_user keeping_pol_config two_user_table _ _
                  [(546, 100)] [0; 1] visit_vocab (PInt 7) _
                  ltac:(vm_compute; reflexivity) eq_refl
                  ltac:(vm_compute; reflexivity)
                  ltac:(vm_compute; reflexivity))).
Defined.

Lemma feature_file_names_witness :
  POL.get_dictionary_path
    {| POL.features := ["place"; "gps"]%string; POL.block_size := None;
       POL.include_outliers := true; POL.outlier_days := 14 |} "./data/pol"
  = POL.get_dictionary_path
      {| POL.features := ["gps"; "place"; "gps"; "speed"]%string;
         POL.block_size := None;
         POL.include_outliers := true; POL.outlier_days := 14 |} "./data/pol".
Proof.
  apply (proj2 (proj1 (feature_file_names
                         {| POL.features := ["place"; "gps"]%string;
                            POL.block_size := None;
                            POL.include_outliers := true;
                            POL.outlier_days := 14 |}
                         {| POL.features :=
                              ["gps"; "place"; "gps"; "speed"]%string;
                            POL.block_size := None;
                            POL.include_outliers := true;
                            POL.outlier_days := 14 |} "./data/pol"))).
  repeat constructor.
Defined.

(** ** The taxi dataset *)

Lemma partition_dataset_covers_witness :
  [3; 2; 1] ++ [0] ≡ₚ seqZ 0 (len sample_data) /\
  NoDup ([3; 2; 1] ++ [0]) /\
  (forall i, 0 <= i < len sample_data <-> i ∈ [3; 2; 1] \/ i ∈ [0]) /\
  exists train_num,
    int_mul_float (len sample_data) (float_lit 9 10) = Ok train_num /\
    (0 <= train_num <= len sample_data ->
     len [3; 2; 1] = train_num /\ len [0] = len sample_data - train_num).
Proof.
  apply (@partition_dataset_covers lcg lcg_permuter _ sample_data
           (float_lit 9 10) 123 0 [3; 2; 1] [0] 440917656).
  vm_compute. reflexivity.
Defined.

Example data_file_scenario :
  Porto.data_file "./data/porto" "porto_processed"
  = "./data/porto/porto_processed.csv"%string /\
  Porto.data_file "./data/porto/" "porto_processed"
  = "./data/porto/porto_processed.csv"%string.
Proof. split; reflexivity. Qed.

Lemma porto_getitem_bounds_witness :
  exists traj label,
    index sample_data (-1) = Ok traj /\
    index loaded_labels (-5) = Ok label /\
    Porto.getitem sample_data (take 4 loaded_labels) (-1)
      = Ok (PStr "SOT" :: map PInt traj ++ [PStr "EOT"], label) /\
    len (PStr "SOT" :: map PInt traj ++ [PStr "EOT"]) = len traj + 2.
Proof.
  destruct (proj1 (porto_getitem_bounds sample_data (take 4 loaded_labels)
                     (-1) eq_refl))
    as (traj & label & Htraj & Hlabel & Hget & Hlen).
  { unfold len. simpl. lia. }
  exists traj, label. split; [exact Htraj|]. split; [|auto].
  vm_compute in Hlabel. injection Hlabel as <-. reflexivity.
Defined.

Lemma get_outliers_keys_witness :
  NoDup (map fst sample_outliers) /\
  (forall t, t ∈ map fst sample_outliers
             <-> t ∈ Porto.outliers_list sample_loading_config) /\
  (forall t trajs, (t, trajs) ∈ sample_outliers ->
     exists text,
       dict_get saved_fs
         (Porto.outlier_file sample_format "./data/porto"
            sample_loading_config t) = Some text /\
       parsed_lines text = Ok trajs).
Proof.
  apply (get_outliers_keys sample_format "./data/porto" sample_loading_config
           saved_fs sample_outliers).
  vm_compute. reflexivity.
Defined.

Lemma porto_get_data_block_size_witness :
  (exists text raw,
      dict_get saved_fs "./data/porto/porto_processed.csv" = Some text /\
      parsed_lines text = Ok raw /\
      (exists traj,
          traj ∈ raw /\ Porto.block_size loaded_config = len traj + 2) /\
      Forall (fun traj => len traj + 2 <= Porto.block_size loaded_config) raw) /\
  length loaded_labels = length (sample_data ++ [[1; 2; 3; 1; 5];
                                   [600; 601; 602; 603]; [9; 9; 9];
                                   [500; 501; 502; 660; 661; 817; 821; 822]]).
Proof.
  destruct (porto_get_data_block_size sample_format "./data/porto"
              sample_loading_config saved_fs
              "./data/porto/porto_processed.csv" loaded_config
              (sample_data ++ [[1; 2; 3; 1; 5]; [600; 601; 602; 603];
                               [9; 9; 9];
                               [500; 501; 502; 660; 661; 817; 821; 822]])
              loaded_labels)
    as (Hfile & Hlen & _).
  { vm_compute. reflexivity. }
  split; [exact Hfile | exact Hlen].
Defined.

Lemma porto_get_data_labels_witness :
  exists text raw appended,
    dict_get saved_fs "./data/porto/porto_processed.csv" = Some text /\
    parsed_lines text = Ok raw /\ raw <> [] /\
    sample_data ++ [[1; 2; 3; 1; 5]; [600; 601; 602; 603]; [9; 9; 9];
                    [500; 501; 502; 660; 661; 817; 821; 822]]
    = raw ++ map fst appended /\
    loaded_labels
    = replicate (length raw) "non outlier"%string ++ map snd appended /\
    (Porto.include_outliers sample_loading_config = false -> appended = []) /\
    (forall traj label,
        (traj, label) ∈ appended <->
        Porto.include_outliers sample_loading_config = true /\
        len traj + 2 <= Porto.block_size loaded_config /\
        exists key vals,
          key ∈ Porto.outliers_list sample_loading_config /\
          label = Porto.label_of key /\
          load_outlier sample_format "./data/porto" sample_loading_config
            saved_fs key = Porto.Loaded vals /\
          traj ∈ vals) /\
    Forall (fun tl => tl.2 <> "non outlier"%string) appended.
Proof.
  apply (porto_get_data_labels sample_format "./data/porto"
           sample_loading_config saved_fs
           "./data/porto/porto_processed.csv" loaded_config
           (sample_data ++ [[1; 2; 3; 1; 5]; [600; 601; 602; 603];
                            [9; 9; 9];
                            [500; 501; 502; 660; 661; 817; 821; 822]])
           loaded_labels).
  vm_compute. reflexivity.
Defined.

Lemma porto_get_data_failures_witness :
  Porto.get_data sample_format "./data/porto" sample_loading_config sample_fs
    "./data/porto/porto_processed.csv"
  = Porto.Failed
      (Porto.CannotBeFound
         (Porto.outlier_file sample_format "./data/porto"
            sample_loading_config "route_switch")).
Proof.
  apply (proj1 (proj2 (proj2 (porto_get_data_failures sample_format
                                "./data/porto" sample_loading_config
                                sample_fs
                                "./data/porto/porto_processed.csv")))
           sample_text sample_data [] "route_switch"%string
           ["detour"%string]).
  - reflexivity.
  - vm_compute. reflexivity.
  - discriminate.
  - reflexivity.
  - reflexivity.
  - constructor.
  - reflexivity.
Defined.

Lemma saved_outliers_load_back_witness :
  Porto.get_outliers sample_format "./data/porto" sample_loading_config
    saved_fs
  = Porto.Loaded sample_outliers.
Proof.
  apply (proj1 (proj2 (@saved_outliers_load_back lcg sample_format
                         "./data/porto" sample_loading_config sample_data 7
                         sample_outliers sample_files 146443332 sample_fs
                         ltac:(vm_compute; reflexivity)))).
  reflexivity.
Defined.

Lemma generated_outliers_all_loaded_witness :
  exists config' route_switch detour,
    sample_outliers = [("route_switch"%string, route_switch);
                       ("detour"%string, detour)] /\
    Porto.get_data sample_format "./data/porto" sample_loading_config saved_fs
      "./data/porto/porto_processed.csv"
    = Porto.Loaded
        (config',
         (sample_data ++ route_switch ++ detour,
          replicate (length sample_data) "non outlier"%string ++
          replicate (length route_switch) "route switch outlier"%string ++
          replicate (length detour) "detour outlier"%string)).
Proof.
  apply (@generated_outliers_all_loaded lcg sample_format "./data/porto"
           sample_loading_config sample_data 7 sample_outliers sample_files
           146443332 sample_fs "./data/porto/porto_processed.csv"
           sample_text).
  - vm_compute. reflexivity.
  - reflexivity.
  - vm_compute. reflexivity.
  - reflexivity.
  - reflexivity.
  - reflexivity.
  - constructor. simpl. lia.
Defined.
